(** * Minesweeper board and CSP solver (src/mines.py): a shallow embedding

    The hidden board, the visibility and mark arrays are numpy arrays of
    shape (height, width); they are lists of rows here.  Python integers
    are [Z].  A cell is a pair (row, column).

    Every array access of the source is either guarded by the range test
    of [get_neighbors] / [count_adjacent_mines], or made at a cell handed
    in by the caller.  The statements below take such cells inside the
    grid: numpy raises IndexError past the end of an axis and wraps a
    negative index, neither of which is part of this model. *)

From Stdlib Require Import Ascii.
From stdpp Require Import base numbers list list_numbers option gmap sets strings pretty.

Local Open Scope Z_scope.

(** ** Two-dimensional arrays *)

Definition cell : Type := Z * Z.

Definition get2 {A} (d : A) (a : list (list A)) (i j : Z) : A :=
  if bool_decide (0 ≤ i ∧ 0 ≤ j)
  then default d (a !! Z.to_nat i ≫= λ row, row !! Z.to_nat j)
  else d.

Definition set2 {A} (a : list (list A)) (i j : Z) (v : A) : list (list A) :=
  if bool_decide (0 ≤ i ∧ 0 ≤ j)
  then alter (λ row, <[Z.to_nat j := v]> row) (Z.to_nat i) a
  else a.

(** numpy shape (h, w) *)
Definition shape {A} (h w : Z) (a : list (list A)) : bool :=
  (0 <=? h) && (0 <=? w) && bool_decide (length a = Z.to_nat h)
  && forallb (λ row, bool_decide (length row = Z.to_nat w)) a.

(** np.zeros((h, w)), with the given zero element *)
Definition np_zeros {A} (z : A) (h w : Z) : list (list A) :=
  replicate (Z.to_nat h) (replicate (Z.to_nat w) z).

(** np.sum over a boolean array: the number of True entries *)
Definition np_sum (a : list (list bool)) : Z :=
  foldl (λ acc row, foldl (λ acc (x : bool), if x then acc + 1 else acc) acc row) 0 a.

(** ** MinesweeperBoard *)

Record MinesweeperBoard : Type := mkBoard {
  width : Z;
  height : Z;
  num_mines : Z;
  board : list (list Z);          (* hidden board, -1 is a mine *)
  visible : list (list bool);
  marked : list (list bool);
  first_move : bool;
  game_over : bool;
  won : bool
}.

Definition with_board (b : MinesweeperBoard) (x : list (list Z)) : MinesweeperBoard :=
  mkBoard (width b) (height b) (num_mines b) x (visible b) (marked b)
          (first_move b) (game_over b) (won b).

Definition with_visible (b : MinesweeperBoard) (x : list (list bool)) : MinesweeperBoard :=
  mkBoard (width b) (height b) (num_mines b) (board b) x (marked b)
          (first_move b) (game_over b) (won b).

Definition with_marked (b : MinesweeperBoard) (x : list (list bool)) : MinesweeperBoard :=
  mkBoard (width b) (height b) (num_mines b) (board b) (visible b) x
          (first_move b) (game_over b) (won b).

Definition with_first_move (b : MinesweeperBoard) (x : bool) : MinesweeperBoard :=
  mkBoard (width b) (height b) (num_mines b) (board b) (visible b) (marked b)
          x (game_over b) (won b).

Definition with_game_over (b : MinesweeperBoard) (x : bool) : MinesweeperBoard :=
  mkBoard (width b) (height b) (num_mines b) (board b) (visible b) (marked b)
          (first_move b) x (won b).

Definition with_won (b : MinesweeperBoard) (x : bool) : MinesweeperBoard :=
  mkBoard (width b) (height b) (num_mines b) (board b) (visible b) (marked b)
          (first_move b) (game_over b) x.

(** self.board[i, j] == -1 *)
Definition is_mine (b : MinesweeperBoard) (c : cell) : bool :=
  get2 0 (board b) c.1 c.2 =? -1.

Definition is_visible (b : MinesweeperBoard) (c : cell) : bool :=
  get2 false (visible b) c.1 c.2.

Definition is_marked (b : MinesweeperBoard) (c : cell) : bool :=
  get2 false (marked b) c.1 c.2.

(** 0 <= ni < self.height and 0 <= nj < self.width *)
Definition in_grid (b : MinesweeperBoard) (i j : Z) : bool :=
  (0 <=? i) && (i <? height b) && (0 <=? j) && (j <? width b).

(** The (di, dj) pairs of the two nested loops over [-1, 0, 1], the pair
    (0, 0) skipped by [continue]. *)
Definition neighbor_offsets : list (Z * Z) :=
  di ← [-1; 0; 1]; dj ← [-1; 0; 1];
  if bool_decide (di = 0 ∧ dj = 0) then [] else [(di, dj)].

Definition count_adjacent_mines (b : MinesweeperBoard) (i j : Z) : Z :=
  foldl (λ count d,
           let ni := i + d.1 in
           let nj := j + d.2 in
           if in_grid b ni nj && (get2 0 (board b) ni nj =? -1)
           then count + 1 else count)
        0 neighbor_offsets.

Definition get_neighbors (b : MinesweeperBoard) (i j : Z) : list cell :=
  foldl (λ neighbors d,
           let ni := i + d.1 in
           let nj := j + d.2 in
           if in_grid b ni nj then neighbors ++ [(ni, nj)] else neighbors)
        [] neighbor_offsets.

(** [(i, j) for i in range(self.height) for j in range(self.width)] *)
Definition positions (h w : Z) : list cell :=
  i ← seqZ 0 h; j ← seqZ 0 w; [(i, j)].

(** *** Mine placement

    [random.sample(positions, k)] draws k distinct elements.  The random
    source is a stream of naturals, one per draw: the draw takes the
    element at that index (modulo the number of elements left) and removes
    it from the pool.  A sample larger than the population, or a negative
    size, raises ValueError: [None]. *)
Fixpoint draw {A} (rng : list nat) (pool : list A) (k : nat) : list A :=
  match k with
  | O => []
  | S k' =>
      let idx := (hd 0%nat rng `mod` length pool)%nat in
      match pool !! idx with
      | Some x => x :: draw (tl rng) (delete idx pool) k'
      | None => []
      end
  end.

Definition random_sample {A} (rng : list nat) (population : list A) (k : Z) : option (list A) :=
  if bool_decide (0 ≤ k ≤ Z.of_nat (length population))
  then Some (draw rng population (Z.to_nat k))
  else None.

(** The second loop nest of place_mines_randomly, also the body of the
    recount after a relocation: a non-mine cell receives its count. *)
Definition recount (b : MinesweeperBoard) (c : cell) : MinesweeperBoard :=
  if negb (get2 0 (board b) c.1 c.2 =? -1)
  then with_board b (set2 (board b) c.1 c.2 (count_adjacent_mines b c.1 c.2))
  else b.

(** Lines 24-25: one turn of the loop placing the mines. *)
Definition place_mine (b : MinesweeperBoard) (c : cell) : MinesweeperBoard :=
  with_board b (set2 (board b) c.1 c.2 (-1)).

Definition place_mines_randomly (rng : list nat) (b : MinesweeperBoard) : option MinesweeperBoard :=
  mine_positions ← random_sample rng (positions (height b) (width b)) (num_mines b);
  let b1 := foldl place_mine b mine_positions in
  Some (foldl recount b1 (positions (height b) (width b))).

(** MinesweeperBoard.__init__: np.zeros refuses a negative dimension
    (ValueError), random.sample a sample size outside 0..width*height;
    the constructor itself checks nothing. *)
Definition new_board (rng : list nat) (w h n : Z) : option MinesweeperBoard :=
  if bool_decide (0 ≤ h ∧ 0 ≤ w)
  then place_mines_randomly rng
         (mkBoard w h n (np_zeros 0 h w) (np_zeros false h w) (np_zeros false h w)
                  true false false)
  else None.

(** *** probe *)

(** Lines 65-70: swap the mine from (i, j) to (ni, nj), then recount the
    two neighbourhoods and the two cells. *)
Definition swap_mine (b : MinesweeperBoard) (i j ni nj : Z) : MinesweeperBoard :=
  let b1 := with_board b (set2 (board b) i j 0) in
  let b2 := with_board b1 (set2 (board b1) ni nj (-1)) in
  foldl recount b2 (get_neighbors b2 i j ++ get_neighbors b2 ni nj ++ [(i, j); (ni, nj)]).

(** The inner loop over nj, left by [break] at the first non-mine cell. *)
Fixpoint relocate_row (b : MinesweeperBoard) (i j ni : Z) (cols : list Z) : MinesweeperBoard :=
  match cols with
  | [] => b
  | nj :: cols' =>
      if negb (get2 0 (board b) ni nj =? -1)
      then swap_mine b i j ni nj
      else relocate_row b i j ni cols'
  end.

(** The outer loop over ni, left as soon as (i, j) holds no mine. *)
Fixpoint relocate_rows (b : MinesweeperBoard) (i j : Z) (rows : list Z) : MinesweeperBoard :=
  match rows with
  | [] => b
  | ni :: rows' =>
      let b' := relocate_row b i j ni (seqZ 0 (width b)) in
      if negb (get2 0 (board b') i j =? -1) then b' else relocate_rows b' i j rows'
  end.

Definition first_move_guard (b : MinesweeperBoard) (i j : Z) : MinesweeperBoard :=
  if first_move b then
    let b0 := with_first_move b false in
    if get2 0 (board b0) i j =? -1
    then relocate_rows b0 i j (seqZ 0 (height b0))
    else b0
  else b.

(** One neighbour (nr, nc) of the cell popped from the queue. *)
Definition reveal_neighbor (b : MinesweeperBoard)
    (st : list (list bool) * list cell) (n : cell) : list (list bool) * list cell :=
  if negb (get2 false st.1 n.1 n.2) && negb (get2 false (marked b) n.1 n.2)
  then (set2 st.1 n.1 n.2 true,
        if get2 0 (board b) n.1 n.2 =? 0 then st.2 ++ [n] else st.2)
  else st.

(** The while loop over the queue.  [None]: the loop is still running
    when the fuel is spent. *)
Fixpoint flood_fill (fuel : nat) (b : MinesweeperBoard)
    (vis : list (list bool)) (queue : list cell) : option (list (list bool)) :=
  match queue with
  | [] => Some vis
  | rc :: rest =>
      match fuel with
      | O => None
      | S fuel' =>
          let st := foldl (reveal_neighbor b) (vis, rest) (get_neighbors b rc.1 rc.2) in
          flood_fill fuel' b st.1 st.2
      end
  end.

(** Cells of the grid that are not visible: each turn of the flood fill
    either shortens the queue or takes one of them away. *)
Definition hidden_cells (b : MinesweeperBoard) (vis : list (list bool)) : list cell :=
  filter (λ c, get2 false vis c.1 c.2 = false) (positions (height b) (width b)).

Definition flood_fuel (b : MinesweeperBoard) (vis : list (list bool)) : nat :=
  S (length (hidden_cells b vis)).

(** Lines 75-98: the part of probe after the first-move guard.  It
    returns False on a mine and True otherwise. *)
Definition probe_after_guard (b1 : MinesweeperBoard) (i j : Z) : option (bool * MinesweeperBoard) :=
  if get2 0 (board b1) i j =? -1
  then Some (false, with_game_over b1 true)
  else
    let vis1 := set2 (visible b1) i j true in
    vis2 ← (if get2 0 (board b1) i j =? 0
            then flood_fill (flood_fuel b1 vis1) b1 vis1 [(i, j)]
            else Some vis1);
    let b2 := with_visible b1 vis2 in
    Some (true,
          if np_sum (visible b2) =? width b2 * height b2 - num_mines b2
          then with_won b2 true else b2).

Definition probe (b : MinesweeperBoard) (i j : Z) : option (bool * MinesweeperBoard) :=
  probe_after_guard (first_move_guard b i j) i j.

Definition mark_mine (b : MinesweeperBoard) (i j : Z) : MinesweeperBoard :=
  with_marked b (set2 (marked b) i j true).

(** ** Constraint and CSPStrategy *)

(** [variables] is a Python set of cells; [value] is the required number
    of mines among them.  Python iterates a set in an order it leaves
    unspecified; here a loop over a set runs over [elements], which is
    likewise some fixed duplicate-free order.  No statement below depends
    on which order it is. *)
Record Constraint : Type := mkConstraint {
  variables : gset cell;
  value : Z
}.

Inductive Action : Type := Probe | Mark.

(** The justification strings returned with a move, one constructor per
    string of the source. *)
Inductive Reason : Type :=
  | MustBeMine_AllVariables      (* "... all variables in the constraint must be mines." *)
  | MustBeClear_AllVariables     (* "... all variables in the constraint must be empty." *)
  | CrapsShoot                   (* "This is a 'craps shoot' situation ..." *)
  | ClearInEverySolution         (* "... it's not a mine in any valid solution." *)
  | MineInEverySolution          (* "... it's a mine in all valid solutions." *)
  | BestGuess                    (* the strings of make_best_guess *)
  | Unconstrained.               (* the strings of choose_unconstrained_square *)

Definition Move : Type := Action * cell * Reason.

(** The solver object: its board and its list of constraints (the
    attribute moves_made is never read or written after construction). *)
Definition CSPStrategy : Type := MinesweeperBoard * list Constraint.

(** *** simplify_constraints *)

(** The loop over the variables of one constraint: visible cells are
    dropped, marked cells lower the value, the others are kept. *)
Definition classify (b : MinesweeperBoard) (acc : list cell * Z) (v : cell) : list cell * Z :=
  if is_visible b v then acc
  else if is_marked b v then (acc.1, acc.2 - 1)
  else (acc.1 ++ [v], acc.2).

Definition reveal (b : MinesweeperBoard) (v : cell) : MinesweeperBoard :=
  with_visible b (set2 (visible b) v.1 v.2 true).

Definition simplify_one (st : CSPStrategy) (c : Constraint) : CSPStrategy :=
  let b := st.1 in
  let nv := foldl (classify b) ([], value c) (elements (variables c)) in
  let new_vars := nv.1 in
  let new_value := nv.2 in
  if bool_decide (length new_vars = 0%nat) then st
  else if new_value =? 0 then (foldl reveal b new_vars, st.2)
  else if new_value =? Z.of_nat (length new_vars)
       then (foldl (λ b v, mark_mine b v.1 v.2) b new_vars, st.2)
  else (b, st.2 ++ [mkConstraint (list_to_set new_vars) new_value]).

Definition simplify_constraints (s : CSPStrategy) : CSPStrategy :=
  foldl simplify_one (s.1, []) s.2.

(** *** simplify_constraints_by_subset *)

(** The inner loop, from index j on: [todo] is the part of the list not
    yet visited.  Returns the rewritten part and the flag [changed]. *)
Fixpoint subset_inner (i : nat) (c1 : Constraint) (j : nat) (todo : list Constraint)
    : list Constraint * bool :=
  match todo with
  | [] => ([], false)
  | c2 :: rest =>
      if negb (i =? j)%nat && bool_decide (variables c1 ⊆ variables c2) then
        let new_vars := variables c2 ∖ variables c1 in
        let new_value := value c2 - value c1 in
        if negb (bool_decide (new_vars = ∅))
        then (mkConstraint new_vars new_value :: (subset_inner i c1 (S j) rest).1, true)
        else (rest, true)                        (* pop(j); break *)
      else
        let r := subset_inner i c1 (S j) rest in (c2 :: r.1, r.2)
  end.

(** The outer loop, from index i on; it stops after the first i whose
    inner loop changed something. *)
Fixpoint subset_outer (cs : list Constraint) (i : nat) (todo : list Constraint)
    : list Constraint * bool :=
  match todo with
  | [] => (cs, false)
  | c1 :: todo' =>
      let r := subset_inner i c1 0 cs in
      if r.2 then r else subset_outer cs (S i) todo'
  end.

Definition subset_pass (cs : list Constraint) : list Constraint * bool :=
  subset_outer cs 0 cs.

(** The loop [while changed].  [None]: still changing when the fuel is
    spent. *)
Fixpoint subset_loop (fuel : nat) (cs : list Constraint) : option (list Constraint) :=
  let r := subset_pass cs in
  if r.2 then
    match fuel with
    | O => None
    | S fuel' => subset_loop fuel' r.1
    end
  else Some cs.

(** Every pass that changes the list removes a constraint or removes
    variables from one. *)
Definition subset_measure (cs : list Constraint) : nat :=
  (length cs + sum_list (map (λ c, size (variables c)) cs))%nat.

Definition simplify_constraints_by_subset (cs : list Constraint) : option (list Constraint) :=
  subset_loop (subset_measure cs) cs.

(** *** find_certain_move *)

Definition certain_in (b : MinesweeperBoard) (c : Constraint) : option Move :=
  match (if value c =? Z.of_nat (size (variables c))
         then head (filter (λ v, is_marked b v = false) (elements (variables c)))
         else None) with
  | Some v => Some (Mark, v, MustBeMine_AllVariables)
  | None =>
      if value c =? 0 then
        match head (filter (λ v, is_visible b v = false ∧ is_marked b v = false)
                           (elements (variables c))) with
        | Some v => Some (Probe, v, MustBeClear_AllVariables)
        | None => None
        end
      else None
  end.

Fixpoint find_certain_move (b : MinesweeperBoard) (cs : list Constraint) : option Move :=
  match cs with
  | [] => None
  | c :: cs' =>
      match certain_in b c with
      | Some m => Some m
      | None => find_certain_move b cs'
      end
  end.

(** *** find_coupled_constraints *)

(** any(v in c2.variables for v in c1.variables) *)
Definition shares_variable (c1 c2 : Constraint) : bool :=
  existsb (λ v, bool_decide (v ∈ variables c2)) (elements (variables c1)).

(** constraint_graph[i]: the indices j ≠ i of the constraints sharing a
    variable with constraint i.  The source keeps them in a set of
    integers; the loop over it is taken by increasing index. *)
Definition constraint_graph (cs : list Constraint) (i : nat) : list nat :=
  match cs !! i with
  | None => []
  | Some c1 =>
      omap (λ jc : nat * Constraint,
              if negb (i =? jc.1)%nat && shares_variable c1 jc.2 then Some jc.1 else None)
           (imap pair cs)
  end.

Definition visit (st : gset nat * list nat) (neighbor : nat) : gset nat * list nat :=
  if bool_decide (neighbor ∉ st.1)
  then ({[neighbor]} ∪ st.1, st.2 ++ [neighbor])
  else st.

(** The breadth-first loop of one component.  [None]: out of fuel. *)
Fixpoint component_bfs (fuel : nat) (cs : list Constraint)
    (visited : gset nat) (queue component : list nat) : option (gset nat * list nat) :=
  match queue with
  | [] => Some (visited, component)
  | node :: rest =>
      match fuel with
      | O => None
      | S fuel' =>
          let st := foldl visit (visited, rest) (constraint_graph cs node) in
          component_bfs fuel' cs st.1 st.2 (component ++ [node])
      end
  end.

Fixpoint coupled_from (cs : list Constraint) (visited : gset nat)
    (coupled_sets : list (list Constraint)) (indices : list nat)
    : option (list (list Constraint)) :=
  match indices with
  | [] => Some coupled_sets
  | i :: indices' =>
      if bool_decide (i ∉ visited) then
        r ← component_bfs (length cs) cs ({[i]} ∪ visited) [i] [];
        coupled_from cs r.1 (coupled_sets ++ [omap (λ idx, cs !! idx) r.2]) indices'
      else coupled_from cs visited coupled_sets indices'
  end.

Definition find_coupled_constraints (cs : list Constraint) : option (list (list Constraint)) :=
  coupled_from cs ∅ [] (seq 0 (length cs)).

(** *** check_craps_shoot *)

(** The union of the variable sets of a subset of constraints. *)
Definition all_variables (constraints_subset : list Constraint) : gset cell :=
  foldl (λ all_vars c, all_vars ∪ variables c) ∅ constraints_subset.

(** An unknown neighbour of v outside the subset's variables. *)
Definition has_outside_neighbor (b : MinesweeperBoard) (all_vars : gset cell) (v : cell) : bool :=
  existsb (λ n, negb (is_visible b n) && negb (is_marked b n) && bool_decide (n ∉ all_vars))
          (get_neighbors b v.1 v.2).

(** [r] is the random source of random.choice; the outer [None] is its
    IndexError on an empty list. *)
Definition check_craps_shoot (r : nat) (b : MinesweeperBoard)
    (constraints_subset : list Constraint) : option (option Move) :=
  let all_vars := all_variables constraints_subset in
  if existsb (has_outside_neighbor b all_vars) (elements all_vars) then Some None
  else
    v ← elements all_vars !! (r `mod` length (elements all_vars))%nat;
    Some (Some (Probe, v, CrapsShoot)).

(** *** solve_constraints *)

(** The state the nested function backtrack works on: the dictionary
    assigned_vars it is handed (one object, shared by all calls), and
    the two counters of the enclosing function. *)
Record Tally : Type := mkTally {
  assigned_vars : gmap cell Z;
  total_solutions : Z;
  var_is_mine_count : gmap cell Z
}.

Definition with_assigned (t : Tally) (a : gmap cell Z) : Tally :=
  mkTally a (total_solutions t) (var_is_mine_count t).

(** sum(assigned_vars.get(var, 0) for var in constraint.variables) *)
Definition mine_count (assigned : gmap cell Z) (c : Constraint) : Z :=
  foldl (λ acc var, acc + default 0 (assigned !! var)) 0 (elements (variables c)).

(** Lines 340-343: a valid solution is counted. *)
Definition record_solution (t : Tally) : Tally :=
  mkTally (assigned_vars t) (total_solutions t + 1)
    (foldl (λ cnt (kv : cell * Z),
              if negb (kv.2 =? 0) then alter Z.succ kv.1 cnt else cnt)
           (var_is_mine_count t) (map_to_list (assigned_vars t))).

(** backtrack(var_idx, assigned_vars, _): [rest] is all_vars[var_idx:]. *)
Fixpoint backtrack (constraints_subset : list Constraint) (rest : list cell) (t : Tally) : Tally :=
  match rest with
  | [] =>
      if forallb (λ c, mine_count (assigned_vars t) c =? value c) constraints_subset
      then record_solution t
      else t
  | var :: rest' =>
      let t1 := backtrack constraints_subset rest'
                  (with_assigned t (<[var := 0]> (assigned_vars t))) in
      let t2 := backtrack constraints_subset rest'
                  (with_assigned t1 (<[var := 1]> (assigned_vars t1))) in
      with_assigned t2 (delete var (assigned_vars t2))
  end.

(** The tally after [backtrack(0, {}, constraints_subset)], for
    all_vars listed as [all_vars]. *)
Definition enumerate (constraints_subset : list Constraint) (all_vars : list cell) : Tally :=
  backtrack constraints_subset all_vars
    (mkTally ∅ 0 (list_to_map ((λ var, (var, 0)) <$> all_vars))).

(** Lines 367-374: the first variable that is a mine in no solution or
    in every solution. *)
Fixpoint certain_in_tally (t : Tally) (vars : list cell) : option Move :=
  match vars with
  | [] => None
  | var :: vars' =>
      let n := default 0 (var_is_mine_count t !! var) in
      if n =? 0 then Some (Probe, var, ClearInEverySolution)
      else if n =? total_solutions t then Some (Mark, var, MineInEverySolution)
      else certain_in_tally t vars'
  end.

Definition solve_constraints (constraints_subset : list Constraint) : option Move :=
  let all_vars := elements (all_variables constraints_subset) in
  let t := enumerate constraints_subset all_vars in
  if total_solutions t =? 0 then None
  else certain_in_tally t all_vars.

(** *** add_constraint_from_move, update_constraints *)

Definition add_constraint_from_move (b : MinesweeperBoard) (cs : list Constraint) (c : cell)
    : list Constraint :=
  if negb (is_visible b c) then cs
  else
    let v := get2 0 (board b) c.1 c.2 in
    let unknown_neighbors := filter (λ n, is_visible b n = false) (get_neighbors b c.1 c.2) in
    if negb (bool_decide (unknown_neighbors = [])) && (0 <? v)
    then cs ++ [mkConstraint (list_to_set unknown_neighbors) v]
    else cs.

Definition update_constraints (s : CSPStrategy) : CSPStrategy :=
  (s.1,
   foldl (λ cs c, if is_visible s.1 c then add_constraint_from_move s.1 cs c else cs)
         s.2 (positions (height s.1) (width s.1))).

(** *** next_move *)

Section NextMove.

(** Steps 6 and 7 (make_best_guess, then choose_unconstrained_square):
    floating-point odds and shuffles, kept abstract. *)
Variable guess : CSPStrategy → option Move.

(** The loop over the coupled subsets. *)
Fixpoint try_components (r : nat) (b : MinesweeperBoard)
    (coupled_constraints : list (list Constraint)) : option (option Move) :=
  match coupled_constraints with
  | [] => Some None
  | constraints_subset :: more =>
      craps_shoot ← check_craps_shoot r b constraints_subset;
      match craps_shoot with
      | Some m => Some (Some m)
      | None =>
          match solve_constraints constraints_subset with
          | Some m => Some (Some m)
          | None => try_components r b more
          end
      end
  end.

(** Returns the move (or Python's None) and the solver after the call. *)
Definition next_move (r : nat) (s : CSPStrategy) : option (option Move * CSPStrategy) :=
  let s1 := simplify_constraints s in
  cs2 ← simplify_constraints_by_subset s1.2;
  let s2 := (s1.1, cs2) in
  match find_certain_move s2.1 s2.2 with
  | Some m => Some (Some m, s2)
  | None =>
      coupled_constraints ← find_coupled_constraints cs2;
      found ← try_components r s2.1 coupled_constraints;
      match found with
      | Some m => Some (Some m, s2)
      | None => Some (guess s2, s2)
      end
  end.

End NextMove.

(** ** Properties of board states used in the statements

    All are boolean, so that they can be evaluated on a concrete board. *)

(** The three arrays have shape (height, width). *)
Definition well_shaped (b : MinesweeperBoard) : bool :=
  shape (height b) (width b) (board b)
  && shape (height b) (width b) (visible b)
  && shape (height b) (width b) (marked b).

(** Every non-mine cell holds the number count_adjacent_mines gives. *)
Definition counts_ok (b : MinesweeperBoard) : bool :=
  forallb (λ c, is_mine b c || (get2 0 (board b) c.1 c.2 =? count_adjacent_mines b c.1 c.2))
          (positions (height b) (width b)).

(** The number of mine cells on the hidden board. *)
Definition mine_total (b : MinesweeperBoard) : Z :=
  Z.of_nat (length (filter (λ c, is_mine b c = true) (positions (height b) (width b)))).

(** No visible cell is a mine. *)
Definition visible_safe (b : MinesweeperBoard) : bool :=
  forallb (λ c, negb (is_visible b c) || negb (is_mine b c))
          (positions (height b) (width b)).

(** No cell is visible: the state of the board before its first probe. *)
Definition nothing_visible (b : MinesweeperBoard) : bool :=
  forallb (λ c, negb (is_visible b c)) (positions (height b) (width b)).

(** The first non-mine cell in row-major order. *)
Definition first_safe_cell (b : MinesweeperBoard) : option cell :=
  head (filter (λ c, is_mine b c = false) (positions (height b) (width b))).

(** [b'] differs from [b] in the hidden board at most. *)
Definition same_but_board (b b' : MinesweeperBoard) : Prop :=
  width b' = width b ∧ height b' = height b ∧ num_mines b' = num_mines b
  ∧ visible b' = visible b ∧ marked b' = marked b
  ∧ first_move b' = first_move b ∧ game_over b' = game_over b ∧ won b' = won b.

(** ** game.py, start_game: the checks of the Custom difficulty

    Each failed check shows a message box and returns before a board is
    created. *)
Inductive ConfigError : Type :=
  | InvalidSize        (* "Board size must be at least 5x5." *)
  | InvalidMines       (* "Number of mines must be at least 1." *)
  | TooManyMines.      (* "Number of mines must be less than the total number of cells." *)

Definition validate_custom (w h n : Z) : option ConfigError :=
  if (w <? 5) || (h <? 5) then Some InvalidSize
  else if n <? 1 then Some InvalidMines
  else if w * h <=? n then Some TooManyMines
  else None.

(** ** Concrete boards used in the examples below *)

(** A 2x2 board with its only mine in the corner (0, 0), before the
    first probe. *)
Definition corner_mine_board : MinesweeperBoard :=
  mkBoard 2 2 1 [[-1; 1]; [1; 1]]
          [[false; false]; [false; false]] [[false; false]; [false; false]]
          true false false.

(** One row, mines in columns 1 and 4, before the first probe. *)
Definition row_board : MinesweeperBoard :=
  mkBoard 5 1 2 [[1; -1; 1; 1; -1]]
          [[false; false; false; false; false]] [[false; false; false; false; false]]
          true false false.

(** One row of two cells, the mine on the left, after probe(0, 1): the
    game is won. *)
Definition won_board : MinesweeperBoard :=
  mkBoard 2 1 1 [[-1; 1]] [[false; true]] [[false; false]] false false true.

(** One row of three cells, the mine in the middle, after probe(0, 0)
    and probe(0, 1): the game is lost. *)
Definition lost_board : MinesweeperBoard :=
  mkBoard 3 1 1 [[1; -1; 1]] [[true; false; false]] [[false; false; false]] false true false.

(** [row_board] after probe(0, 0) and probe(0, 2). *)
Definition row_board_probed : MinesweeperBoard :=
  mkBoard 5 1 2 [[1; -1; 1; 1; -1]]
          [[true; false; true; false; false]] [[false; false; false; false; false]]
          false false false.

(** The solver on that board, after update_constraints: its constraints
    are {(0,1)} = 1 and {(0,1), (0,3)} = 1. *)
Definition row_solver : CSPStrategy := update_constraints (row_board_probed, []).

(** ** Worlds of a component

    The assignments backtrack reaches at its leaves below a partial
    assignment, in the order it reaches them. *)
Fixpoint worlds (rest : list cell) (assigned : gmap cell Z) : list (gmap cell Z) :=
  match rest with
  | [] => [assigned]
  | var :: rest' =>
      worlds rest' (<[var := 0]> assigned) ++ worlds rest' (<[var := 1]> assigned)
  end.

(** The test made at a leaf (lines 334-337). *)
Definition valid (constraints_subset : list Constraint) (assigned : gmap cell Z) : bool :=
  forallb (λ c, mine_count assigned c =? value c) constraints_subset.

(** [if is_mine:] for the value stored at a variable. *)
Definition mine_in (assigned : gmap cell Z) (v : cell) : bool :=
  match assigned !! v with
  | Some x => negb (x =? 0)
  | None => false
  end.

(** An assignment of safe/mine to variables, as the spec speaks of it:
    [true] is mine.  The mine-count of a constraint's variables. *)
Definition mines_in (W : gmap cell bool) (c : Constraint) : Z :=
  Z.of_nat (length (filter (λ v, W !! v = Some true) (elements (variables c)))).

(** The assignment satisfies every constraint exactly. *)
Definition satisfies (W : gmap cell bool) (cs : list Constraint) : Prop :=
  ∀ c, c ∈ cs → mines_in W c = value c.

(** The two encodings of safe/mine: the 0/1 stored by the code and the
    booleans of a world. *)
Definition to_mine (x : Z) : bool := negb (x =? 0).
Definition of_mine (m : bool) : Z := if m then 1 else 0.

(** ** Constraints that are true of the hidden board

    The variables of the constraint are cells of the grid and exactly
    [value] of them hold a mine: what a constraint derived from a visible
    number and correct marks says. *)
Definition holds_on (b : MinesweeperBoard) (c : Constraint) : bool :=
  forallb (λ v, in_grid b v.1 v.2) (elements (variables c))
  && (Z.of_nat (length (filter (λ v, is_mine b v = true) (elements (variables c)))) =? value c).

Definition all_hold (b : MinesweeperBoard) (cs : list Constraint) : bool :=
  forallb (holds_on b) cs.

(** The hidden layout as a world over the variables V. *)
Definition true_world (b : MinesweeperBoard) (V : gset cell) : gmap cell bool :=
  list_to_map ((λ v, (v, is_mine b v)) <$> elements V).

(** A 2x4 board with mines at (0,0), (0,3), (1,1), (1,3), before the
    first probe ... *)
Definition closed_start : MinesweeperBoard :=
  mkBoard 4 2 4 [[-1; 2; 3; -1]; [2; -1; 3; -1]]
          [[false; false; false; false]; [false; false; false; false]]
          [[false; false; false; false]; [false; false; false; false]]
          true false false.

(** ... and after probe(0,1), probe(0,2), mark_mine(0,0), mark_mine(0,3). *)
Definition closed_board : MinesweeperBoard :=
  mkBoard 4 2 4 [[-1; 2; 3; -1]; [2; -1; 3; -1]]
          [[false; true; true; false]; [false; false; false; false]]
          [[true; false; false; true]; [false; false; false; false]]
          false false false.

(** The solver on that board after update_constraints. *)
Definition closed_solver : CSPStrategy := update_constraints (closed_board, []).

(** ** simplify_constraints followed by simplify_constraints_by_subset *)

(** Steps 1 and 2 of next_move. *)
Definition simplify_pair (s : CSPStrategy) : option CSPStrategy :=
  let s1 := simplify_constraints s in
  cs2 ← simplify_constraints_by_subset s1.2;
  Some (s1.1, cs2).

(** Every constraint has a variable. *)
Definition nonempty_constraints (cs : list Constraint) : bool :=
  forallb (λ c, negb (bool_decide (variables c = ∅))) cs.

(** Two constraints over cells of one row, used in the examples:
    {(0,1)} = 1 and {(0,1), (0,3)} = 0. *)
Definition one_mine_at_1 : Constraint := mkConstraint {[ (0, 1) ]} 1.
Definition none_at_1_or_3 : Constraint := mkConstraint {[ (0, 1); (0, 3) ]} 0.

(** One row [0, 1, mine, 1]: fresh, and after probe(0,1) and
    probe(0,3). *)
Definition stale_start : MinesweeperBoard :=
  mkBoard 4 1 1 [[0; 1; -1; 1]] [[false; false; false; false]] [[false; false; false; false]]
          true false false.

Definition stale_board : MinesweeperBoard :=
  mkBoard 4 1 1 [[0; 1; -1; 1]] [[false; true; false; true]] [[false; false; false; false]]
          false false false.

(** The solver on that board after update_constraints: its constraints
    are {(0,0), (0,2)} = 1 and {(0,2)} = 1, in this order. *)
Definition stale_solver : CSPStrategy := update_constraints (stale_board, []).

(** A fresh 5x5 board with its one mine at (4,1), a game the Custom
    dialog accepts. *)
Definition lone_mine_board : MinesweeperBoard :=
  mkBoard 5 5 1
          [[0; 0; 0; 0; 0]; [0; 0; 0; 0; 0]; [0; 0; 0; 0; 0]; [1; 1; 1; 0; 0]; [1; -1; 1; 0; 0]]
          (np_zeros false 5 5) (np_zeros false 5 5) true false false.

(** The same board after probe(0, 0), the first move of the game loop:
    the cascade has opened every cell but (4,0) and (4,1). *)
Definition lone_mine_opened : MinesweeperBoard :=
  mkBoard 5 5 1
          [[0; 0; 0; 0; 0]; [0; 0; 0; 0; 0]; [0; 0; 0; 0; 0]; [1; 1; 1; 0; 0]; [1; -1; 1; 0; 0]]
          [[true; true; true; true; true]; [true; true; true; true; true];
           [true; true; true; true; true]; [true; true; true; true; true];
           [false; false; true; true; true]]
          (np_zeros false 5 5) false false false.

(** The solver on that board after update_constraints: its constraints
    are {(4,0), (4,1)} = 1 twice (from (3,0) and (3,1)) and {(4,1)} = 1
    twice (from (3,2) and (4,2)), in this order. *)
Definition lone_mine_solver : CSPStrategy := update_constraints (lone_mine_opened, []).

(** ** Solver states derived from the board

    The number of mines among the cells of a list. *)
Definition mines_among (b : MinesweeperBoard) (l : list cell) : nat :=
  length (filter (λ v, is_mine b v = true) l).

(** Every marked cell holds a mine. *)
Definition marks_ok (b : MinesweeperBoard) : bool :=
  forallb (λ c, negb (is_marked b c) || is_mine b c) (positions (height b) (width b)).

(** What solver-driven play maintains: a well-shaped board of consistent
    counts on which the visible cells are safe and the marks correct, and
    constraints that all hold on it. *)
Definition sound_state (s : CSPStrategy) : bool :=
  well_shaped s.1 && counts_ok s.1 && visible_safe s.1 && marks_ok s.1 && all_hold s.1 s.2.

(** * The rest of the two files

    What follows models the code of src/mines.py and src/game.py that
    the definitions above leave out. *)

(** ** A board used in the examples below

    [stale_start] after probe(0, 0): the cascade has opened (0, 1). *)
Definition stale_opened : MinesweeperBoard :=
  mkBoard 4 1 1 [[0; 1; -1; 1]] [[true; true; false; false]] [[false; false; false; false]]
          false false false.

(** *** get_visible_board *)

(** np.full((h, w), v) *)
Definition np_full {A} (h w : Z) (v : A) : list (list A) :=
  replicate (Z.to_nat h) (replicate (Z.to_nat w) v).

(** The body of the two loops at one cell; str() of an integer is its
    decimal numeral. *)
Definition show_cell (b : MinesweeperBoard) (visible_board : list (list string)) (c : cell)
    : list (list string) :=
  if is_visible b c then set2 visible_board c.1 c.2 (pretty (get2 0 (board b) c.1 c.2))
  else if is_marked b c then set2 visible_board c.1 c.2 "F"
  else visible_board.

Definition get_visible_board (b : MinesweeperBoard) : list (list string) :=
  foldl (show_cell b) (np_full (height b) (width b) "?") (positions (height b) (width b)).

(** int() on a string: an optional minus sign and decimal digits.
    [None] is ValueError.  (Python also accepts surrounding blanks, a
    plus sign and underscores between digits, none of which occurs in an
    entry of get_visible_board.) *)
Definition digit_of (a : ascii) : option Z :=
  let n := Z.of_N (Ascii.N_of_ascii a) - 48 in
  if bool_decide (0 ≤ n ≤ 9) then Some n else None.

Fixpoint int_of_digits (acc : Z) (s : string) : option Z :=
  match s with
  | EmptyString => Some acc
  | String a s' => d ← digit_of a; int_of_digits (10 * acc + d) s'
  end.

Definition py_int (s : string) : option Z :=
  match s with
  | EmptyString => None
  | String a s' =>
      if Ascii.eqb a "-"%char
      then (if String.eqb s' "" then None else Z.opp <$> int_of_digits 0 s')
      else int_of_digits 0 s
  end.

(** l[k] for a Python list: a negative index counts from the end,
    [None] is IndexError. *)
Definition py_index {A} (l : list A) (k : Z) : option A :=
  if bool_decide (0 ≤ k) then l !! Z.to_nat k
  else if bool_decide (0 ≤ Z.of_nat (length l) + k) then l !! Z.to_nat (Z.of_nat (length l) + k)
  else None.

(** ** game.py, update_displayed_board: the options set on the label of
    one cell *)
Record CellStyle : Type := mkStyle {
  background : string;
  relief : string;
  foreground : string
}.

Definition number_colors : list string :=
  ["blue"; "green"; "red"; "purple"; "maroon"; "turquoise"; "black"; "gray"].

Definition cell_style (value : string) : option CellStyle :=
  let cr : string * string :=
    if String.eqb value "?" then ("lightgray", "raised")
    else if String.eqb value "F" then ("red", "raised")
    else if String.eqb value "0" then ("#DDDDDD", "sunken")
    else if String.eqb value "-1" then ("black", "sunken")
    else ("#CCCCCC", "sunken") in
  text_color ← (if bool_decide (value ∈ ["1"; "2"; "3"; "4"; "5"; "6"; "7"; "8"])
                then i ← py_int value; py_index number_colors (i - 1)
                else Some "black");
  Some (mkStyle cr.1 cr.2 text_color).

(** The entry of the player's view at a cell, as the loops leave it. *)
Definition shown (b : MinesweeperBoard) (c : cell) : string :=
  if is_visible b c then pretty (get2 0 (board b) c.1 c.2)
  else if is_marked b c then "F" else "?".

(** *** choose_unconstrained_square *)

(** not self.board.visible[i, j] and not self.board.marked[i, j] *)
Definition unknown (b : MinesweeperBoard) (c : cell) : bool :=
  negb (is_visible b c) && negb (is_marked b c).

Definition corners (b : MinesweeperBoard) : list cell :=
  [(0, 0); (0, width b - 1); (height b - 1, 0); (height b - 1, width b - 1)].

(** The border cells that are no corners, in the order of the two loops. *)
Definition edges (b : MinesweeperBoard) : list cell :=
  filter (λ c, (c.1 = 0 ∨ c.1 = height b - 1 ∨ c.2 = 0 ∨ c.2 = width b - 1) ∧ c ∉ corners b)
         (positions (height b) (width b)).

(** random.shuffle(l): the elements of l in a random order, here the
    order in which [draw] takes all of them. *)
Definition random_shuffle {A} (rng : list nat) (l : list A) : list A :=
  draw rng l (length l).

(** Lines 498-501: the number of pairs (constraint, neighbour of the
    cell among its variables). *)
Definition overlap (b : MinesweeperBoard) (cs : list Constraint) (c : cell) : Z :=
  foldl (λ ov constraint,
           ov + Z.of_nat (length (filter (λ n, n ∈ variables constraint)
                                         (get_neighbors b c.1 c.2))))
        0 cs.

(** One turn of the loops over the interior: the state is
    (max_overlap, best_square). *)
Definition interior_step (b : MinesweeperBoard) (cs : list Constraint)
    (st : Z * option cell) (c : cell) : Z * option cell :=
  if unknown b c then
    let ov := overlap b cs c in
    if st.1 <? ov then (ov, Some c) else st
  else st.

(** for i in range(1, height-1): for j in range(1, width-1) *)
Definition interior (b : MinesweeperBoard) : list cell :=
  i ← seqZ 1 (height b - 2); j ← seqZ 1 (width b - 2); [(i, j)].

(** The four justification strings of choose_unconstrained_square. *)
Inductive SquareReason : Type :=
  | CornerSquare      (* "Choosing a corner square because corners have the highest ..." *)
  | EdgeSquare        (* "Choosing an edge square because edges have a higher ..." *)
  | InteriorSquare    (* "Choosing an interior square with maximum overlap ..." *)
  | LastResort.       (* "Choosing a random unconstrained square as a last resort." *)

(** [rng] feeds random.shuffle, [r] random.choice. *)
Definition choose_unconstrained_square (rng : list nat) (r : nat) (s : CSPStrategy)
    : option (Action * cell * SquareReason) :=
  let b := s.1 in
  match head (filter (λ c, unknown b c = true) (corners b)) with
  | Some c => Some (Probe, c, CornerSquare)
  | None =>
      match head (filter (λ c, unknown b c = true) (random_shuffle rng (edges b))) with
      | Some c => Some (Probe, c, EdgeSquare)
      | None =>
          match (foldl (interior_step b s.2) (-1, None) (interior b)).2 with
          | Some c => Some (Probe, c, InteriorSquare)
          | None =>
              let unconstrained :=
                filter (λ c, unknown b c = true) (positions (height b) (width b)) in
              if bool_decide (unconstrained = []) then None
              else
                c ← unconstrained !! (r `mod` length unconstrained)%nat;
                Some (Probe, c, LastResort)
          end
      end
  end.

(** A 3x3 board whose border has been opened around the mine in the
    middle. *)
Definition ring_board : MinesweeperBoard :=
  mkBoard 3 3 1 [[1; 1; 1]; [1; -1; 1]; [1; 1; 1]]
          [[true; true; true]; [true; false; true]; [true; true; true]]
          [[false; false; false]; [false; false; false]; [false; false; false]]
          false false false.

(** ** The components of find_coupled_constraints *)

(** The state of the loop over the indices: the components found so far
    as lists of indices, with the set of visited indices. *)
Definition components_inv (cs : list Constraint) (visited : gset nat)
    (idxs : list (list nat)) : Prop :=
  NoDup (mjoin idxs)
  ∧ (∀ x, x ∈ visited ↔ x ∈ mjoin idxs)
  ∧ (∀ x, x ∈ visited → (x < length cs)%nat)
  ∧ (∀ x nb, x ∈ visited → nb ∈ constraint_graph cs x → nb ∈ visited)
  ∧ (∀ a b A B x y, (a < b)%nat → idxs !! a = Some A → idxs !! b = Some B →
        x ∈ A → y ∈ B → x ≠ y ∧ y ∉ constraint_graph cs x)
  ∧ (∀ A, A ∈ idxs →
        ∃ seed, seed ∈ A
                ∧ ∀ x, x ∈ A → rtc (λ a b, b ∈ constraint_graph cs a) seed x).

(** Two constraints are coupled when they share a variable. *)
Definition coupled (cs : list Constraint) (c1 c2 : Constraint) : Prop :=
  c1 ∈ cs ∧ c2 ∈ cs ∧ ∃ v, v ∈ variables c1 ∧ v ∈ variables c2.

(** A satisfying assignment of the two constraints {(0,1)} = 1 and
    {(0,1), (0,3)} = 1. *)
Definition mine_at_1_only : gmap cell bool := {[ (0, 1) := true; (0, 3) := false ]}.

(** *** next_move with its steps 6 and 7, and the game loop *)

(** A move of choose_unconstrained_square as next_move returns it. *)
Definition as_move (m : Action * cell * SquareReason) : Move :=
  (m.1.1, m.1.2, Unconstrained).

Section Play.

(** Step 6 works on floating-point odds and stays a parameter. *)
Variable make_best_guess : CSPStrategy → option Move.

(** Lines 171-177: [rng] and [r] are the random sources of step 7. *)
Definition guess_steps (rng : list nat) (r : nat) (s : CSPStrategy) : option Move :=
  match make_best_guess s with
  | Some m => Some m
  | None => as_move <$> choose_unconstrained_square rng r s
  end.

(** One turn of the loop of play_minesweeper_ai (lines 561-584) and of
    run_ai_solver: the move is asked for and carried out.  The flag of
    the result is False when the loop is left by [break].  [r1] feeds the
    random.choice of check_craps_shoot, [rng] and [r2] step 7. *)
Definition play_turn (rng : list nat) (r1 r2 : nat) (s : CSPStrategy)
    : option (bool * CSPStrategy) :=
  match next_move (guess_steps rng r2) r1 s with
  | None => None
  | Some (None, s') => Some (false, s')
  | Some (Some (Probe, c, _), s') =>
      match probe s'.1 c.1 c.2 with
      | None => None
      | Some (result, b) =>
          Some (true,
                update_constraints (if result then b else with_game_over b true, s'.2))
      end
  | Some (Some (Mark, c, _), s') => Some (true, (mark_mine s'.1 c.1 c.2, s'.2))
  end.

End Play.

(** No cell is marked. *)
Definition nothing_marked (b : MinesweeperBoard) : bool :=
  forallb (λ c, negb (is_marked b c)) (positions (height b) (width b)).

(** The states of the game loop: sound, and before the first probe
    without constraints, visible cells or marks. *)
Definition play_ready (s : CSPStrategy) : bool :=
  sound_state s
  && (negb (first_move s.1)
      || (match s.2 with [] => true | _ => false end
          && nothing_visible s.1 && nothing_marked s.1)).

(** A 1x2 board on which nothing is left to do. *)
Definition full_board : MinesweeperBoard :=
  mkBoard 2 1 1 [[-1; 1]] [[false; true]] [[true; false]] false false false.

(** [b'] has the mine count and the three flags of [b]. *)
Definition same_flags (b b' : MinesweeperBoard) : Prop :=
  num_mines b' = num_mines b ∧ first_move b' = first_move b
  ∧ game_over b' = game_over b ∧ won b' = won b.

(** ** game.py, start_game and create_board_gui *)

Inductive Difficulty : Type :=
  | Easy | Medium | Hard
  | Custom (w h n : Z).      (* the three entry fields, read by int() *)

(** Lines 166-187: the parameters handed to MinesweeperBoard, or the
    error shown instead. *)
Definition board_parameters (d : Difficulty) : ConfigError + (Z * Z * Z) :=
  match d with
  | Easy => inr (8, 8, 10)
  | Medium => inr (16, 16, 40)
  | Hard => inr (30, 16, 99)
  | Custom w h n =>
      match validate_custom w h n with
      | Some e => inl e
      | None => inr (w, h, n)
      end
  end.

(** Line 212: min(30, 600 // max(width, height)); [None] is
    ZeroDivisionError. *)
Definition button_size (w h : Z) : option Z :=
  if Z.max w h =? 0 then None else Some (Z.min 30 (600 `div` Z.max w h)).

(** The batch of constraints one call of update_constraints appends. *)
Definition constraints_of_board (b : MinesweeperBoard) : list Constraint :=
  foldl (λ cs c, if is_visible b c then add_constraint_from_move b cs c else cs)
        [] (positions (height b) (width b)).

(** Two rows of three cells: the lower row is open, the mine is at
    (0,0). *)
Definition ledge_board : MinesweeperBoard :=
  mkBoard 3 2 1 [[-1; 1; 0]; [1; 1; 0]]
          [[false; false; false]; [true; true; true]]
          [[false; false; false]; [false; false; false]]
          false false false.

(** The solver on that board after update_constraints: its constraints
    are {(0,0), (0,1)} = 1 and {(0,0), (0,1), (0,2)} = 1. *)
Definition ledge_solver : CSPStrategy := update_constraints (ledge_board, []).

(** Every variable of every constraint is a cell of the grid: the
    indices simplify_constraints and find_certain_move hand to
    visible[i, j] and marked[i, j] are then within the arrays. *)
Definition constraints_in_grid (s : CSPStrategy) : bool :=
  forallb (λ c, forallb (λ v, in_grid s.1 v.1 v.2) (elements (variables c))) s.2.

(** * Theorems *)

(** ** Arrays *)

Section Arrays.
Context {A : Type}.
Implicit Types (a : list (list A)) (i j : Z) (v d : A).

Lemma shape_spec h w a :
  shape h w a = true ↔
  0 ≤ h ∧ 0 ≤ w ∧ length a = Z.to_nat h ∧ ∀ row, row ∈ a → length row = Z.to_nat w.
Proof.
  unfold shape. rewrite !andb_true_iff, !Z.leb_le, bool_decide_eq_true.
  rewrite forallb_forall. setoid_rewrite bool_decide_eq_true.
  setoid_rewrite <- list_elem_of_In. tauto.
Qed.

Lemma shape_set2 h w a i j v : shape h w (set2 a i j v) = shape h w a.
Proof.
  unfold set2. case_bool_decide as Hij; [|done].
  apply eq_true_iff_eq. rewrite !shape_spec, length_alter.
  do 3 (apply and_iff_compat_l). split.
  - intros H row Hrow. apply list_elem_of_lookup in Hrow as [k Hk].
    destruct (decide (k = Z.to_nat i)) as [->|Hne].
    + rewrite <- (length_insert row (Z.to_nat j) v). apply H.
      apply list_elem_of_lookup. exists (Z.to_nat i).
      by rewrite list_lookup_alter_eq, Hk.
    + apply H. apply list_elem_of_lookup. exists k.
      by rewrite list_lookup_alter_ne.
  - intros H row Hrow. apply list_elem_of_lookup in Hrow as [k Hk].
    destruct (decide (Z.to_nat i = k)) as [<-|Hne].
    + rewrite list_lookup_alter_eq in Hk.
      destruct (a !! Z.to_nat i) as [row0|] eqn:E; simplify_eq/=.
      rewrite length_insert. apply H. by eapply list_elem_of_lookup_2.
    + rewrite list_lookup_alter_ne in Hk by done.
      apply H. by eapply list_elem_of_lookup_2.
Qed.

(** Inside an array of shape (h, w) every cell holds a value. *)
Lemma shape_lookup h w a i j :
  shape h w a = true → 0 ≤ i < h → 0 ≤ j < w →
  ∃ row x, a !! Z.to_nat i = Some row ∧ row !! Z.to_nat j = Some x.
Proof.
  rewrite shape_spec. intros (Hh & Hw & Hlen & Hrows) Hi Hj.
  destruct (lookup_lt_is_Some_2 a (Z.to_nat i)) as [row Hrow]; [lia|].
  assert (length row = Z.to_nat w) as Hl
    by (apply Hrows; by eapply list_elem_of_lookup_2).
  destruct (lookup_lt_is_Some_2 row (Z.to_nat j)) as [x Hx]; [lia|].
  eauto.
Qed.

Lemma get2_set2_eq h w a i j v d :
  shape h w a = true → 0 ≤ i < h → 0 ≤ j < w →
  get2 d (set2 a i j v) i j = v.
Proof.
  intros Hs Hi Hj. destruct (shape_lookup _ _ _ _ _ Hs Hi Hj) as (row & x & Hrow & Hx).
  unfold get2, set2. rewrite !bool_decide_eq_true_2 by lia.
  rewrite list_lookup_alter_eq, Hrow. simpl.
  rewrite list_lookup_insert_eq; [done|]. by eapply lookup_lt_Some.
Qed.

Lemma get2_set2_ne a i j i' j' v d :
  (i, j) ≠ (i', j') → get2 d (set2 a i j v) i' j' = get2 d a i' j'.
Proof.
  intros Hne. unfold get2, set2.
  case_bool_decide as H1; [|done]. case_bool_decide as H2; [|done].
  destruct (decide (Z.to_nat i = Z.to_nat i')) as [Hi|Hi].
  - rewrite <- Hi, list_lookup_alter_eq.
    destruct (a !! Z.to_nat i) as [row|]; simpl; [|done].
    rewrite list_lookup_insert_ne; [done|]. intros Hj.
    apply Hne. f_equal; lia.
  - by rewrite list_lookup_alter_ne.
Qed.

Lemma get2_set2 h w a i j i' j' v d :
  shape h w a = true → 0 ≤ i < h → 0 ≤ j < w →
  get2 d (set2 a i j v) i' j' = if decide ((i, j) = (i', j')) then v else get2 d a i' j'.
Proof.
  intros. case_decide as E.
  - simplify_eq. by eapply get2_set2_eq.
  - by apply get2_set2_ne.
Qed.

(** Whatever the shape, a write changes at most the cell written. *)
Lemma get2_set2_cases a i j i' j' v d :
  get2 d (set2 a i j v) i' j' = get2 d a i' j'
  ∨ ((i, j) = (i', j') ∧ get2 d (set2 a i j v) i' j' = v).
Proof.
  destruct (decide ((i, j) = (i', j'))) as [E|E]; [|left; by apply get2_set2_ne].
  simplify_eq. unfold get2, set2. case_bool_decide as H; [|by left].
  rewrite list_lookup_alter_eq.
  destruct (a !! Z.to_nat i') as [row|]; simpl; [|by left].
  destruct (decide (Z.to_nat j' < length row)%nat).
  - right. by rewrite list_lookup_insert_eq.
  - left. by rewrite list_insert_ge by lia.
Qed.

End Arrays.

(** ** The grid *)

Lemma in_grid_spec b i j :
  in_grid b i j = true ↔ 0 ≤ i < height b ∧ 0 ≤ j < width b.
Proof. unfold in_grid. rewrite !andb_true_iff, !Z.leb_le, !Z.ltb_lt. lia. Qed.

Lemma elem_of_positions h w i j :
  (i, j) ∈ positions h w ↔ 0 ≤ i < h ∧ 0 ≤ j < w.
Proof.
  unfold positions. rewrite list_elem_of_bind. split.
  - intros (i' & Hin & Hi'). apply list_elem_of_bind in Hin as (j' & Hin & Hj').
    apply list_elem_of_singleton in Hin. simplify_eq.
    apply elem_of_seqZ in Hi', Hj'. lia.
  - intros [Hi Hj]. exists i. split; [|apply elem_of_seqZ; lia].
    apply list_elem_of_bind. exists j. split; [by apply list_elem_of_singleton|].
    apply elem_of_seqZ; lia.
Qed.

Lemma elem_of_positions_grid b c :
  c ∈ positions (height b) (width b) ↔ in_grid b c.1 c.2 = true.
Proof. destruct c as [i j]. by rewrite elem_of_positions, in_grid_spec. Qed.

Lemma NoDup_positions h w : NoDup (positions h w).
Proof.
  unfold positions. apply NoDup_bind; [| |apply NoDup_seqZ].
  - intros i i' c _ _ Hc Hc'.
    apply list_elem_of_bind in Hc as (j & Hc & _).
    apply list_elem_of_bind in Hc' as (j' & Hc' & _).
    apply list_elem_of_singleton in Hc, Hc'. by simplify_eq.
  - intros i _. apply NoDup_bind; [| |apply NoDup_seqZ].
    + intros j j' c _ _ Hc Hc'. apply list_elem_of_singleton in Hc, Hc'. by simplify_eq.
    + intros j _. apply NoDup_singleton.
Qed.

Lemma forallb_positions b (P : cell → bool) :
  forallb P (positions (height b) (width b)) = true ↔
  ∀ i j, in_grid b i j = true → P (i, j) = true.
Proof.
  rewrite forallb_forall. split.
  - intros H i j Hg. apply H, list_elem_of_In, elem_of_positions. by apply in_grid_spec.
  - intros H [i j] Hin. apply H, in_grid_spec, elem_of_positions. by apply list_elem_of_In.
Qed.

(** *** get_neighbors and count_adjacent_mines *)

Lemma neighbor_offsets_eq :
  neighbor_offsets = [(-1, -1); (-1, 0); (-1, 1); (0, -1); (0, 1); (1, -1); (1, 0); (1, 1)].
Proof. reflexivity. Qed.

Lemma elem_of_neighbor_offsets d :
  d ∈ neighbor_offsets ↔ -1 ≤ d.1 ≤ 1 ∧ -1 ≤ d.2 ≤ 1 ∧ d ≠ (0, 0).
Proof.
  rewrite neighbor_offsets_eq. destruct d as [di dj]. simpl.
  rewrite !elem_of_cons, elem_of_nil. split.
  - intros H. repeat destruct H as [H|H]; try done; simplify_eq; (split; [lia|split; [lia|done]]).
  - intros (Hi & Hj & Hne).
    assert (di = -1 ∨ di = 0 ∨ di = 1) as Hdi by lia.
    assert (dj = -1 ∨ dj = 0 ∨ dj = 1) as Hdj by lia.
    destruct Hdi as [-> | [-> | ->]], Hdj as [-> | [-> | ->]]; try done; auto 10.
Qed.

Lemma get_neighbors_fold b i j (l : list (Z * Z)) (acc : list cell) :
  foldl (λ neighbors d,
           let ni := i + d.1 in
           let nj := j + d.2 in
           if in_grid b ni nj then neighbors ++ [(ni, nj)] else neighbors) acc l
  = acc ++ ((λ d, (i + d.1, j + d.2)) <$> filter (λ d, in_grid b (i + d.1) (j + d.2) = true) l).
Proof.
  revert acc. induction l as [|d l IH]; intros acc; simpl.
  - by rewrite app_nil_r.
  - rewrite IH. rewrite filter_cons. destruct (in_grid b (i + d.1) (j + d.2)) eqn:E.
    + rewrite decide_True by done. by rewrite <- app_assoc.
    + by rewrite decide_False by done.
Qed.

Lemma get_neighbors_eq b i j :
  get_neighbors b i j
  = (λ d, (i + d.1, j + d.2)) <$> filter (λ d, in_grid b (i + d.1) (j + d.2) = true) neighbor_offsets.
Proof. unfold get_neighbors. by rewrite get_neighbors_fold. Qed.

Lemma elem_of_get_neighbors b i j c :
  c ∈ get_neighbors b i j ↔
  in_grid b c.1 c.2 = true ∧ -1 ≤ c.1 - i ≤ 1 ∧ -1 ≤ c.2 - j ≤ 1 ∧ c ≠ (i, j).
Proof.
  rewrite get_neighbors_eq, list_elem_of_fmap. split.
  - intros (d & -> & Hd). apply list_elem_of_filter in Hd as [Hg Hd].
    apply elem_of_neighbor_offsets in Hd as (? & ? & Hne). simpl.
    split; [done|]. split; [lia|]. split; [lia|].
    intros E. apply Hne. destruct d; simpl in *. simplify_eq. f_equal; lia.
  - intros (Hg & Hi & Hj & Hne). exists (c.1 - i, c.2 - j). simpl. split.
    + destruct c; simpl; f_equal; lia.
    + apply list_elem_of_filter. simpl.
      replace (i + (c.1 - i)) with c.1 by lia. replace (j + (c.2 - j)) with c.2 by lia.
      split; [done|]. apply elem_of_neighbor_offsets. simpl.
      split; [lia|]. split; [lia|]. intros E. apply Hne.
      destruct c; simpl in *. simplify_eq. f_equal; lia.
Qed.

Lemma get_neighbors_in_grid b i j c :
  c ∈ get_neighbors b i j → in_grid b c.1 c.2 = true.
Proof. intros H. by apply elem_of_get_neighbors in H as [? _]. Qed.

Lemma get_neighbors_sym b i j c :
  in_grid b i j = true → c ∈ get_neighbors b i j → (i, j) ∈ get_neighbors b c.1 c.2.
Proof.
  intros Hg H. apply elem_of_get_neighbors in H as (? & ? & ? & Hne).
  apply elem_of_get_neighbors. simpl. split; [done|]. split; [lia|]. split; [lia|].
  intros E. apply Hne. by destruct c; simplify_eq/=.
Qed.

Lemma count_adjacent_mines_fold b i j (l : list (Z * Z)) (acc : Z) :
  foldl (λ count d,
           let ni := i + d.1 in
           let nj := j + d.2 in
           if in_grid b ni nj && (get2 0 (board b) ni nj =? -1)
           then count + 1 else count) acc l
  = acc + Z.of_nat (length (filter (λ c, is_mine b c = true)
       ((λ d, (i + d.1, j + d.2)) <$> filter (λ d, in_grid b (i + d.1) (j + d.2) = true) l))).
Proof.
  revert acc. induction l as [|d l IH]; intros acc; simpl; [lia|].
  rewrite IH, filter_cons. destruct (in_grid b (i + d.1) (j + d.2)) eqn:E.
  - rewrite decide_True by done. rewrite fmap_cons, filter_cons. cbn [andb].
    destruct (get2 0 (board b) (i + d.1) (j + d.2) =? -1) eqn:M.
    + rewrite decide_True by exact M.
      rewrite length_cons, Nat2Z.inj_succ, Z.add_succ_r, <- Z.add_succ_l.
      f_equal; lia.
    + rewrite decide_False; [done|]. unfold is_mine. cbn [fst snd]. by rewrite M.
  - rewrite decide_False by done. done.
Qed.

(** The count is the number of neighbours holding a mine. *)
Lemma count_adjacent_mines_eq b i j :
  count_adjacent_mines b i j
  = Z.of_nat (length (filter (λ c, is_mine b c = true) (get_neighbors b i j))).
Proof.
  unfold count_adjacent_mines. by rewrite count_adjacent_mines_fold, get_neighbors_eq.
Qed.

Lemma count_adjacent_mines_nonneg b i j : 0 ≤ count_adjacent_mines b i j.
Proof. rewrite count_adjacent_mines_eq. lia. Qed.

Lemma count_adjacent_mines_zero b i j c :
  count_adjacent_mines b i j = 0 → c ∈ get_neighbors b i j → is_mine b c = false.
Proof.
  rewrite count_adjacent_mines_eq. intros H Hc.
  destruct (is_mine b c) eqn:E; [|done].
  assert (c ∈ filter (λ c, is_mine b c = true) (get_neighbors b i j)) as Hin
    by (by apply list_elem_of_filter).
  destruct (filter _ _); [by apply elem_of_nil in Hin|simpl in H; lia].
Qed.

(** The count reads the grid dimensions and the mines around the cell
    only. *)
Lemma count_adjacent_mines_ext b b' i j :
  height b' = height b → width b' = width b →
  (∀ c, c ∈ get_neighbors b i j → is_mine b' c = is_mine b c) →
  count_adjacent_mines b' i j = count_adjacent_mines b i j.
Proof.
  intros Hh Hw Hm. rewrite !count_adjacent_mines_eq.
  assert (get_neighbors b' i j = get_neighbors b i j) as ->.
  { rewrite !get_neighbors_eq. do 2 f_equal.
    apply list_filter_iff. intros d. unfold in_grid. by rewrite Hh, Hw. }
  do 2 f_equal. induction (get_neighbors b i j) as [|c l IH]; [done|].
  rewrite !filter_cons. rewrite Hm by left.
  rewrite IH; [done|]. intros c' Hc'. apply Hm. by right.
Qed.

(** ** Board predicates *)

Lemma well_shaped_spec b :
  well_shaped b = true ↔
  shape (height b) (width b) (board b) = true
  ∧ shape (height b) (width b) (visible b) = true
  ∧ shape (height b) (width b) (marked b) = true.
Proof. unfold well_shaped. rewrite !andb_true_iff. tauto. Qed.

Lemma counts_ok_spec b :
  counts_ok b = true ↔
  ∀ i j, in_grid b i j = true → is_mine b (i, j) = false →
         get2 0 (board b) i j = count_adjacent_mines b i j.
Proof.
  unfold counts_ok. rewrite forallb_positions. simpl.
  split; intros H i j Hg.
  - intros Hm. specialize (H i j Hg). rewrite Hm in H. simpl in H. lia.
  - destruct (is_mine b (i, j)) eqn:Hm; [done|]. simpl. rewrite (H i j) by done. lia.
Qed.

Lemma visible_safe_spec b :
  visible_safe b = true ↔
  ∀ i j, in_grid b i j = true → is_visible b (i, j) = true → is_mine b (i, j) = false.
Proof.
  unfold visible_safe. rewrite forallb_positions.
  split; intros H i j Hg.
  - intros Hv. specialize (H i j Hg). rewrite Hv in H. simpl in H.
    by destruct (is_mine b (i, j)).
  - destruct (is_visible b (i, j)) eqn:Hv; [|done]. simpl. by rewrite (H i j).
Qed.

Lemma nothing_visible_spec b :
  nothing_visible b = true ↔ ∀ i j, in_grid b i j = true → is_visible b (i, j) = false.
Proof.
  unfold nothing_visible. rewrite forallb_positions.
  split; intros H i j Hg; specialize (H i j Hg); by destruct (is_visible b (i, j)).
Qed.

Lemma same_but_board_refl b : same_but_board b b.
Proof. by repeat split. Qed.

Lemma same_but_board_trans b1 b2 b3 :
  same_but_board b1 b2 → same_but_board b2 b3 → same_but_board b1 b3.
Proof. unfold same_but_board. intros ? ?. destruct_and!. repeat split; congruence. Qed.

Lemma same_but_board_with_board b x : same_but_board b (with_board b x).
Proof. by repeat split. Qed.

Lemma in_grid_same b b' i j :
  same_but_board b b' → in_grid b' i j = in_grid b i j.
Proof. intros (Hw & Hh & _). unfold in_grid. by rewrite Hw, Hh. Qed.

(** ** recount *)

Lemma recount_same b c : same_but_board b (recount b c).
Proof.
  unfold recount. case_match; [apply same_but_board_with_board|apply same_but_board_refl].
Qed.

Lemma recount_shape b c :
  shape (height b) (width b) (board (recount b c)) = shape (height b) (width b) (board b).
Proof. unfold recount. case_match; [|done]. simpl. apply shape_set2. Qed.

Lemma recount_is_mine b c x : is_mine (recount b c) x = is_mine b x.
Proof.
  unfold recount. destruct (get2 0 (board b) c.1 c.2 =? -1) eqn:Hm; [done|].
  simpl. unfold is_mine. simpl.
  destruct (get2_set2_cases (board b) c.1 c.2 x.1 x.2 (count_adjacent_mines b c.1 c.2) 0)
    as [->|[E ->]]; [done|].
  simplify_eq. rewrite <- H, <- H0, Hm.
  pose proof (count_adjacent_mines_nonneg b c.1 c.2). lia.
Qed.

Lemma recount_count b c i j :
  count_adjacent_mines (recount b c) i j = count_adjacent_mines b i j.
Proof.
  destruct (recount_same b c) as (Hw & Hh & _).
  apply count_adjacent_mines_ext; [done|done|]. intros. apply recount_is_mine.
Qed.

Lemma recount_at b i j :
  shape (height b) (width b) (board b) = true →
  in_grid b i j = true → is_mine b (i, j) = false →
  get2 0 (board (recount b (i, j))) i j = count_adjacent_mines b i j.
Proof.
  intros Hs Hg Hm. unfold recount. unfold is_mine in Hm. simpl in *. rewrite Hm. simpl.
  apply in_grid_spec in Hg as [? ?]. by eapply get2_set2_eq.
Qed.

Lemma recount_other b c i j :
  c ≠ (i, j) → get2 0 (board (recount b c)) i j = get2 0 (board b) i j.
Proof.
  intros Hne. unfold recount. case_match; [|done]. simpl.
  apply get2_set2_ne. by destruct c.
Qed.

(** Recounting the cells of a list: the mines stay, the listed non-mine
    cells hold their counts, the other cells are untouched. *)
Lemma foldl_recount L : ∀ b0,
  shape (height b0) (width b0) (board b0) = true →
  same_but_board b0 (foldl recount b0 L)
  ∧ shape (height b0) (width b0) (board (foldl recount b0 L)) = true
  ∧ (∀ c, is_mine (foldl recount b0 L) c = is_mine b0 c)
  ∧ (∀ i j, (i, j) ∈ L → in_grid b0 i j = true → is_mine b0 (i, j) = false →
            get2 0 (board (foldl recount b0 L)) i j = count_adjacent_mines b0 i j)
  ∧ (∀ i j, (i, j) ∉ L →
            get2 0 (board (foldl recount b0 L)) i j = get2 0 (board b0) i j).
Proof.
  induction L as [|c L IH]; intros b0 Hs; simpl.
  - split_and!; [apply same_but_board_refl|done|done| |done].
    intros i j Hin. by apply elem_of_nil in Hin.
  - pose proof (recount_same b0 c) as Hsame.
    destruct Hsame as (Hw & Hh & Hrest).
    destruct (IH (recount b0 c)) as (I1 & I2 & I3 & I4 & I5).
    { rewrite Hw, Hh, recount_shape. done. }
    rewrite Hw, Hh in I2.
    split_and!.
    + eapply same_but_board_trans; [apply recount_same|done].
    + done.
    + intros x. by rewrite I3, recount_is_mine.
    + intros i j Hin Hg Hm.
      destruct (decide ((i, j) ∈ L)) as [HL|HL].
      * rewrite I4; [apply recount_count|done| |].
        -- unfold in_grid. by rewrite Hw, Hh.
        -- by rewrite recount_is_mine.
      * apply elem_of_cons in Hin as [<-|?]; [|done].
        rewrite I5 by done. by apply recount_at.
    + intros i j Hin. apply not_elem_of_cons in Hin as [Hne HL].
      rewrite I5 by done. by apply recount_other.
Qed.

(** ** Mine placement *)

Lemma length_bind_const {A B} (f : A → list B) (k : nat) (l : list A) :
  (∀ x, length (f x) = k) → length (l ≫= f) = (length l * k)%nat.
Proof.
  intros Hf. induction l as [|x l IH]; [done|].
  change ((x :: l) ≫= f) with (f x ++ (l ≫= f)).
  rewrite length_app, IH, Hf. simpl. lia.
Qed.

Lemma length_positions h w :
  length (positions h w) = (Z.to_nat h * Z.to_nat w)%nat.
Proof.
  unfold positions. rewrite (length_bind_const _ (Z.to_nat w)), length_seqZ; [done|].
  intros i. rewrite (length_bind_const _ 1%nat), length_seqZ; [lia|done].
Qed.

Lemma draw_spec {A} (rng : list nat) (k : nat) : ∀ (pool : list A),
  NoDup pool → (k ≤ length pool)%nat →
  NoDup (draw rng pool k) ∧ length (draw rng pool k) = k
  ∧ ∀ x, x ∈ draw rng pool k → x ∈ pool.
Proof.
  revert rng. induction k as [|k IH]; intros rng pool Hnd Hk; simpl.
  - split_and!; [constructor|done|]. intros x Hx. by apply elem_of_nil in Hx.
  - set (idx := (hd 0%nat rng `mod` length pool)%nat).
    assert (idx < length pool)%nat as Hidx by (apply Nat.mod_upper_bound; lia).
    destruct (lookup_lt_is_Some_2 pool idx Hidx) as [x Hx]. rewrite Hx.
    destruct (IH (tl rng) (delete idx pool)) as (I1 & I2 & I3).
    { eapply sublist_NoDup; [done|apply sublist_delete]. }
    { rewrite length_delete by done. lia. }
    split_and!.
    + constructor; [|done]. intros Hin. apply I3 in Hin.
      rewrite delete_take_drop in Hin.
      rewrite <- (take_drop_middle pool idx x Hx) in Hnd.
      apply NoDup_app in Hnd as (_ & Hdisj & Hnd). apply NoDup_cons in Hnd as [Hnot _].
      apply elem_of_app in Hin as [Hin|Hin]; [|done].
      apply (Hdisj x Hin). by left.
    + by rewrite length_cons, I2.
    + intros y Hy. apply elem_of_cons in Hy as [->|Hy].
      * by eapply list_elem_of_lookup_2.
      * eapply list_elem_of_delete_inv. by apply I3.
Qed.

Lemma place_mine_same b c : same_but_board b (place_mine b c).
Proof. apply same_but_board_with_board. Qed.

Lemma foldl_place_mine L : ∀ b,
  shape (height b) (width b) (board b) = true →
  (∀ c, c ∈ L → in_grid b c.1 c.2 = true) →
  same_but_board b (foldl place_mine b L)
  ∧ shape (height b) (width b) (board (foldl place_mine b L)) = true
  ∧ ∀ c, is_mine (foldl place_mine b L) c = true ↔ c ∈ L ∨ is_mine b c = true.
Proof.
  induction L as [|m L IH]; intros b Hs HL; simpl.
  - split_and!; [apply same_but_board_refl|done|]. intros c. rewrite elem_of_nil. tauto.
  - destruct (IH (place_mine b m)) as (I1 & I2 & I3).
    { simpl. by rewrite shape_set2. }
    { intros c Hc. simpl. apply HL. by right. }
    split_and!.
    + eapply same_but_board_trans; [apply place_mine_same|done].
    + done.
    + intros c. rewrite I3, elem_of_cons. unfold is_mine at 1. simpl.
      assert (in_grid b m.1 m.2 = true) as Hg by (apply HL; by left).
      apply in_grid_spec in Hg as [? ?].
      erewrite get2_set2 by done.
      case_decide as E.
      * destruct m, c; simplify_eq/=. split; [auto|by right].
      * unfold is_mine. split; [tauto|]. intros [[->|?]|?]; [|auto..].
        by destruct m.
Qed.

(** The number of cells of the grid that lie in a duplicate-free list
    of grid cells is the length of that list. *)
Lemma length_filter_positions h w (P : cell → Prop) `{!∀ c, Decision (P c)} (L : list cell) :
  NoDup L → (∀ c, c ∈ L → c ∈ positions h w) → (∀ c, c ∈ positions h w → P c ↔ c ∈ L) →
  length (filter P (positions h w)) = length L.
Proof.
  intros Hnd Hsub HP. apply Permutation_length, NoDup_Permutation; [|done|].
  - apply NoDup_filter, NoDup_positions.
  - intros c. rewrite list_elem_of_filter. split.
    + intros [? ?]. by apply HP.
    + intros Hc. split; [|by apply Hsub]. apply HP; [by apply Hsub|done].
Qed.

Lemma np_zeros_shape {A} (z : A) h w :
  0 ≤ h → 0 ≤ w → shape h w (np_zeros z h w) = true.
Proof.
  intros Hh Hw. apply shape_spec. unfold np_zeros.
  split_and!; [done|done|by rewrite length_replicate|].
  intros row Hrow. apply elem_of_replicate in Hrow as [-> _].
  by rewrite length_replicate.
Qed.

Lemma get2_np_zeros {A} (z : A) h w i j : get2 z (np_zeros z h w) i j = z.
Proof.
  unfold get2, np_zeros. case_bool_decide; [|done].
  destruct (replicate _ _ !! Z.to_nat i) as [row|] eqn:E; simpl; [|done].
  apply lookup_replicate in E as [-> _].
  destruct (replicate _ _ !! Z.to_nat j) as [x|] eqn:E; simpl; [|done].
  by apply lookup_replicate in E as [-> _].
Qed.

(** ** Board creation *)

Lemma new_board_None rng w h n :
  new_board rng w h n = None ↔ w < 0 ∨ h < 0 ∨ n < 0 ∨ w * h < n.
Proof.
  unfold new_board, place_mines_randomly, random_sample. simpl.
  case_bool_decide as Hd; [|split; [lia|done]].
  rewrite length_positions.
  case_bool_decide as Hn; simpl; [split; [done|nia]|split; [nia|done]].
Qed.

Lemma new_board_Some rng w h n b :
  new_board rng w h n = Some b →
  width b = w ∧ height b = h ∧ num_mines b = n ∧ mine_total b = n
  ∧ well_shaped b = true ∧ counts_ok b = true ∧ nothing_visible b = true
  ∧ first_move b = true ∧ game_over b = false ∧ won b = false.
Proof.
  unfold new_board, place_mines_randomly, random_sample. simpl.
  case_bool_decide as Hd; [|done]. destruct Hd as [Hh Hw].
  rewrite length_positions.
  case_bool_decide as Hn; simpl; [|done]. intros [= <-].
  set (b0 := mkBoard w h n _ _ _ true false false).
  set (mines := draw rng (positions h w) (Z.to_nat n)).
  destruct (draw_spec rng (Z.to_nat n) (positions h w)) as (D1 & D2 & D3);
    [apply NoDup_positions|rewrite length_positions; nia|]. fold mines in D1, D2, D3.
  destruct (foldl_place_mine mines b0) as (P1 & P2 & P3).
  { by apply np_zeros_shape. }
  { intros c Hc. by apply (elem_of_positions_grid b0), D3. }
  set (b1 := foldl place_mine b0 mines) in *.
  destruct P1 as (Pw & Ph & Pn & Pv & Pm & Pf & Pg & Pwon).
  destruct (foldl_recount (positions h w) b1) as (R1 & R2 & R3 & R4 & _).
  { by rewrite Pw, Ph. }
  set (b2 := foldl recount b1 (positions h w)) in *.
  destruct R1 as (Rw & Rh & Rn & Rv & Rm & Rf & Rg & Rwon).
  simpl in *.
  assert (width b2 = w) as Ew by congruence.
  assert (height b2 = h) as Eh by congruence.
  split_and!; try congruence.
  - unfold mine_total. rewrite Ew, Eh.
    rewrite (length_filter_positions h w _ mines); [lia|done|done|].
    intros c _. rewrite R3, P3. unfold is_mine at 1. simpl.
    rewrite get2_np_zeros. split; [intros [?|?]; [done|lia]|auto].
  - apply well_shaped_spec. rewrite Ew, Eh, Rv, Rm, Pv, Pm. simpl.
    rewrite Pw, Ph in R2. simpl in R2.
    split_and!; [done|by apply np_zeros_shape..].
  - apply counts_ok_spec. intros i j Hg Hm.
    rewrite R4.
    + symmetry. apply count_adjacent_mines_ext; [congruence|congruence|done].
    + apply elem_of_positions. apply in_grid_spec in Hg. lia.
    + unfold in_grid in *. by rewrite <- Rw, <- Rh.
    + by rewrite <- R3.
  - apply nothing_visible_spec. intros i j _. unfold is_visible.
    rewrite Rv, Pv. simpl. apply get2_np_zeros.
Qed.

Lemma validate_custom_None w h n :
  validate_custom w h n = None ↔ 5 ≤ w ∧ 5 ≤ h ∧ 1 ≤ n < w * h.
Proof.
  unfold validate_custom.
  destruct (w <? 5) eqn:E1; [apply Z.ltb_lt in E1; split; [done|lia]|].
  destruct (h <? 5) eqn:E2; [apply Z.ltb_lt in E2; split; [done|lia]|].
  destruct (n <? 1) eqn:E3; [apply Z.ltb_lt in E3; split; [done|lia]|].
  destruct (w * h <=? n) eqn:E4; simpl; [apply Z.leb_le in E4; split; [done|lia]|].
  apply Z.ltb_ge in E1, E2, E3. apply Z.leb_gt in E4. split; [lia|done].
Qed.

(** C9, as the code has it.  The constructor validates nothing.  Board
    creation fails exactly when a dimension is negative or the mine count
    lies outside 0..width*height (the ValueError of np.zeros or of
    random.sample); a full grid of mines and an empty grid are both
    created.  Whenever creation succeeds, exactly mineCount mines are
    placed, the arrays have the requested shape, every non-mine cell
    holds its adjacent-mine count and nothing is visible.  The rejection
    before the game starts belongs to the custom-game dialog of game.py,
    which accepts exactly the configurations with width and height at
    least 5 and 1 <= mineCount < width*height; each of those is created. *)
Theorem C9_new_board_spec (rng : list nat) (w h n : Z) :
  (new_board rng w h n = None ↔ w < 0 ∨ h < 0 ∨ n < 0 ∨ w * h < n)
  ∧ (∀ b, new_board rng w h n = Some b →
       width b = w ∧ height b = h ∧ num_mines b = n ∧ mine_total b = n
       ∧ well_shaped b = true ∧ counts_ok b = true ∧ nothing_visible b = true
       ∧ first_move b = true ∧ game_over b = false ∧ won b = false)
  ∧ (validate_custom w h n = None ↔ 5 ≤ w ∧ 5 ≤ h ∧ 1 ≤ n < w * h)
  ∧ (validate_custom w h n = None → is_Some (new_board rng w h n)).
Proof.
  split_and!.
  - apply new_board_None.
  - apply new_board_Some.
  - apply validate_custom_None.
  - intros Hv. apply validate_custom_None in Hv.
    apply not_eq_None_Some. rewrite new_board_None. nia.
Qed.

(** C9 as stated fails: with mineCount = width*height the board is
    created, every cell a mine; so is a board of width 0. *)
Lemma C9_full_grid_is_created :
  2 * 2 ≤ 4
  ∧ new_board [] 2 2 4
    = Some (mkBoard 2 2 4 [[-1; -1]; [-1; -1]]
              [[false; false]; [false; false]] [[false; false]; [false; false]]
              true false false)
  ∧ new_board [] 0 3 0 = Some (mkBoard 0 3 0 [[]; []; []] [[]; []; []] [[]; []; []] true false false).
Proof. split; [lia|]. split; reflexivity. Qed.

(** ** The flood fill *)

Section Flood.
Variable b : MinesweeperBoard.
Implicit Types (vis : list (list bool)) (st : list (list bool) * list cell).

Lemma hidden_cells_reveal vis n :
  shape (height b) (width b) vis = true → in_grid b n.1 n.2 = true →
  get2 false vis n.1 n.2 = false →
  (length (hidden_cells b (set2 vis n.1 n.2 true)) < length (hidden_cells b vis))%nat.
Proof.
  intros Hs Hg Hn. apply in_grid_spec in Hg as [Hi Hj]. unfold hidden_cells.
  rewrite <- (list_filter_filter_l
    (λ c, get2 false (set2 vis n.1 n.2 true) c.1 c.2 = false)
    (λ c, get2 false vis c.1 c.2 = false)).
  - apply (length_filter_lt _ _ n).
    + apply list_elem_of_filter. split; [done|].
      destruct n. by apply elem_of_positions.
    + erewrite get2_set2_eq; done.
  - intros c. erewrite get2_set2 by done. by case_decide.
Qed.

Lemma reveal_neighbor_spec st n :
  shape (height b) (width b) st.1 = true → in_grid b n.1 n.2 = true →
  shape (height b) (width b) (reveal_neighbor b st n).1 = true
  ∧ (length (hidden_cells b (reveal_neighbor b st n).1) + length (reveal_neighbor b st n).2
     ≤ length (hidden_cells b st.1) + length st.2)%nat
  ∧ (∀ c, get2 false st.1 c.1 c.2 = true → get2 false (reveal_neighbor b st n).1 c.1 c.2 = true)
  ∧ (∀ c, get2 false (reveal_neighbor b st n).1 c.1 c.2 = true →
          get2 false st.1 c.1 c.2 = true ∨ c = n)
  ∧ (∀ q, q ∈ (reveal_neighbor b st n).2 →
          q ∈ st.2 ∨ (q = n ∧ get2 0 (board b) n.1 n.2 = 0)).
Proof.
  intros Hs Hg. unfold reveal_neighbor.
  destruct (get2 false st.1 n.1 n.2) eqn:Hv; simpl; [by auto 10|].
  destruct (get2 false (marked b) n.1 n.2) eqn:Hm; simpl; [by auto 10|].
  pose proof (hidden_cells_reveal st.1 n Hs Hg Hv) as Hlt.
  pose proof Hg as Hg'. apply in_grid_spec in Hg' as [Hi Hj].
  split_and!.
  - by rewrite shape_set2.
  - destruct (get2 0 (board b) n.1 n.2 =? 0); [rewrite length_app; simpl|]; lia.
  - intros c Hc. erewrite get2_set2 by done. by case_decide.
  - intros c. erewrite get2_set2 by done. case_decide as E; [|auto].
    intros _. right. destruct c, n. by simplify_eq/=.
  - intros q. destruct (get2 0 (board b) n.1 n.2 =? 0) eqn:Hz; [|auto].
    apply Z.eqb_eq in Hz. rewrite elem_of_app, list_elem_of_singleton.
    intros [?|?]; auto.
Qed.

Lemma reveal_neighbors_spec ns : ∀ st,
  shape (height b) (width b) st.1 = true →
  (∀ n, n ∈ ns → in_grid b n.1 n.2 = true) →
  shape (height b) (width b) (foldl (reveal_neighbor b) st ns).1 = true
  ∧ (length (hidden_cells b (foldl (reveal_neighbor b) st ns).1)
       + length (foldl (reveal_neighbor b) st ns).2
     ≤ length (hidden_cells b st.1) + length st.2)%nat
  ∧ (∀ c, get2 false st.1 c.1 c.2 = true →
          get2 false (foldl (reveal_neighbor b) st ns).1 c.1 c.2 = true)
  ∧ (∀ c, get2 false (foldl (reveal_neighbor b) st ns).1 c.1 c.2 = true →
          get2 false st.1 c.1 c.2 = true ∨ c ∈ ns)
  ∧ (∀ q, q ∈ (foldl (reveal_neighbor b) st ns).2 →
          q ∈ st.2 ∨ (q ∈ ns ∧ get2 0 (board b) q.1 q.2 = 0)).
Proof.
  induction ns as [|n ns IH]; intros st Hs Hns; simpl.
  - split_and!; auto.
  - destruct (reveal_neighbor_spec st n Hs) as (S1 & S2 & S3 & S4 & S5).
    { apply Hns. by left. }
    destruct (IH (reveal_neighbor b st n) S1) as (I1 & I2 & I3 & I4 & I5).
    { intros m Hm. apply Hns. by right. }
    split_and!.
    + done.
    + lia.
    + auto.
    + intros c Hc. destruct (I4 c Hc) as [H|H]; [|right; by right].
      destruct (S4 c H) as [? | ->]; [by left|right; by left].
    + intros q Hq. destruct (I5 q Hq) as [H|[H ?]]; [|right; split; [by right|done]].
      destruct (S5 q H) as [? | [-> ?]]; [by left|right; split; [by left|done]].
Qed.

(** The loop ends within the fuel: each turn takes a cell off the queue,
    and puts a cell on it only when that cell stops being hidden. *)
Lemma flood_fill_terminates fuel : ∀ vis queue,
  shape (height b) (width b) vis = true →
  (∀ q, q ∈ queue → in_grid b q.1 q.2 = true) →
  (length (hidden_cells b vis) + length queue ≤ fuel)%nat →
  ∃ vis', flood_fill fuel b vis queue = Some vis'
    ∧ shape (height b) (width b) vis' = true
    ∧ ∀ c, get2 false vis c.1 c.2 = true → get2 false vis' c.1 c.2 = true.
Proof.
  induction fuel as [|fuel IH]; intros vis queue Hs Hq Hfuel.
  - destruct queue; [|simpl in Hfuel; lia]. exists vis. simpl. auto.
  - destruct queue as [|rc rest]; [exists vis; simpl; auto|]. simpl.
    destruct (reveal_neighbors_spec (get_neighbors b rc.1 rc.2) (vis, rest) Hs)
      as (S1 & S2 & S3 & S4 & S5).
    { intros n. apply get_neighbors_in_grid. }
    simpl in *.
    destruct (IH _ (foldl (reveal_neighbor b) (vis, rest) (get_neighbors b rc.1 rc.2)).2 S1)
      as (vis' & E & I1 & I2).
    + intros q Hq'. destruct (S5 q Hq') as [?|[Hn _]].
      * apply Hq. by right.
      * by eapply get_neighbors_in_grid.
    + lia.
    + exists vis'. split_and!; auto.
Qed.

(** What the flood fill makes visible is safe: the cells on the queue
    hold a zero count, so their neighbours are no mines. *)
Lemma flood_fill_safe fuel : ∀ vis queue vis',
  counts_ok b = true →
  shape (height b) (width b) vis = true →
  (∀ q, q ∈ queue → in_grid b q.1 q.2 = true ∧ get2 0 (board b) q.1 q.2 = 0) →
  (∀ c, in_grid b c.1 c.2 = true → get2 false vis c.1 c.2 = true → is_mine b c = false) →
  flood_fill fuel b vis queue = Some vis' →
  ∀ c, in_grid b c.1 c.2 = true → get2 false vis' c.1 c.2 = true → is_mine b c = false.
Proof.
  induction fuel as [|fuel IH]; intros vis queue vis' Hok Hs Hq Hsafe Hrun.
  - destruct queue; simplify_eq/=. done.
  - destruct queue as [|rc rest]; simplify_eq/=; [done|].
    destruct (Hq rc) as [Hg Hz]; [by left|].
    assert (∀ n, n ∈ get_neighbors b rc.1 rc.2 → is_mine b n = false) as Hnb.
    { intros n Hn. eapply count_adjacent_mines_zero; [|done].
      rewrite counts_ok_spec in Hok. rewrite <- Hok; [done|done|].
      unfold is_mine. simpl. rewrite Hz. done. }
    destruct (reveal_neighbors_spec (get_neighbors b rc.1 rc.2) (vis, rest) Hs)
      as (S1 & S2 & S3 & S4 & S5).
    { intros n. apply get_neighbors_in_grid. }
    simpl in *.
    eapply (IH _ (foldl (reveal_neighbor b) (vis, rest) (get_neighbors b rc.1 rc.2)).2
              vis' Hok S1); [| |done].
    + intros q Hq'. destruct (S5 q Hq') as [?|[Hn ?]].
      * apply Hq. by right.
      * split; [by eapply get_neighbors_in_grid|done].
    + intros c Hc Hv. destruct (S4 c Hv) as [?|?]; auto.
Qed.

End Flood.

(** ** The first-move guard *)

Lemma get_neighbors_same b b' i j :
  same_but_board b b' → get_neighbors b' i j = get_neighbors b i j.
Proof.
  intros Hsame. rewrite !get_neighbors_eq. do 2 f_equal.
  apply list_filter_iff. intros d. by rewrite (in_grid_same b b').
Qed.

Lemma swap_mine_spec b i j ni nj :
  shape (height b) (width b) (board b) = true →
  in_grid b i j = true → in_grid b ni nj = true →
  is_mine b (i, j) = true → is_mine b (ni, nj) = false →
  same_but_board b (swap_mine b i j ni nj)
  ∧ shape (height b) (width b) (board (swap_mine b i j ni nj)) = true
  ∧ (∀ x, is_mine (swap_mine b i j ni nj) x
          = if decide (x = (i, j)) then false
            else if decide (x = (ni, nj)) then true else is_mine b x)
  ∧ (counts_ok b = true → counts_ok (swap_mine b i j ni nj) = true).
Proof.
  intros Hs Hg Hg' Hm Hm'. unfold swap_mine.
  set (b1 := with_board b (set2 (board b) i j 0)).
  set (b2 := with_board b1 (set2 (board b1) ni nj (-1))).
  set (L := get_neighbors b2 i j ++ get_neighbors b2 ni nj ++ [(i, j); (ni, nj)]).
  pose proof Hg as Hgs. apply in_grid_spec in Hgs as [Hi Hj].
  pose proof Hg' as Hgs'. apply in_grid_spec in Hgs' as [Hi' Hj'].
  assert ((i, j) ≠ (ni, nj)) as Hne by (intros E; simplify_eq; congruence).
  assert (same_but_board b b2) as Hsame2 by (by repeat split).
  assert (shape (height b) (width b) (board b2) = true) as Hs2.
  { simpl. by rewrite !shape_set2. }
  assert (∀ x, is_mine b2 x = if decide (x = (i, j)) then false
                              else if decide (x = (ni, nj)) then true else is_mine b x) as Hmines2.
  { intros [x y]. unfold is_mine. simpl.
    erewrite get2_set2; [|by rewrite shape_set2|done..].
    erewrite get2_set2 by done.
    repeat case_decide; simplify_eq; done. }
  destruct (foldl_recount L b2) as (R1 & R2 & R3 & R4 & R5); [done|].
  set (b' := foldl recount b2 L) in *.
  split_and!.
  - eapply same_but_board_trans; done.
  - done.
  - intros x. by rewrite R3.
  - intros Hok. rewrite counts_ok_spec in Hok. apply counts_ok_spec.
    intros x y Hgx Hmx.
    assert (same_but_board b b') as Hsame' by (eapply same_but_board_trans; done).
    rewrite (in_grid_same b b') in Hgx by done.
    assert (count_adjacent_mines b' x y = count_adjacent_mines b2 x y) as Hc.
    { apply count_adjacent_mines_ext; [apply R1|apply R1|]. intros c _. apply R3. }
    rewrite Hc. rewrite R3 in Hmx.
    destruct (decide ((x, y) ∈ L)) as [HL|HL].
    + apply R4; [done| |done]. by rewrite (in_grid_same b b2).
    + rewrite R5 by done.
      subst L. rewrite !elem_of_app, !elem_of_cons, elem_of_nil in HL.
      rewrite !(get_neighbors_same b b2) in HL by done.
      assert ((x, y) ≠ (i, j) ∧ (x, y) ≠ (ni, nj)) as [Nij Nn] by tauto.
      rewrite Hmines2 in Hmx. rewrite !decide_False in Hmx by done.
      simpl. rewrite get2_set2_ne by done. rewrite get2_set2_ne by done.
      rewrite Hok by done. symmetry.
      apply count_adjacent_mines_ext; [done|done|].
      intros c Hc'. rewrite Hmines2.
      rewrite decide_False.
      * rewrite decide_False; [done|]. intros ->.
        apply (get_neighbors_sym b x y) in Hc'; [|done]. simpl in Hc'. tauto.
      * intros ->. apply (get_neighbors_sym b x y) in Hc'; [|done]. simpl in Hc'. tauto.
Qed.

Lemma relocate_row_spec b i j ni cols :
  relocate_row b i j ni cols
  = match head (filter (λ c, is_mine b c = false) (cols ≫= λ nj, [(ni, nj)])) with
    | Some c => swap_mine b i j c.1 c.2
    | None => b
    end.
Proof.
  induction cols as [|nj cols IH]; [done|].
  change ((nj :: cols) ≫= λ nj, [(ni, nj)]) with ((ni, nj) :: (cols ≫= λ nj, [(ni, nj)])).
  rewrite filter_cons. cbn [relocate_row].
  destruct (get2 0 (board b) ni nj =? -1) eqn:E; cbn [negb].
  - rewrite decide_False; [apply IH|]. unfold is_mine. cbn [fst snd]. by rewrite E.
  - rewrite decide_True by exact E. done.
Qed.

Lemma head_filter_app {A} (P : A → Prop) `{!∀ x, Decision (P x)} (l k : list A) :
  head (filter P (l ++ k))
  = match head (filter P l) with Some x => Some x | None => head (filter P k) end.
Proof. rewrite filter_app. by destruct (filter P l). Qed.

Lemma head_filter_Some {A} (P : A → Prop) `{!∀ x, Decision (P x)} (l : list A) x :
  head (filter P l) = Some x → P x ∧ x ∈ l.
Proof.
  intros Hhd. apply (list_elem_of_filter P). destruct (filter P l); simplify_eq/=. by left.
Qed.

Lemma head_filter_None {A} (P : A → Prop) `{!∀ x, Decision (P x)} (l : list A) x :
  head (filter P l) = None → x ∈ l → ¬ P x.
Proof.
  intros Hhd Hx HP. assert (x ∈ filter P l) as Hin by (by apply list_elem_of_filter).
  destruct (filter P l); simplify_eq/=. by apply elem_of_nil in Hin.
Qed.

Lemma relocate_rows_spec i j rows : ∀ b,
  shape (height b) (width b) (board b) = true →
  in_grid b i j = true → is_mine b (i, j) = true →
  (∀ r, r ∈ rows → 0 ≤ r < height b) →
  relocate_rows b i j rows
  = match head (filter (λ c, is_mine b c = false)
                       (rows ≫= λ ni, seqZ 0 (width b) ≫= λ nj, [(ni, nj)])) with
    | Some c => swap_mine b i j c.1 c.2
    | None => b
    end.
Proof.
  induction rows as [|ni rows IH]; intros b Hs Hg Hm Hrows; [done|].
  change ((ni :: rows) ≫= λ ni, seqZ 0 (width b) ≫= λ nj, [(ni, nj)])
    with ((seqZ 0 (width b) ≫= λ nj, [(ni, nj)])
          ++ (rows ≫= λ ni, seqZ 0 (width b) ≫= λ nj, [(ni, nj)])).
  rewrite head_filter_app. simpl. rewrite relocate_row_spec.
  destruct (head (filter _ (seqZ 0 (width b) ≫= _))) as [c|] eqn:E.
  - apply head_filter_Some in E as [Hc Hin].
    apply list_elem_of_bind in Hin as (nj & Hin & Hnj).
    apply list_elem_of_singleton in Hin as ->. apply elem_of_seqZ in Hnj. simpl in *.
    destruct (swap_mine_spec b i j ni nj) as (_ & _ & Hmines & _); try done.
    { apply in_grid_spec. split; [apply Hrows; by left|lia]. }
    specialize (Hmines (i, j)). rewrite decide_True in Hmines by done.
    unfold is_mine in Hmines. simpl in Hmines. by rewrite Hmines.
  - unfold is_mine in Hm. simpl in Hm. rewrite Hm. simpl.
    apply IH; try done. intros r Hr. apply Hrows. by right.
Qed.

Lemma filter_all {A} (P : A → Prop) `{!∀ x, Decision (P x)} (l : list A) :
  (∀ x, x ∈ l → P x) → filter P l = l.
Proof.
  induction l as [|x l IH]; intros Hall; [done|].
  rewrite filter_cons, decide_True by (apply Hall; by left).
  f_equal. apply IH. intros y Hy. apply Hall. by right.
Qed.

(** With fewer mines than cells there is a first non-mine cell. *)
Lemma first_safe_cell_exists b :
  0 ≤ height b → 0 ≤ width b → mine_total b < width b * height b →
  ∃ c, first_safe_cell b = Some c.
Proof.
  intros Hh Hw Hlt. unfold first_safe_cell.
  destruct (head (filter _ _)) as [c|] eqn:E; [eauto|]. exfalso.
  unfold mine_total in Hlt. rewrite filter_all in Hlt.
  - rewrite length_positions in Hlt. nia.
  - intros x Hx. pose proof (head_filter_None _ _ x E Hx) as Hn. simpl in Hn.
    by destruct (is_mine b x).
Qed.

Lemma first_safe_cell_Some b c :
  first_safe_cell b = Some c → is_mine b c = false ∧ in_grid b c.1 c.2 = true.
Proof.
  intros H. apply head_filter_Some in H as [? ?]. split; [done|].
  by apply elem_of_positions_grid.
Qed.

Lemma first_move_guard_eq b i j :
  shape (height b) (width b) (board b) = true → in_grid b i j = true →
  first_move_guard b i j
  = if first_move b then
      if is_mine b (i, j) then
        match first_safe_cell b with
        | Some c => swap_mine (with_first_move b false) i j c.1 c.2
        | None => with_first_move b false
        end
      else with_first_move b false
    else b.
Proof.
  intros Hs Hg. unfold first_move_guard. destruct (first_move b); [|done].
  unfold is_mine. simpl. destruct (get2 0 (board b) i j =? -1) eqn:Hm; [|done].
  rewrite relocate_rows_spec; try done.
  intros r Hr. apply elem_of_seqZ in Hr. simpl. lia.
Qed.

(** Moving one mine from a mine cell to a non-mine cell of the grid
    keeps the number of mines. *)
Lemma mine_total_swap b b' i j c :
  width b' = width b → height b' = height b →
  in_grid b i j = true → in_grid b c.1 c.2 = true →
  is_mine b (i, j) = true → is_mine b c = false →
  (∀ x, is_mine b' x = if decide (x = (i, j)) then false
                       else if decide (x = c) then true else is_mine b x) →
  mine_total b' = mine_total b.
Proof.
  intros Hw Hh Hg Hgc Hm Hc Hmines. unfold mine_total. rewrite Hw, Hh. f_equal.
  set (pos := positions (height b) (width b)).
  assert ((i, j) ∈ pos) as Hin by (by apply (elem_of_positions_grid b (i, j))).
  assert (c ∈ pos) as Hcin by (by apply elem_of_positions_grid).
  assert ((i, j) ≠ c) as Hne by (intros <-; congruence).
  assert ((i, j) :: filter (λ x, is_mine b' x = true) pos
          ≡ₚ c :: filter (λ x, is_mine b x = true) pos) as HP.
  { apply NoDup_Permutation.
    - constructor; [|apply NoDup_filter, NoDup_positions].
      intros [Hx _]%list_elem_of_filter. rewrite Hmines, decide_True in Hx; done.
    - constructor; [|apply NoDup_filter, NoDup_positions].
      intros [Hx _]%list_elem_of_filter. congruence.
    - intros x. rewrite !elem_of_cons, !list_elem_of_filter, Hmines.
      repeat case_decide; simplify_eq; split; intros [?|[? ?]]; auto; congruence. }
  apply Permutation_length in HP. simpl in HP. injection HP as HP. exact HP.
Qed.

(** ** probe *)

Lemma probe_after_guard_mine b1 i j :
  is_mine b1 (i, j) = true →
  probe_after_guard b1 i j = Some (false, with_game_over b1 true).
Proof. unfold is_mine, probe_after_guard. simpl. by intros ->. Qed.

Lemma probe_after_guard_safe b1 i j :
  well_shaped b1 = true → in_grid b1 i j = true → is_mine b1 (i, j) = false →
  ∃ vis2,
    probe_after_guard b1 i j
    = Some (true,
            if np_sum vis2 =? width b1 * height b1 - num_mines b1
            then with_won (with_visible b1 vis2) true else with_visible b1 vis2)
    ∧ shape (height b1) (width b1) vis2 = true
    ∧ get2 false vis2 i j = true
    ∧ (∀ c, is_visible b1 c = true → get2 false vis2 c.1 c.2 = true)
    ∧ (counts_ok b1 = true → visible_safe b1 = true →
       ∀ c, in_grid b1 c.1 c.2 = true → get2 false vis2 c.1 c.2 = true →
            is_mine b1 c = false).
Proof.
  intros Hws Hg Hm. apply well_shaped_spec in Hws as (Hsb & Hsv & Hsm).
  pose proof Hg as Hg'. apply in_grid_spec in Hg' as [Hi Hj].
  unfold probe_after_guard. unfold is_mine in Hm. simpl in Hm. rewrite Hm.
  set (vis1 := set2 (visible b1) i j true).
  assert (shape (height b1) (width b1) vis1 = true) as Hs1 by (unfold vis1; by rewrite shape_set2).
  assert (get2 false vis1 i j = true) as Hij by (unfold vis1; by eapply get2_set2_eq).
  assert (∀ c, is_visible b1 c = true → get2 false vis1 c.1 c.2 = true) as Hmono.
  { intros c Hc. unfold vis1. erewrite get2_set2 by done. by case_decide. }
  assert (visible_safe b1 = true →
          ∀ c, in_grid b1 c.1 c.2 = true → get2 false vis1 c.1 c.2 = true →
               is_mine b1 c = false) as Hsafe1.
  { intros Hvs [x y] Hc. unfold vis1. erewrite get2_set2 by done.
    case_decide as E; [intros _; simplify_eq/=; by unfold is_mine|].
    rewrite visible_safe_spec in Hvs. by apply Hvs. }
  destruct (get2 0 (board b1) i j =? 0) eqn:Hz.
  - apply Z.eqb_eq in Hz.
    destruct (flood_fill_terminates b1 (flood_fuel b1 vis1) vis1 [(i, j)])
      as (vis2 & E & Hs2 & Hmono2); [done| |unfold flood_fuel; simpl; lia|].
    { intros q Hq. apply list_elem_of_singleton in Hq as ->. done. }
    rewrite E. simpl. exists vis2. split_and!; [done|done|by apply (Hmono2 (i, j))|auto|].
    intros Hok Hvs.
    apply (flood_fill_safe b1 (flood_fuel b1 vis1) vis1 [(i, j)] vis2 Hok Hs1);
      [|by apply Hsafe1|exact E].
    intros q Hq. apply list_elem_of_singleton in Hq as ->. done.
  - simpl. exists vis1. split_and!; auto.
Qed.

Lemma first_move_guard_cases b i j :
  well_shaped b = true → in_grid b i j = true →
  (first_move b = false ∧ first_move_guard b i j = b)
  ∨ (first_move b = true ∧ is_mine b (i, j) = false
     ∧ first_move_guard b i j = with_first_move b false)
  ∨ (first_move b = true ∧ is_mine b (i, j) = true ∧ first_safe_cell b = None
     ∧ first_move_guard b i j = with_first_move b false)
  ∨ (first_move b = true ∧ is_mine b (i, j) = true
     ∧ ∃ c, first_safe_cell b = Some c
       ∧ same_but_board (with_first_move b false) (first_move_guard b i j)
       ∧ shape (height b) (width b) (board (first_move_guard b i j)) = true
       ∧ (∀ x, is_mine (first_move_guard b i j) x
               = if decide (x = (i, j)) then false
                 else if decide (x = c) then true else is_mine b x)
       ∧ (counts_ok b = true → counts_ok (first_move_guard b i j) = true)).
Proof.
  intros Hws Hg. apply well_shaped_spec in Hws as (Hsb & _ & _).
  rewrite first_move_guard_eq by done.
  destruct (first_move b) eqn:Hf; [|by left]. right.
  destruct (is_mine b (i, j)) eqn:Hm; [|by left]. right.
  destruct (first_safe_cell b) as [c|] eqn:Hc; [|by left]. right.
  split_and!; [done..|]. exists c. split; [done|].
  apply first_safe_cell_Some in Hc as [Hcm Hcg]. destruct c as [ci cj].
  by apply (swap_mine_spec (with_first_move b false) i j ci cj).
Qed.

(** C2.  On a board that has not been probed yet and holds fewer mines
    than cells, probing any cell of the grid returns True and does not
    set game_over; the probed cell is no mine afterwards and the number
    of mines is unchanged.  If the cell was no mine the hidden board is
    untouched; if it was a mine, that mine now sits on the first non-mine
    cell in row-major order and all other cells are as before.  Boards
    whose counts were right have right counts afterwards (the recount of
    the two neighbourhoods and the two cells). *)
Theorem C2_first_probe_is_safe (b : MinesweeperBoard) (i j : Z) :
  well_shaped b = true → first_move b = true → in_grid b i j = true →
  mine_total b < width b * height b →
  ∃ b', probe b i j = Some (true, b')
    ∧ game_over b' = game_over b
    ∧ first_move b' = false
    ∧ is_mine b' (i, j) = false
    ∧ mine_total b' = mine_total b
    ∧ (is_mine b (i, j) = false → board b' = board b)
    ∧ (is_mine b (i, j) = true →
       ∃ c, first_safe_cell b = Some c
         ∧ ∀ x, is_mine b' x = if decide (x = (i, j)) then false
                               else if decide (x = c) then true else is_mine b x)
    ∧ (counts_ok b = true → counts_ok b' = true).
Proof.
  intros Hws Hf Hg Hlt. unfold probe.
  pose proof Hws as Hws'. apply well_shaped_spec in Hws' as (Hsb & Hsv & Hsm).
  pose proof Hsb as Hdim. apply shape_spec in Hdim as (Hh & Hw & _).
  destruct (first_safe_cell_exists b Hh Hw Hlt) as [c0 Hc0].
  set (b1 := first_move_guard b i j).
  assert (∃ brd, b1 = with_board (with_first_move b false) brd
          ∧ shape (height b) (width b) brd = true
          ∧ is_mine b1 (i, j) = false
          ∧ mine_total b1 = mine_total b
          ∧ (is_mine b (i, j) = false → brd = board b)
          ∧ (is_mine b (i, j) = true →
             ∀ x, is_mine b1 x = if decide (x = (i, j)) then false
                                 else if decide (x = c0) then true else is_mine b x)
          ∧ (counts_ok b = true → counts_ok b1 = true))
    as (brd & Eb1 & Hsbrd & Hm1 & Htot & Hsame & Hmoved & Hcnt).
  { destruct (first_move_guard_cases b i j Hws Hg)
      as [[? _]|[(_ & Hm & E)|[(_ & _ & ? & _)|(_ & Hm & c & Hc & Hsame & Hs & Hmines & Hok)]]];
      [congruence| |congruence|].
    - exists (board b). fold b1 in E. rewrite E.
      split_and!; [done|done|done|done|done|congruence|done].
    - fold b1 in Hsame, Hs, Hmines, Hok. simplify_eq.
      exists (board b1).
      split; [|split; [done|]]; [|split; [by rewrite Hmines, decide_True|]];
        [|split; [|split; [congruence|done]]].
      + destruct Hsame as (? & ? & ? & ? & ? & ? & ? & ?).
        destruct b1; simpl in *. unfold with_board, with_first_move. simpl. congruence.
      + apply first_safe_cell_Some in Hc0 as [? ?].
        apply (mine_total_swap b b1 i j c0); [apply Hsame|apply Hsame|done..]. }
  assert (well_shaped b1 = true) as Hws1.
  { rewrite Eb1. apply well_shaped_spec. simpl. done. }
  assert (in_grid b1 i j = true) as Hg1 by (by rewrite Eb1).
  destruct (probe_after_guard_safe b1 i j Hws1 Hg1 Hm1) as (vis2 & E & _).
  rewrite E. eexists. split; [done|].
  assert (∀ bb : MinesweeperBoard,
            (bb = with_won (with_visible b1 vis2) true ∨ bb = with_visible b1 vis2) →
            board bb = board b1 ∧ width bb = width b ∧ height bb = height b
            ∧ game_over bb = game_over b ∧ first_move bb = false) as Hframe.
  { intros bb [->| ->]; rewrite Eb1; done. }
  match goal with |- context [if ?c then _ else _] => destruct c end.
  - destruct (Hframe _ (or_introl eq_refl)) as (Eb & Ew & Eh & Eg & Ef).
    split_and!; [done|done|exact Hm1|exact Htot| |eauto|exact Hcnt].
    intros Hm. simpl. rewrite Eb1. simpl. auto.
  - destruct (Hframe _ (or_intror eq_refl)) as (Eb & Ew & Eh & Eg & Ef).
    split_and!; [done|done|exact Hm1|exact Htot| |eauto|exact Hcnt].
    intros Hm. simpl. rewrite Eb1. simpl. auto.
Qed.

Lemma C2_first_probe_is_safe_witness :
  ∃ b', probe corner_mine_board 0 0 = Some (true, b')
    ∧ game_over b' = game_over corner_mine_board
    ∧ first_move b' = false
    ∧ is_mine b' (0, 0) = false
    ∧ mine_total b' = mine_total corner_mine_board
    ∧ (is_mine corner_mine_board (0, 0) = false → board b' = board corner_mine_board)
    ∧ (is_mine corner_mine_board (0, 0) = true →
       ∃ c, first_safe_cell corner_mine_board = Some c
         ∧ ∀ x, is_mine b' x = if decide (x = (0, 0)) then false
                               else if decide (x = c) then true
                               else is_mine corner_mine_board x)
    ∧ (counts_ok corner_mine_board = true → counts_ok b' = true).
Proof.
  apply (C2_first_probe_is_safe corner_mine_board 0 0);
    [reflexivity|reflexivity|reflexivity|vm_compute; reflexivity].
Defined.

(** The last step of probe: when the visible cells number
    width*height - num_mines after a successful probe, won is set. *)
Lemma probe_sets_won b i j b' :
  probe b i j = Some (true, b') →
  np_sum (visible b') = width b' * height b' - num_mines b' → won b' = true.
Proof.
  unfold probe, probe_after_guard.
  destruct (get2 0 (board _) i j =? -1); [done|].
  destruct (if get2 0 (board _) i j =? 0 then _ else _) as [vis2|]; [|done]. simpl.
  destruct (np_sum vis2 =? _) eqn:E; intros [= <-]; [done|].
  simpl. apply Z.eqb_neq in E. done.
Qed.

Lemma visible_safe_ext b b' :
  width b' = width b → height b' = height b → board b' = board b → visible b' = visible b →
  visible_safe b' = visible_safe b.
Proof.
  intros Hw Hh Hb Hv. unfold visible_safe, is_visible, is_mine. by rewrite Hw, Hh, Hb, Hv.
Qed.

(** C10.  On a board of consistent counts on which no visible cell is a
    mine (and on which nothing is visible as long as the first probe has
    not been made), probing a cell of the grid returns, and afterwards
    still no visible cell is a mine.  When the probe hits a mine it
    returns False with game_over set and the visibility array as it
    was. *)
Theorem C10_probe_keeps_visible_cells_safe (b : MinesweeperBoard) (i j : Z) :
  well_shaped b = true → counts_ok b = true → visible_safe b = true →
  (first_move b = true → nothing_visible b = true) →
  in_grid b i j = true →
  ∃ r b', probe b i j = Some (r, b')
    ∧ visible_safe b' = true
    ∧ (r = false → game_over b' = true ∧ visible b' = visible b).
Proof.
  intros Hws Hok Hvs Hfirst Hg. unfold probe.
  pose proof Hws as Hws'. apply well_shaped_spec in Hws' as (Hsb & Hsv & Hsm).
  set (b1 := first_move_guard b i j).
  assert (well_shaped b1 = true ∧ counts_ok b1 = true ∧ visible_safe b1 = true
          ∧ width b1 = width b ∧ height b1 = height b ∧ visible b1 = visible b)
    as (Hws1 & Hok1 & Hvs1 & Ew & Eh & Ev).
  { destruct (first_move_guard_cases b i j Hws Hg)
      as [[_ E]|[(_ & _ & E)|[(_ & _ & _ & E)|(Hf & Hm & c & Hc & Hsame & Hs & Hmines & Hcnt)]]];
      fold b1 in E || fold b1 in Hsame, Hs, Hmines, Hcnt; try (rewrite E; done).
    destruct Hsame as (Hw & Hh & _ & Hv & Hmk & _). simpl in *.
    split_and!; [|by apply Hcnt| |done..].
    - apply well_shaped_spec. by rewrite Hw, Hh, Hv, Hmk.
    - apply visible_safe_spec. intros x y Hxy.
      specialize (Hfirst Hf). rewrite nothing_visible_spec in Hfirst.
      unfold is_visible. rewrite Hv. fold (is_visible b (x, y)).
      rewrite Hfirst; [done|]. unfold in_grid in *. by rewrite <- Hw, <- Hh. }
  assert (in_grid b1 i j = true) as Hg1 by (unfold in_grid; by rewrite Ew, Eh).
  destruct (is_mine b1 (i, j)) eqn:Hm.
  - rewrite probe_after_guard_mine by done.
    exists false, (with_game_over b1 true). split_and!; [done|exact Hvs1|done].
  - destruct (probe_after_guard_safe b1 i j Hws1 Hg1 Hm) as (vis2 & E & Hs2 & _ & _ & Hsafe).
    rewrite E. eexists true, _. split; [done|]. split; [|done].
    assert (visible_safe (with_visible b1 vis2) = true) as Hvs2.
    { apply visible_safe_spec. intros x y Hxy Hv. by apply (Hsafe Hok1 Hvs1 (x, y)). }
    by destruct (np_sum vis2 =? _).
Qed.

Lemma C10_probe_keeps_visible_cells_safe_witness :
  ∃ r b', probe row_board 0 2 = Some (r, b')
    ∧ visible_safe b' = true
    ∧ (r = false → game_over b' = true ∧ visible b' = visible row_board).
Proof.
  apply (C10_probe_keeps_visible_cells_safe row_board 0 2); reflexivity.
Defined.

(** ** mark_mine *)

Lemma mark_mine_spec b i j :
  board (mark_mine b i j) = board b ∧ visible (mark_mine b i j) = visible b
  ∧ width (mark_mine b i j) = width b ∧ height (mark_mine b i j) = height b
  ∧ num_mines (mark_mine b i j) = num_mines b
  ∧ first_move (mark_mine b i j) = first_move b
  ∧ game_over (mark_mine b i j) = game_over b ∧ won (mark_mine b i j) = won b
  ∧ (∀ c, c ≠ (i, j) → is_marked (mark_mine b i j) c = is_marked b c)
  ∧ (well_shaped b = true → in_grid b i j = true → is_marked (mark_mine b i j) (i, j) = true).
Proof.
  split_and!; try done.
  - intros c Hc. unfold is_marked. simpl. apply get2_set2_ne. by destruct c.
  - intros Hws Hg. apply well_shaped_spec in Hws as (_ & _ & Hsm).
    apply in_grid_spec in Hg as [? ?]. unfold is_marked. simpl. by eapply get2_set2_eq.
Qed.

(** C7, as the code has it.  Neither probe nor mark_mine tests game_over
    or won.  On a terminal board both still return without failure, keep
    every terminal flag that is set, and (the first move being past) keep
    the hidden board; but mark_mine does set the mark of its cell, and
    probe does what it does on any board: on a mine it sets game_over,
    on another cell it makes that cell visible. *)
Theorem C7_terminal_board_is_not_frozen (b : MinesweeperBoard) (i j : Z) :
  well_shaped b = true → in_grid b i j = true →
  game_over b = true ∨ won b = true →
  (board (mark_mine b i j) = board b ∧ visible (mark_mine b i j) = visible b
   ∧ game_over (mark_mine b i j) = game_over b ∧ won (mark_mine b i j) = won b
   ∧ is_marked (mark_mine b i j) (i, j) = true)
  ∧ ∃ r b', probe b i j = Some (r, b')
      ∧ marked b' = marked b
      ∧ (first_move b = false → board b' = board b)
      ∧ (game_over b = true → game_over b' = true)
      ∧ (won b = true → won b' = true)
      ∧ (∀ c, is_visible b c = true → is_visible b' c = true)
      ∧ (r = false → game_over b' = true)
      ∧ (r = true → is_visible b' (i, j) = true).
Proof.
  intros Hws Hg _. split.
  { destruct (mark_mine_spec b i j) as (? & ? & _ & _ & _ & _ & ? & ? & _ & ?). auto 10. }
  unfold probe. set (b1 := first_move_guard b i j).
  assert (well_shaped b1 = true ∧ width b1 = width b ∧ height b1 = height b
          ∧ visible b1 = visible b ∧ marked b1 = marked b
          ∧ game_over b1 = game_over b ∧ won b1 = won b
          ∧ (first_move b = false → board b1 = board b))
    as (Hws1 & Ew & Eh & Ev & Emk & Ego & Ewon & Eb).
  { destruct (first_move_guard_cases b i j Hws Hg)
      as [[_ E]|[(_ & _ & E)|[(_ & _ & _ & E)|(Hf & Hm & c & Hc & Hsame & Hs & _)]]];
      fold b1 in E || fold b1 in Hsame, Hs; try (rewrite E; done).
    destruct Hsame as (Hw & Hh & _ & Hv & Hmk & _ & Hgo & Hwon). simpl in *.
    apply well_shaped_spec in Hws as (_ & Hsv & Hsm).
    split_and!; [|done..|congruence].
    apply well_shaped_spec. by rewrite Hw, Hh, Hv, Hmk. }
  assert (in_grid b1 i j = true) as Hg1 by (unfold in_grid; by rewrite Ew, Eh).
  destruct (is_mine b1 (i, j)) eqn:Hm.
  - rewrite probe_after_guard_mine by done.
    exists false, (with_game_over b1 true). simpl.
    split_and!; try done; try congruence.
    intros c. unfold is_visible. simpl. by rewrite Ev.
  - destruct (probe_after_guard_safe b1 i j Hws1 Hg1 Hm) as (vis2 & E & Hs2 & Hij & Hmono & _).
    rewrite E. eexists true, _. split; [done|].
    assert (∀ c, is_visible b c = true → get2 false vis2 c.1 c.2 = true) as Hmono'.
    { intros c Hc. apply Hmono. unfold is_visible in *. by rewrite Ev. }
    destruct (np_sum vis2 =? _); simpl; split_and!; try done; try congruence.
Qed.

Lemma C7_terminal_board_is_not_frozen_witness :
  (board (mark_mine won_board 0 0) = board won_board
   ∧ visible (mark_mine won_board 0 0) = visible won_board
   ∧ game_over (mark_mine won_board 0 0) = game_over won_board
   ∧ won (mark_mine won_board 0 0) = won won_board
   ∧ is_marked (mark_mine won_board 0 0) (0, 0) = true)
  ∧ ∃ r b', probe won_board 0 0 = Some (r, b')
      ∧ marked b' = marked won_board
      ∧ (first_move won_board = false → board b' = board won_board)
      ∧ (game_over won_board = true → game_over b' = true)
      ∧ (won won_board = true → won b' = true)
      ∧ (∀ c, is_visible won_board c = true → is_visible b' c = true)
      ∧ (r = false → game_over b' = true)
      ∧ (r = true → is_visible b' (0, 0) = true).
Proof.
  apply (C7_terminal_board_is_not_frozen won_board 0 0);
    [reflexivity|reflexivity|right; reflexivity].
Defined.

(** C7 as stated fails.  [won_board] and [lost_board] are reached by
    probes from fresh boards; on the won board mark_mine changes the
    marks and a probe of the mine sets game_over, on the lost board a
    probe of a hidden safe cell makes it visible and even sets won. *)
Lemma C7_terminal_board_changes :
  (∃ b0, probe (mkBoard 2 1 1 [[-1; 1]] [[false; false]] [[false; false]] true false false) 0 1
         = Some (true, b0) ∧ b0 = won_board)
  ∧ won won_board = true
  ∧ marked (mark_mine won_board 0 0) ≠ marked won_board
  ∧ (∃ b', probe won_board 0 0 = Some (false, b') ∧ game_over b' ≠ game_over won_board)
  ∧ game_over lost_board = true
  ∧ (∃ b', probe lost_board 0 2 = Some (true, b')
           ∧ visible b' ≠ visible lost_board ∧ won b' ≠ won lost_board).
Proof.
  split_and!.
  - eexists. split; reflexivity.
  - reflexivity.
  - vm_compute. discriminate.
  - eexists. split; [reflexivity|]. vm_compute. discriminate.
  - reflexivity.
  - eexists. split; [reflexivity|]. split; vm_compute; discriminate.
Qed.

(** ** The simplifier's reveal and the win flag *)

(** C8 fails on the simplifier's path.  On [row_board], after probe(0,0),
    probe(0,2) and update_constraints, simplify_constraints marks (0,1)
    and then writes visible[0,3] itself: all three non-mine cells are
    visible, the count equals width*height - num_mines, and won is still
    False.  next_move goes on to its guessing steps on that board. *)
Theorem C8_simplifier_reveal_skips_win_check :
  (∃ b1, probe row_board 0 0 = Some (true, b1)
         ∧ probe b1 0 2 = Some (true, row_board_probed))
  ∧ row_solver.2 = [mkConstraint {[ (0, 1) ]} 1; mkConstraint {[ (0, 1); (0, 3) ]} 1]
  ∧ is_visible row_board_probed (0, 3) = false
  ∧ is_visible (simplify_constraints row_solver).1 (0, 3) = true
  ∧ np_sum (visible (simplify_constraints row_solver).1)
    = width (simplify_constraints row_solver).1 * height (simplify_constraints row_solver).1
      - num_mines (simplify_constraints row_solver).1
  ∧ won (simplify_constraints row_solver).1 = false
  ∧ ∀ guess r, next_move guess r row_solver
               = Some (guess (simplify_constraints row_solver), simplify_constraints row_solver)
                 ∧ won (simplify_constraints row_solver).1 = false.
Proof.
  split_and!.
  - eexists. split; reflexivity.
  - reflexivity.
  - reflexivity.
  - reflexivity.
  - reflexivity.
  - reflexivity.
  - intros guess r. split; reflexivity.
Qed.

(** ** Enumeration of the worlds of a component *)

Lemma option_fmap_add0 (o : option Z) : (λ n, n + 0) <$> o = o.
Proof. destruct o; simpl; [f_equal; lia|done]. Qed.

(** The counting loop of lines 341-343, over any list of items. *)
Lemma count_items_lookup (l : list (cell * Z)) (v : cell) : ∀ cnt : gmap cell Z,
  foldl (λ cnt (kv : cell * Z), if negb (kv.2 =? 0) then alter Z.succ kv.1 cnt else cnt) cnt l !! v
  = (λ n, n + Z.of_nat (length (filter (λ kv : cell * Z, kv.1 = v ∧ kv.2 ≠ 0) l))) <$> cnt !! v.
Proof.
  induction l as [|[k x] l IH]; intros cnt; simpl.
  - by rewrite option_fmap_add0.
  - rewrite IH, filter_cons. simpl.
    destruct (x =? 0) eqn:Ex; simpl.
    + apply Z.eqb_eq in Ex. rewrite decide_False by tauto. done.
    + apply Z.eqb_neq in Ex. rewrite lookup_alter.
      destruct (decide (k = v)) as [->|Hne].
      * rewrite decide_True by done. destruct (cnt !! v); simpl; [|done].
        f_equal. rewrite Nat2Z.inj_succ. lia.
      * rewrite decide_False by tauto. done.
Qed.

Lemma items_of_variable (m : gmap cell Z) (v : cell) :
  length (filter (λ kv : cell * Z, kv.1 = v ∧ kv.2 ≠ 0) (map_to_list m))
  = if mine_in m v then 1%nat else 0%nat.
Proof.
  unfold mine_in. destruct (m !! v) as [x|] eqn:E.
  - destruct (x =? 0) eqn:Ex; simpl.
    + apply Z.eqb_eq in Ex. subst x.
      destruct (filter _ _) as [|kv l] eqn:F; [done|].
      assert (kv ∈ filter (λ kv : cell * Z, kv.1 = v ∧ kv.2 ≠ 0) (map_to_list m)) as Hin
        by (rewrite F; by left).
      apply list_elem_of_filter in Hin as [[? ?] Hin]. destruct kv as [k x].
      apply elem_of_map_to_list in Hin. simplify_eq/=.
    + apply Z.eqb_neq in Ex.
      change 1%nat with (length [(v, x)]). apply Permutation_length, NoDup_Permutation.
      * apply NoDup_filter, NoDup_map_to_list.
      * apply NoDup_singleton.
      * intros [k y]. rewrite list_elem_of_filter, elem_of_map_to_list, list_elem_of_singleton.
        simpl. split; [intros [[-> ?] ?]; congruence|intros [= -> ->]; done].
  - destruct (filter _ _) as [|kv l] eqn:F; [done|].
    assert (kv ∈ filter (λ kv : cell * Z, kv.1 = v ∧ kv.2 ≠ 0) (map_to_list m)) as Hin
      by (rewrite F; by left).
    apply list_elem_of_filter in Hin as [[? ?] Hin]. destruct kv as [k x].
    apply elem_of_map_to_list in Hin. simplify_eq/=.
Qed.

Lemma record_solution_spec (t : Tally) :
  assigned_vars (record_solution t) = assigned_vars t
  ∧ total_solutions (record_solution t) = total_solutions t + 1
  ∧ ∀ v, var_is_mine_count (record_solution t) !! v
         = (λ n, n + if mine_in (assigned_vars t) v then 1 else 0) <$> var_is_mine_count t !! v.
Proof.
  split_and!; [done|done|]. intros v. unfold record_solution. simpl.
  rewrite count_items_lookup, items_of_variable. by destruct (mine_in _ _).
Qed.

(** What a call of backtrack does to the tally: the dictionary is handed
    back as it was received, and every valid leaf below is counted. *)
Lemma backtrack_spec (cs : list Constraint) (rest : list cell) : ∀ t : Tally,
  NoDup rest → (∀ v, v ∈ rest → assigned_vars t !! v = None) →
  assigned_vars (backtrack cs rest t) = assigned_vars t
  ∧ total_solutions (backtrack cs rest t)
    = total_solutions t
      + Z.of_nat (length (filter (λ m, valid cs m = true) (worlds rest (assigned_vars t))))
  ∧ ∀ v, var_is_mine_count (backtrack cs rest t) !! v
         = (λ n, n + Z.of_nat (length (filter (λ m, valid cs m = true ∧ mine_in m v = true)
                                              (worlds rest (assigned_vars t)))))
           <$> var_is_mine_count t !! v.
Proof.
  induction rest as [|var rest IH]; intros t Hnd Hfresh.
  - simpl. fold (valid cs (assigned_vars t)). rewrite !filter_cons, !filter_nil.
    destruct (valid cs (assigned_vars t)) eqn:Hv.
    + destruct (record_solution_spec t) as (R1 & R2 & R3).
      rewrite decide_True by done. split_and!; [done|simpl; lia|].
      intros v. rewrite R3. destruct (var_is_mine_count t !! v); simpl; [|done].
      f_equal. rewrite filter_cons, filter_nil.
      destruct (mine_in (assigned_vars t) v) eqn:Hm.
      * rewrite decide_True by done. done.
      * rewrite decide_False by (intros [_ ?]; congruence). done.
    + rewrite decide_False by done. split_and!; [done|simpl; lia|].
      intros v. destruct (var_is_mine_count t !! v); simpl; [|done].
      f_equal. rewrite filter_cons, filter_nil.
      rewrite decide_False by (intros [? _]; congruence). simpl. lia.
  - apply NoDup_cons in Hnd as [Hvar Hnd]. simpl.
    set (t0 := with_assigned t (<[var:=0]> (assigned_vars t))).
    destruct (IH t0 Hnd) as (A1 & T1 & C1).
    { intros v Hv. simpl. rewrite lookup_insert_ne; [apply Hfresh; by right|].
      intros ->. done. }
    set (t1 := backtrack cs rest t0) in *.
    set (t1' := with_assigned t1 (<[var:=1]> (assigned_vars t1))).
    destruct (IH t1' Hnd) as (A2 & T2 & C2).
    { intros v Hv. simpl. rewrite A1. simpl. rewrite !lookup_insert_ne; [apply Hfresh; by right|..];
        intros ->; done. }
    set (t2 := backtrack cs rest t1') in *.
    simpl in *. rewrite A1 in A2, T2, C2. simpl in *. rewrite insert_insert_eq in A2, T2, C2.
    split_and!.
    + rewrite A2. apply delete_insert_id, Hfresh. by left.
    + rewrite T2, T1, filter_app, length_app. lia.
    + intros v. rewrite C2, C1, filter_app, length_app.
      destruct (var_is_mine_count t !! v); simpl; [|done]. f_equal. lia.
Qed.

Lemma elem_of_worlds (rest : list cell) : ∀ (m m' : gmap cell Z),
  NoDup rest → (∀ v, v ∈ rest → m !! v = None) →
  m' ∈ worlds rest m ↔
  (∀ k, k ∉ rest → m' !! k = m !! k)
  ∧ (∀ v, v ∈ rest → m' !! v = Some 0 ∨ m' !! v = Some 1).
Proof.
  induction rest as [|var rest IH]; intros m m' Hnd Hfresh; simpl.
  - rewrite list_elem_of_singleton. split.
    + intros ->. split; [done|]. intros v Hv. by apply elem_of_nil in Hv.
    + intros [H _]. apply map_eq. intros k. apply H, not_elem_of_nil.
  - apply NoDup_cons in Hnd as [Hvar Hnd].
    assert (∀ x v, v ∈ rest → <[var:=x]> m !! v = None) as Hfresh'.
    { intros x v Hv. rewrite lookup_insert_ne by (intros ->; done). apply Hfresh. by right. }
    rewrite elem_of_app, !IH by auto. split.
    + intros [[H1 H2]|[H1 H2]]; (split; [intros k Hk|intros v Hv]).
      * apply not_elem_of_cons in Hk as [? ?]. rewrite H1 by done. by rewrite lookup_insert_ne.
      * apply elem_of_cons in Hv as [->|?]; [|auto].
        left. rewrite H1 by done. by rewrite lookup_insert_eq.
      * apply not_elem_of_cons in Hk as [? ?]. rewrite H1 by done. by rewrite lookup_insert_ne.
      * apply elem_of_cons in Hv as [->|?]; [|auto].
        right. rewrite H1 by done. by rewrite lookup_insert_eq.
    + intros [H1 H2].
      assert (∀ x, m' !! var = Some x →
                (∀ k, k ∉ rest → m' !! k = <[var:=x]> m !! k)
                ∧ (∀ v, v ∈ rest → m' !! v = Some 0 ∨ m' !! v = Some 1)) as Hx.
      { intros x Hx. split.
        - intros k Hk. destruct (decide (k = var)) as [->|Hne].
          + by rewrite lookup_insert_eq.
          + rewrite lookup_insert_ne by done. apply H1. by apply not_elem_of_cons.
        - intros v Hv. apply H2. by right. }
      destruct (H2 var) as [E|E]; [by left|left|right]; by apply Hx.
Qed.

Lemma NoDup_worlds (rest : list cell) : ∀ m : gmap cell Z,
  NoDup rest → (∀ v, v ∈ rest → m !! v = None) → NoDup (worlds rest m).
Proof.
  induction rest as [|var rest IH]; intros m Hnd Hfresh; simpl.
  - apply NoDup_singleton.
  - apply NoDup_cons in Hnd as [Hvar Hnd].
    assert (∀ x v, v ∈ rest → <[var:=x]> m !! v = None) as Hfresh'.
    { intros x v Hv. rewrite lookup_insert_ne by (intros ->; done). apply Hfresh. by right. }
    apply NoDup_app. split_and!; [apply IH; auto| |apply IH; auto].
    intros m' H0 H1.
    apply elem_of_worlds in H0 as [H0 _]; [|by auto..].
    apply elem_of_worlds in H1 as [H1 _]; [|by auto..].
    specialize (H0 var Hvar). specialize (H1 var Hvar).
    rewrite lookup_insert_eq in H0, H1. congruence.
Qed.

Lemma length_filter_fmap {A B} (f : A → B) (P : B → Prop) `{!∀ y, Decision (P y)} (l : list A) :
  length (filter P (f <$> l)) = length (filter (λ x, P (f x)) l).
Proof.
  induction l as [|x l IH]; [done|]. rewrite fmap_cons, !filter_cons.
  destruct (decide (P (f x))); simpl; by rewrite IH.
Qed.

Lemma variables_subseteq_all_variables (cs : list Constraint) (c : Constraint) :
  c ∈ cs → variables c ⊆ all_variables cs.
Proof.
  unfold all_variables.
  assert (∀ (acc : gset cell),
            acc ⊆ foldl (λ all_vars c, all_vars ∪ variables c) acc cs
            ∧ (c ∈ cs → variables c ⊆ foldl (λ all_vars c, all_vars ∪ variables c) acc cs)) as H.
  { induction cs as [|c' cs IH]; intros acc; simpl.
    - split; [done|]. intros Hc. by apply elem_of_nil in Hc.
    - destruct (IH (acc ∪ variables c')) as [I1 I2]. split.
      + etrans; [|exact I1]. apply union_subseteq_l.
      + intros Hc. apply elem_of_cons in Hc as [->|Hc]; [|auto].
        etrans; [|exact I1]. apply union_subseteq_r. }
  apply H.
Qed.

(** On 0/1 assignments, the sum the code takes is the number of mines. *)
Lemma mine_count_mines_in (m : gmap cell Z) (c : Constraint) :
  (∀ v, v ∈ variables c → m !! v = Some 0 ∨ m !! v = Some 1) →
  mine_count m c = mines_in (to_mine <$> m) c.
Proof.
  unfold mine_count, mines_in. intros Hm.
  assert (∀ v, v ∈ elements (variables c) → m !! v = Some 0 ∨ m !! v = Some 1) as Hl
    by (intros v Hv; apply Hm; by apply elem_of_elements).
  clear Hm. generalize dependent (elements (variables c)). intros l Hl.
  assert (∀ acc, foldl (λ acc var, acc + default 0 (m !! var)) acc l
                 = acc + Z.of_nat (length (filter (λ v, (to_mine <$> m) !! v = Some true) l))) as H;
    [|by rewrite H].
  induction l as [|v l IH]; intros acc; simpl; [lia|].
  rewrite IH by (intros; apply Hl; by right). rewrite filter_cons, lookup_fmap.
  destruct (Hl v) as [E|E]; [by left|..]; rewrite E; simpl.
  - lia.
  - rewrite Nat2Z.inj_succ. lia.
Qed.

Lemma lookup_initial_counts (vs : list cell) (v : cell) :
  (list_to_map ((λ var, (var, 0)) <$> vs) : gmap cell Z) !! v
  = if decide (v ∈ vs) then Some 0 else None.
Proof.
  induction vs as [|x vs IH].
  - rewrite decide_False by apply not_elem_of_nil. apply lookup_empty.
  - rewrite fmap_cons, list_to_map_cons. destruct (decide (x = v)) as [->|Hne].
    + rewrite lookup_insert_eq. by rewrite decide_True by left.
    + rewrite lookup_insert_ne by done. rewrite IH.
      destruct (decide (v ∈ vs)).
      * by rewrite decide_True by (by right).
      * rewrite decide_False; [done|]. intros [->|?]%elem_of_cons; done.
Qed.

Lemma to_mine_of_mine (x : bool) : to_mine (of_mine x) = x.
Proof. by destruct x. Qed.

Lemma valid_spec (cs : list Constraint) (m : gmap cell Z) :
  valid cs m = true ↔ ∀ c, c ∈ cs → mine_count m c = value c.
Proof.
  unfold valid. rewrite forallb_forall. setoid_rewrite <- list_elem_of_In.
  setoid_rewrite Z.eqb_eq. done.
Qed.

(** The tally of the enumeration against the satisfying assignments. *)
Lemma enumerate_spec (cs : list Constraint) :
  ∃ L : list (gmap cell bool),
    NoDup L
    ∧ (∀ W, W ∈ L ↔ dom W = all_variables cs ∧ satisfies W cs)
    ∧ total_solutions (enumerate cs (elements (all_variables cs))) = Z.of_nat (length L)
    ∧ ∀ v, v ∈ all_variables cs →
        var_is_mine_count (enumerate cs (elements (all_variables cs))) !! v
        = Some (Z.of_nat (length (filter (λ W, W !! v = Some true) L))).
Proof.
  set (V := all_variables cs). set (vs := elements V).
  assert (NoDup vs) as Hnd by apply NoDup_elements.
  assert (∀ v, v ∈ vs → (∅ : gmap cell Z) !! v = None) as Hfresh by (intros; apply lookup_empty).
  pose proof (elem_of_worlds vs ∅) as Hw.
  assert (∀ m, m ∈ worlds vs ∅ ↔
               (∀ k, k ∉ V → m !! k = None) ∧ (∀ v, v ∈ V → m !! v = Some 0 ∨ m !! v = Some 1))
    as Hworld.
  { intros m. rewrite Hw by done. unfold vs. setoid_rewrite elem_of_elements.
    by setoid_rewrite lookup_empty. }
  assert (∀ m c, m ∈ worlds vs ∅ → c ∈ cs →
                 mine_count m c = mines_in (to_mine <$> m) c) as Hcount.
  { intros m c Hm Hc. apply mine_count_mines_in. intros v Hv.
    apply Hworld in Hm as [_ Hm]. apply Hm.
    by apply (variables_subseteq_all_variables cs c). }
  exists ((λ m : gmap cell Z, to_mine <$> m) <$> filter (λ m, valid cs m = true) (worlds vs ∅)).
  split_and!.
  - apply NoDup_fmap_2_strong; [|apply NoDup_filter, NoDup_worlds; done].
    intros m1 m2 [_ H1]%list_elem_of_filter [_ H2]%list_elem_of_filter Heq.
    apply Hworld in H1 as [N1 B1]. apply Hworld in H2 as [N2 B2].
    apply map_eq. intros k. destruct (decide (k ∈ V)) as [Hk|Hk].
    + assert ((to_mine <$> m1) !! k = (to_mine <$> m2) !! k) as E by (by rewrite Heq).
      rewrite !lookup_fmap in E.
      destruct (B1 k Hk) as [E1|E1], (B2 k Hk) as [E2|E2]; rewrite E1, E2 in *; done.
    + by rewrite N1, N2.
  - intros W. rewrite list_elem_of_fmap. split.
    + intros (m & -> & [Hv Hm]%list_elem_of_filter). split.
      * rewrite dom_fmap_L. apply Hworld in Hm as [N B].
        apply set_eq. intros k. rewrite elem_of_dom. split.
        -- intros [x Hx]. destruct (decide (k ∈ V)); [done|]. rewrite N in Hx; done.
        -- intros Hk. destruct (B k Hk) as [E|E]; rewrite E; eauto.
      * intros c Hc. rewrite <- Hcount by done. rewrite valid_spec in Hv. by apply Hv.
    + intros [Hdom Hsat]. exists (of_mine <$> W).
      assert (to_mine <$> (of_mine <$> W) = W) as Eback.
      { rewrite <- map_fmap_compose. rewrite <- (map_fmap_id W) at 2.
        apply map_fmap_ext. intros k x _. apply to_mine_of_mine. }
      split; [done|].
      assert (of_mine <$> W ∈ worlds vs ∅) as Hin.
      { apply Hworld. split.
        - intros k Hk. rewrite lookup_fmap.
          rewrite <- Hdom in Hk. apply not_elem_of_dom in Hk. by rewrite Hk.
        - intros v Hv. rewrite lookup_fmap. rewrite <- Hdom in Hv.
          apply elem_of_dom in Hv as [[] Hx]; rewrite Hx; simpl; auto. }
      apply list_elem_of_filter. split; [|done].
      apply valid_spec. intros c Hc. rewrite Hcount by done. rewrite Eback. by apply Hsat.
  - unfold enumerate. fold vs.
    destruct (backtrack_spec cs vs (mkTally ∅ 0 (list_to_map ((λ var, (var, 0)) <$> vs))))
      as (_ & T & _); [done|done|].
    rewrite T. simpl. by rewrite length_fmap.
  - intros v Hv. unfold enumerate. fold vs.
    destruct (backtrack_spec cs vs (mkTally ∅ 0 (list_to_map ((λ var, (var, 0)) <$> vs))))
      as (_ & _ & C); [done|done|].
    rewrite C. simpl. rewrite lookup_initial_counts.
    rewrite decide_True by (by apply elem_of_elements). simpl. f_equal.
    rewrite length_filter_fmap, list_filter_filter, Z.add_0_l. do 2 f_equal.
    apply list_filter_iff. intros m. rewrite lookup_fmap. unfold mine_in, to_mine.
    destruct (m !! v) as [x|]; simpl; [|split; [intros [_ ?]|intros [? _]]; done].
    split; [intros [? ?]; split; [congruence|done]|intros [[= ?] ?]; done].
Qed.

(** C3.  For a component [cs] with variable set V = all_variables cs,
    there is a duplicate-free list L of exactly the assignments
    V -> {safe, mine} that satisfy every constraint of the component;
    total_solutions is the length of L, and var_is_mine_count[v], for
    every v in V, is the number of members of L in which v is a mine. *)
Theorem C3_enumeration_counts_satisfying_assignments (cs : list Constraint) :
  ∃ L : list (gmap cell bool),
    NoDup L
    ∧ (∀ W, W ∈ L ↔ dom W = all_variables cs ∧ satisfies W cs)
    ∧ total_solutions (enumerate cs (elements (all_variables cs))) = Z.of_nat (length L)
    ∧ ∀ v, v ∈ all_variables cs →
        var_is_mine_count (enumerate cs (elements (all_variables cs))) !! v
        = Some (Z.of_nat (length (filter (λ W, W !! v = Some true) L))).
Proof. apply enumerate_spec. Qed.

(** ** Soundness of the certain probes *)

Lemma holds_on_spec b c :
  holds_on b c = true ↔
  (∀ v, v ∈ variables c → in_grid b v.1 v.2 = true)
  ∧ Z.of_nat (length (filter (λ v, is_mine b v = true) (elements (variables c)))) = value c.
Proof.
  unfold holds_on. rewrite andb_true_iff, forallb_forall, Z.eqb_eq.
  setoid_rewrite <- list_elem_of_In. setoid_rewrite elem_of_elements. done.
Qed.

Lemma all_hold_spec b cs :
  all_hold b cs = true ↔ ∀ c, c ∈ cs → holds_on b c = true.
Proof. unfold all_hold. rewrite forallb_forall. by setoid_rewrite <- list_elem_of_In. Qed.

Lemma holds_on_mines_among b c :
  holds_on b c = true ↔
  (∀ v, v ∈ variables c → in_grid b v.1 v.2 = true)
  ∧ Z.of_nat (mines_among b (elements (variables c))) = value c.
Proof. apply holds_on_spec. Qed.

Lemma mines_among_perm b l k : l ≡ₚ k → mines_among b l = mines_among b k.
Proof. intros H. unfold mines_among. by rewrite H. Qed.

Lemma mines_among_app b l k :
  mines_among b (l ++ k) = (mines_among b l + mines_among b k)%nat.
Proof. unfold mines_among. by rewrite filter_app, length_app. Qed.

Lemma mines_among_cons b v l :
  mines_among b (v :: l) = ((if is_mine b v then 1 else 0) + mines_among b l)%nat.
Proof.
  unfold mines_among. rewrite filter_cons. destruct (is_mine b v) eqn:E.
  - by rewrite decide_True.
  - by rewrite decide_False.
Qed.

Lemma mines_among_le b l : (mines_among b l ≤ length l)%nat.
Proof. apply length_filter. Qed.

Lemma mines_among_zero b l v :
  mines_among b l = 0%nat → v ∈ l → is_mine b v = false.
Proof.
  induction l as [|x l IH]; [by intros _ ?%elem_of_nil|].
  rewrite mines_among_cons. intros H [->|Hv]%elem_of_cons.
  - destruct (is_mine b x); [simpl in H; lia|done].
  - apply IH; [|done]. destruct (is_mine b x); simpl in H; lia.
Qed.

Lemma mines_among_all b l v :
  mines_among b l = length l → v ∈ l → is_mine b v = true.
Proof.
  induction l as [|x l IH]; [by intros _ ?%elem_of_nil|].
  rewrite mines_among_cons. simpl. pose proof (mines_among_le b l) as Hle.
  intros H [->|Hv]%elem_of_cons.
  - destruct (is_mine b x); [done|simpl in H; lia].
  - apply IH; [|done]. destruct (is_mine b x); simpl in H; lia.
Qed.

Lemma certain_in_probe b c v r :
  certain_in b c = Some (Probe, v, r) → value c = 0 ∧ v ∈ variables c.
Proof.
  unfold certain_in.
  destruct (if value c =? _ then _ else _); [done|].
  destruct (value c =? 0) eqn:E; [|done]. apply Z.eqb_eq in E.
  destruct (head _) as [v'|] eqn:Hh; [|done]. intros [= -> _].
  apply head_filter_Some in Hh as [_ Hin]. by apply elem_of_elements in Hin.
Qed.

Lemma find_certain_move_probe b cs v r :
  find_certain_move b cs = Some (Probe, v, r) →
  ∃ c, c ∈ cs ∧ value c = 0 ∧ v ∈ variables c.
Proof.
  induction cs as [|c cs IH]; simpl; [done|].
  destruct (certain_in b c) as [m|] eqn:E.
  - intros [= ->]. apply certain_in_probe in E. exists c. split; [by left|done].
  - intros H. destruct (IH H) as (c' & ? & ?). exists c'. split; [by right|done].
Qed.

Lemma certain_in_tally_probe t vars v r :
  certain_in_tally t vars = Some (Probe, v, r) →
  v ∈ vars ∧ default 0 (var_is_mine_count t !! v) = 0.
Proof.
  induction vars as [|x vars IH]; simpl; [done|].
  destruct (default 0 (var_is_mine_count t !! x) =? 0) eqn:E.
  - intros [= -> _]. apply Z.eqb_eq in E. split; [by left|done].
  - destruct (_ =? total_solutions t); [done|].
    intros H. destruct (IH H). split; [by right|done].
Qed.

Lemma lookup_list_to_map_fn {B} (f : cell → B) (vs : list cell) (v : cell) :
  (list_to_map ((λ var, (var, f var)) <$> vs) : gmap cell B) !! v
  = if decide (v ∈ vs) then Some (f v) else None.
Proof.
  induction vs as [|x vs IH].
  - rewrite decide_False by apply not_elem_of_nil. apply lookup_empty.
  - rewrite fmap_cons, list_to_map_cons. destruct (decide (x = v)) as [->|Hne].
    + rewrite lookup_insert_eq. by rewrite decide_True by left.
    + rewrite lookup_insert_ne by done. rewrite IH.
      destruct (decide (v ∈ vs)).
      * by rewrite decide_True by (by right).
      * rewrite decide_False; [done|]. intros [->|?]%elem_of_cons; done.
Qed.

Lemma lookup_true_world b V v :
  true_world b V !! v = if decide (v ∈ V) then Some (is_mine b v) else None.
Proof.
  unfold true_world. rewrite lookup_list_to_map_fn.
  destruct (decide (v ∈ elements V)) as [H|H]; rewrite elem_of_elements in H.
  - by rewrite decide_True.
  - by rewrite decide_False.
Qed.

Lemma filter_ext_in {A} (P Q : A → Prop) `{!∀ x, Decision (P x), !∀ x, Decision (Q x)}
    (l : list A) :
  (∀ x, x ∈ l → P x ↔ Q x) → filter P l = filter Q l.
Proof.
  induction l as [|x l IH]; intros Hl; [done|].
  rewrite !filter_cons, IH by (intros; apply Hl; by right).
  apply decide_ext, Hl. by left.
Qed.

(** The hidden layout is one of the worlds of every set of constraints
    that hold on the board. *)
Lemma true_world_satisfies b cs :
  all_hold b cs = true →
  dom (true_world b (all_variables cs)) = all_variables cs
  ∧ satisfies (true_world b (all_variables cs)) cs.
Proof.
  intros Hall. rewrite all_hold_spec in Hall. split.
  - apply set_eq. intros v. rewrite elem_of_dom, lookup_true_world.
    case_decide; split; try done; try (by eauto); by intros [? ?].
  - intros c Hc. specialize (Hall c Hc). apply holds_on_spec in Hall as [_ <-].
    unfold mines_in. do 2 f_equal. apply filter_ext_in.
    intros v Hv. rewrite lookup_true_world, decide_True.
    + split; [by intros [= ?]|by intros ->].
    + apply (variables_subseteq_all_variables cs c Hc). by apply elem_of_elements.
Qed.

Lemma solve_constraints_probe b cs v r :
  all_hold b cs = true → solve_constraints cs = Some (Probe, v, r) →
  v ∈ all_variables cs ∧ is_mine b v = false.
Proof.
  intros Hall. unfold solve_constraints.
  destruct (total_solutions _ =? 0); [done|].
  intros [Hv Hz]%certain_in_tally_probe. apply elem_of_elements in Hv.
  split; [done|].
  destruct (enumerate_spec cs) as (L & _ & HL & _ & Hcount).
  rewrite (Hcount v Hv) in Hz. simpl in Hz.
  destruct (true_world_satisfies b cs Hall) as [Hdom Hsat].
  assert (true_world b (all_variables cs) ∈ L) as Hin by (by apply HL).
  destruct (is_mine b v) eqn:Hm; [|done]. exfalso.
  assert (true_world b (all_variables cs) ∈ filter (λ W, W !! v = Some true) L) as Hin'.
  { apply list_elem_of_filter. split; [|done].
    by rewrite lookup_true_world, decide_True, Hm. }
  destruct (filter (λ W, W !! v = Some true) L); [by apply elem_of_nil in Hin'|done].
Qed.

(** Probing a cell that holds no mine succeeds and does not end the
    game. *)
Lemma probe_safe_cell b i j :
  well_shaped b = true → in_grid b i j = true → is_mine b (i, j) = false →
  ∃ b', probe b i j = Some (true, b') ∧ game_over b' = game_over b ∧ board b' = board b.
Proof.
  intros Hws Hg Hm. unfold probe.
  assert (∃ f, first_move_guard b i j = with_first_move b f) as [f E].
  { destruct (first_move_guard_cases b i j Hws Hg)
      as [[Hf E]|[(_ & _ & E)|[(_ & ? & _)|(_ & ? & _)]]]; try congruence.
    - exists false. rewrite E. destruct b; simpl in *. by subst.
    - by exists false. }
  rewrite E.
  destruct (probe_after_guard_safe (with_first_move b f) i j) as (vis2 & E' & _); [done..|].
  rewrite E'. eexists. split; [done|]. by destruct (np_sum vis2 =? _).
Qed.

Lemma elem_of_all_variables (cs : list Constraint) (v : cell) :
  v ∈ all_variables cs → ∃ c, c ∈ cs ∧ v ∈ variables c.
Proof.
  unfold all_variables.
  assert (∀ acc : gset cell,
            v ∈ foldl (λ all_vars c, all_vars ∪ variables c) acc cs →
            v ∈ acc ∨ ∃ c, c ∈ cs ∧ v ∈ variables c) as Hfold.
  { induction cs as [|c cs IH]; intros acc; simpl; [auto|].
    intros H. destruct (IH _ H) as [[?|?]%elem_of_union|(c' & ? & ?)].
    - by left.
    - right. exists c. split; [by left|done].
    - right. exists c'. split; [by right|done]. }
  intros Hv. destruct (Hfold ∅ Hv) as [Hin|?]; [|done]. by apply not_elem_of_empty in Hin.
Qed.

Lemma certain_in_mark b c v r :
  certain_in b c = Some (Mark, v, r) →
  value c = Z.of_nat (size (variables c)) ∧ v ∈ variables c.
Proof.
  unfold certain_in. destruct (value c =? Z.of_nat (size (variables c))) eqn:E.
  - apply Z.eqb_eq in E. destruct (head _) as [v'|] eqn:Hh.
    + intros [= -> _]. apply head_filter_Some in Hh as [_ Hin].
      split; [done|]. by apply elem_of_elements in Hin.
    + intros H. repeat case_match; simplify_eq.
  - intros H. repeat case_match; simplify_eq.
Qed.

Lemma find_certain_move_mark b cs v r :
  find_certain_move b cs = Some (Mark, v, r) →
  ∃ c, c ∈ cs ∧ value c = Z.of_nat (size (variables c)) ∧ v ∈ variables c.
Proof.
  induction cs as [|c cs IH]; simpl; [done|].
  destruct (certain_in b c) as [m|] eqn:E.
  - intros [= ->]. apply certain_in_mark in E. exists c. split; [by left|done].
  - intros H. destruct (IH H) as (c' & ? & ?). exists c'. split; [by right|done].
Qed.

Lemma certain_in_tally_mark t vars v r :
  certain_in_tally t vars = Some (Mark, v, r) →
  v ∈ vars ∧ default 0 (var_is_mine_count t !! v) = total_solutions t.
Proof.
  induction vars as [|x vars IH]; simpl; [done|].
  destruct (default 0 (var_is_mine_count t !! x) =? 0) eqn:E; [done|].
  destruct (_ =? total_solutions t) eqn:E'.
  - intros [= -> _]. apply Z.eqb_eq in E'. split; [by left|done].
  - intros H. destruct (IH H). split; [by right|done].
Qed.

Lemma filter_length_all {A} (P : A → Prop) `{!∀ x, Decision (P x)} (l : list A) x :
  length (filter P l) = length l → x ∈ l → P x.
Proof.
  induction l as [|y l IH]; [by intros _ ?%elem_of_nil|].
  rewrite filter_cons. pose proof (length_filter P l) as Hle.
  destruct (decide (P y)); simpl; intros Hlen [->|Hx]%elem_of_cons; try done;
    try lia. apply IH; [lia|done].
Qed.

Lemma solve_constraints_mark b cs v r :
  all_hold b cs = true → solve_constraints cs = Some (Mark, v, r) →
  v ∈ all_variables cs ∧ is_mine b v = true.
Proof.
  intros Hall. unfold solve_constraints.
  destruct (total_solutions _ =? 0) eqn:Ht; [done|]. apply Z.eqb_neq in Ht.
  intros [Hv Hz]%certain_in_tally_mark. apply elem_of_elements in Hv.
  split; [done|].
  destruct (enumerate_spec cs) as (L & _ & HL & Htot & Hcount).
  rewrite (Hcount v Hv), Htot in Hz. simpl in Hz.
  destruct (true_world_satisfies b cs Hall) as [Hdom Hsat].
  assert (true_world b (all_variables cs) ∈ L) as Hin by (by apply HL).
  assert (true_world b (all_variables cs) !! v = Some true) as Hw.
  { apply (filter_length_all (λ W : gmap cell bool, W !! v = Some true) L); [lia|done]. }
  rewrite lookup_true_world, decide_True in Hw by done. congruence.
Qed.

(** The certain moves are correct: on constraints that hold on the
    board, a probe from find_certain_move or solve_constraints targets a
    grid cell without a mine, and a mark a grid cell with a mine. *)
Lemma certain_move_correct b cs a v r :
  all_hold b cs = true →
  find_certain_move b cs = Some (a, v, r) ∨ solve_constraints cs = Some (a, v, r) →
  in_grid b v.1 v.2 = true
  ∧ is_mine b v = match a with Probe => false | Mark => true end.
Proof.
  intros Hall Hmove. pose proof Hall as Hall'. rewrite all_hold_spec in Hall'.
  assert (∀ c, c ∈ cs → v ∈ variables c → in_grid b v.1 v.2 = true) as Hgrid.
  { intros c Hc Hv. specialize (Hall' c Hc).
    apply holds_on_mines_among in Hall' as [Hg _]. by apply Hg. }
  destruct Hmove as [H|H]; destruct a.
  - apply find_certain_move_probe in H as (c & Hc & Hz & Hv).
    split; [by eapply Hgrid|].
    specialize (Hall' c Hc). apply holds_on_mines_among in Hall' as [_ Hcount].
    apply (mines_among_zero b (elements (variables c))); [lia|by apply elem_of_elements].
  - apply find_certain_move_mark in H as (c & Hc & Hz & Hv).
    split; [by eapply Hgrid|].
    specialize (Hall' c Hc). apply holds_on_mines_among in Hall' as [_ Hcount].
    apply (mines_among_all b (elements (variables c))); [|by apply elem_of_elements].
    unfold size, set_size in Hz. simpl in Hz. lia.
  - apply (solve_constraints_probe b) in H as [Hv Hm]; [|done]. split; [|done].
    apply elem_of_all_variables in Hv as (c & Hc & Hv). by eapply Hgrid.
  - apply (solve_constraints_mark b) in H as [Hv Hm]; [|done]. split; [|done].
    apply elem_of_all_variables in Hv as (c & Hc & Hv). by eapply Hgrid.
Qed.

(** C1.  Let every constraint of [cs] hold on the hidden board (its
    variables are grid cells, exactly [value] of them mines).  A probe
    returned by find_certain_move on [cs], or by solve_constraints on
    [cs], targets a cell that holds no mine; executing it returns True
    and leaves game_over as it was. *)
Theorem C1_certain_probes_are_safe (b : MinesweeperBoard) (cs : list Constraint)
    (v : cell) (r : Reason) :
  well_shaped b = true → all_hold b cs = true →
  find_certain_move b cs = Some (Probe, v, r) ∨ solve_constraints cs = Some (Probe, v, r) →
  is_mine b v = false
  ∧ ∃ b', probe b v.1 v.2 = Some (true, b') ∧ game_over b' = game_over b.
Proof.
  intros Hws Hall Hmove.
  destruct (certain_move_correct b cs Probe v r Hall Hmove) as [Hg Hm].
  split; [done|].
  destruct v as [i j]. destruct (probe_safe_cell b i j Hws Hg Hm) as (b' & ? & ? & _).
  by exists b'.
Qed.

Lemma C1_certain_probes_are_safe_witness :
  is_mine closed_board (1, 0) = false
  ∧ ∃ b', probe closed_board (1, 0).1 (1, 0).2 = Some (true, b')
          ∧ game_over b' = game_over closed_board.
Proof.
  apply (C1_certain_probes_are_safe closed_board (simplify_constraints closed_solver).2
           (1, 0) ClearInEverySolution);
    [reflexivity|reflexivity|right; reflexivity].
Defined.

(** ** Subset elimination *)

Lemma nonempty_constraints_spec cs :
  nonempty_constraints cs = true ↔ ∀ c, c ∈ cs → variables c ≠ ∅.
Proof.
  unfold nonempty_constraints. rewrite forallb_forall.
  setoid_rewrite <- list_elem_of_In. setoid_rewrite negb_true_iff.
  by setoid_rewrite bool_decide_eq_false.
Qed.

Lemma subset_measure_cons c cs :
  subset_measure (c :: cs) = (S (size (variables c)) + subset_measure cs)%nat.
Proof. unfold subset_measure. simpl. lia. Qed.

Lemma difference_size_lt (X Y : gset cell) :
  X ≠ ∅ → X ⊆ Y → (size (Y ∖ X) < size Y)%nat.
Proof.
  intros Hne Hsub. apply subset_size. split; [set_solver|].
  intros Hback. apply Hne. apply set_eq. intros x. split; [|set_solver].
  intros Hx. specialize (Hback x (Hsub x Hx)). set_solver.
Qed.

(** One run of the inner loop: nothing changes when the flag stays
    False; otherwise the list gets smaller. *)
Lemma subset_inner_spec i c1 : ∀ j todo,
  variables c1 ≠ ∅ →
  ((subset_inner i c1 j todo).2 = false → (subset_inner i c1 j todo).1 = todo)
  ∧ ((subset_inner i c1 j todo).2 = true →
     (subset_measure (subset_inner i c1 j todo).1 < subset_measure todo)%nat)
  ∧ (nonempty_constraints todo = true →
     nonempty_constraints (subset_inner i c1 j todo).1 = true).
Proof.
  intros j todo Hne. revert j.
  induction todo as [|c2 rest IH]; intros j; simpl; [done|].
  destruct (IH (S j)) as (I1 & I2 & I3).
  assert (subset_measure (subset_inner i c1 (S j) rest).1 ≤ subset_measure rest)%nat as Hle.
  { destruct (subset_inner i c1 (S j) rest).2 eqn:E; [by apply Nat.lt_le_incl, I2|].
    by rewrite I1. }
  destruct (negb (i =? j)%nat && bool_decide (variables c1 ⊆ variables c2)) eqn:Hhit.
  - apply andb_true_iff in Hhit as [_ Hsub]. apply bool_decide_eq_true in Hsub.
    case_bool_decide as Hempty; simpl.
    + split_and!; [done| |].
      * intros _. rewrite subset_measure_cons. lia.
      * intros [_ ?]%andb_true_iff. done.
    + split_and!; [done| |].
      * intros _. rewrite !subset_measure_cons. simpl.
        pose proof (difference_size_lt _ _ Hne Hsub). lia.
      * intros [_ ?]%andb_true_iff. rewrite I3 by done.
        rewrite andb_true_r, negb_true_iff. by apply bool_decide_eq_false.
  - simpl. split_and!.
    + intros E. by rewrite I1.
    + intros E. rewrite !subset_measure_cons. specialize (I2 E). lia.
    + intros [-> ?]%andb_true_iff. simpl. by apply I3.
Qed.

Lemma subset_outer_spec cs : ∀ i todo,
  (∀ c, c ∈ todo → variables c ≠ ∅) →
  ((subset_outer cs i todo).2 = false → (subset_outer cs i todo).1 = cs)
  ∧ ((subset_outer cs i todo).2 = true →
     (subset_measure (subset_outer cs i todo).1 < subset_measure cs)%nat)
  ∧ (nonempty_constraints cs = true →
     nonempty_constraints (subset_outer cs i todo).1 = true).
Proof.
  intros i todo. revert i. induction todo as [|c1 todo IH]; intros i Hne; simpl; [done|].
  destruct (subset_inner_spec i c1 0 cs) as (S1 & S2 & S3); [apply Hne; by left|].
  destruct (subset_inner i c1 0 cs).2 eqn:E.
  - split_and!; [by rewrite E|auto|done].
  - apply IH. intros c Hc. apply Hne. by right.
Qed.

Lemma subset_pass_spec cs :
  nonempty_constraints cs = true →
  ((subset_pass cs).2 = false → (subset_pass cs).1 = cs)
  ∧ ((subset_pass cs).2 = true → (subset_measure (subset_pass cs).1 < subset_measure cs)%nat)
  ∧ nonempty_constraints (subset_pass cs).1 = true.
Proof.
  intros Hne. destruct (subset_outer_spec cs 0 cs) as (? & ? & ?);
    [by apply nonempty_constraints_spec|]. auto.
Qed.

(** The loop ends within the fuel on constraints that all have a
    variable, at a list that a further pass leaves alone. *)
Lemma subset_loop_terminates fuel : ∀ cs,
  nonempty_constraints cs = true → (subset_measure cs ≤ fuel)%nat →
  ∃ cs', subset_loop fuel cs = Some cs'
    ∧ (subset_pass cs').2 = false ∧ nonempty_constraints cs' = true
    ∧ (subset_measure cs' ≤ subset_measure cs)%nat.
Proof.
  induction fuel as [|fuel IH]; intros cs Hne Hfuel;
    destruct (subset_pass_spec cs Hne) as (P1 & P2 & P3);
    destruct (subset_pass cs).2 eqn:E.
  - specialize (P2 eq_refl). lia.
  - exists cs. simpl. rewrite E. done.
  - specialize (P2 eq_refl).
    destruct (IH (subset_pass cs).1 P3) as (cs' & L & ? & ? & ?); [lia|].
    exists cs'. simpl. rewrite E. split_and!; [done..|lia].
  - exists cs. simpl. rewrite E. done.
Qed.

Lemma subset_loop_fixed fuel : ∀ cs cs',
  subset_loop fuel cs = Some cs' → (subset_pass cs').2 = false.
Proof.
  induction fuel as [|fuel IH]; intros cs cs'; simpl;
    destruct (subset_pass cs).2 eqn:E; try done; try (intros [= <-]; done).
  apply IH.
Qed.

Lemma subset_loop_of_fixed fuel cs :
  (subset_pass cs).2 = false → subset_loop fuel cs = Some cs.
Proof. intros E. destruct fuel; simpl; by rewrite E. Qed.

(** A pass that reports no change has met no pair in subset relation. *)
Lemma subset_inner_no_pair i c1 : ∀ j todo k c2,
  (subset_inner i c1 j todo).2 = false →
  todo !! k = Some c2 → i ≠ (j + k)%nat → ¬ variables c1 ⊆ variables c2.
Proof.
  intros j todo. revert j. induction todo as [|c rest IH]; intros j k c2; simpl; [done|].
  destruct (negb (i =? j)%nat && bool_decide (variables c1 ⊆ variables c)) eqn:Hhit.
  { by destruct (negb (bool_decide (variables c ∖ variables c1 = ∅))). }
  simpl. intros E Hk Hij. destruct k as [|k]; simpl in Hk.
  - simplify_eq. apply andb_false_iff in Hhit as [Hhit|Hhit].
    + apply negb_false_iff, Nat.eqb_eq in Hhit. lia.
    + by apply bool_decide_eq_false in Hhit.
  - apply (IH (S j) k c2 E Hk). lia.
Qed.

Lemma subset_outer_no_pair cs : ∀ i todo k c1 j c2,
  (subset_outer cs i todo).2 = false →
  todo !! k = Some c1 → cs !! j = Some c2 → (i + k)%nat ≠ j →
  ¬ variables c1 ⊆ variables c2.
Proof.
  intros i todo. revert i. induction todo as [|c todo IH]; intros i k c1 j c2; simpl; [done|].
  destruct (subset_inner i c 0 cs).2 eqn:E; [by rewrite E|].
  intros Hout Hk Hj Hne. destruct k as [|k]; simpl in Hk.
  - simplify_eq. apply (subset_inner_no_pair i c1 0 cs j c2 E Hj). simpl. lia.
  - apply (IH (S i) k c1 j c2 Hout Hk Hj). lia.
Qed.

Lemma subset_pass_no_pair cs i j A B :
  (subset_pass cs).2 = false → i ≠ j →
  cs !! i = Some A → cs !! j = Some B → ¬ variables A ⊆ variables B.
Proof.
  intros E Hne Hi Hj. by apply (subset_outer_no_pair cs 0 cs i A j B).
Qed.

Lemma subset_loop_unfold fuel cs :
  subset_loop (S fuel) cs
  = if (subset_pass cs).2 then subset_loop fuel (subset_pass cs).1 else Some cs.
Proof. done. Qed.

Lemma subset_pass_pair A B :
  variables A ⊆ variables B →
  subset_pass [A; B]
  = (if decide (variables B ∖ variables A = ∅) then [A]
     else [A; mkConstraint (variables B ∖ variables A) (value B - value A)], true).
Proof.
  intros Hsub. unfold subset_pass. simpl.
  rewrite (bool_decide_eq_true_2 (variables A ⊆ variables B)) by done. simpl.
  case_bool_decide; case_decide; done.
Qed.

Lemma subset_pass_pair_flipped A B :
  variables A ≠ ∅ → variables A ⊆ variables B →
  subset_pass [B; A]
  = (if decide (variables B ∖ variables A = ∅) then [B]
     else [mkConstraint (variables B ∖ variables A) (value B - value A); A], true).
Proof.
  intros Hne Hsub. unfold subset_pass. simpl.
  destruct (decide (variables B ∖ variables A = ∅)) as [E|E].
  - assert (variables B ⊆ variables A) as Hback.
    { intros x Hx. destruct (decide (x ∈ variables A)); [done|].
      assert (x ∈ variables B ∖ variables A) as Hd by set_solver.
      rewrite E in Hd. set_solver. }
    rewrite (bool_decide_eq_true_2 (variables B ⊆ variables A)) by done. simpl.
    rewrite bool_decide_eq_true_2; [done|]. set_solver.
  - assert (¬ variables B ⊆ variables A) as Hback.
    { intros Hback. apply E. set_solver. }
    rewrite (bool_decide_eq_false_2 (variables B ⊆ variables A)) by done. simpl.
    rewrite (bool_decide_eq_true_2 (variables A ⊆ variables B)) by done. simpl.
    rewrite bool_decide_eq_false_2 by done. done.
Qed.

Lemma subset_pass_unrelated X Y :
  ¬ variables X ⊆ variables Y → ¬ variables Y ⊆ variables X →
  subset_pass [X; Y] = ([X; Y], false).
Proof.
  intros H1 H2. unfold subset_pass. simpl.
  rewrite (bool_decide_eq_false_2 (variables X ⊆ variables Y)) by done. simpl.
  rewrite (bool_decide_eq_false_2 (variables Y ⊆ variables X)) by done. done.
Qed.

Lemma subset_pass_single X : subset_pass [X] = ([X], false).
Proof. done. Qed.

(** C6, as the code has it.  For constraints A, B with A's variables a
    non-empty subset of B's, subset simplification of the two (in either
    order) replaces B with (B.variables - A.variables, B.value - A.value),
    and when that remainder is empty discards the later of the two.  The
    new value is never examined: whatever it is, the call returns
    normally with the constraint kept (or dropped with the empty
    remainder).  On any list of constraints that each have a variable the
    loop ends, and no two distinct constraints of the result are in
    subset relation. *)
Theorem C6_subset_elimination_checks_no_value (A B : Constraint) :
  variables A ≠ ∅ → variables A ⊆ variables B →
  simplify_constraints_by_subset [A; B]
  = Some (if decide (variables B ∖ variables A = ∅) then [A]
          else [A; mkConstraint (variables B ∖ variables A) (value B - value A)])
  ∧ simplify_constraints_by_subset [B; A]
    = Some (if decide (variables B ∖ variables A = ∅) then [B]
            else [mkConstraint (variables B ∖ variables A) (value B - value A); A])
  ∧ ∀ cs, nonempty_constraints cs = true →
      ∃ cs', simplify_constraints_by_subset cs = Some cs'
        ∧ nonempty_constraints cs' = true
        ∧ ∀ i j X Y, i ≠ j → cs' !! i = Some X → cs' !! j = Some Y →
                     ¬ variables X ⊆ variables Y.
Proof.
  intros Hne Hsub.
  assert (∀ X Y, variables X = variables A → variables Y = variables B ∖ variables A →
                 variables B ∖ variables A ≠ ∅ →
                 ¬ variables X ⊆ variables Y ∧ ¬ variables Y ⊆ variables X) as Hdisj.
  { intros X Y -> -> Hrem. split; intros Hs.
    + apply Hne. apply set_eq. intros x. split; [|set_solver].
      intros Hx. specialize (Hs x Hx). set_solver.
    + apply Hrem. apply set_eq. intros x. split; [|set_solver].
      intros Hx. specialize (Hs x Hx). set_solver. }
  split_and!.
  - unfold simplify_constraints_by_subset.
    rewrite !subset_measure_cons, Nat.add_succ_l, subset_loop_unfold, subset_pass_pair by done.
    simpl. apply subset_loop_of_fixed. case_decide as E.
    + by rewrite subset_pass_single.
    + destruct (Hdisj A (mkConstraint (variables B ∖ variables A) (value B - value A))
                  eq_refl eq_refl E) as [H1 H2].
      by rewrite subset_pass_unrelated.
  - unfold simplify_constraints_by_subset.
    rewrite !subset_measure_cons, Nat.add_succ_l, subset_loop_unfold,
      subset_pass_pair_flipped by done.
    simpl. apply subset_loop_of_fixed. case_decide as E.
    + by rewrite subset_pass_single.
    + destruct (Hdisj A (mkConstraint (variables B ∖ variables A) (value B - value A))
                  eq_refl eq_refl E) as [H1 H2].
      by rewrite subset_pass_unrelated.
  - intros cs Hcs.
    destruct (subset_loop_terminates (subset_measure cs) cs Hcs) as (cs' & E & Hfix & Hne' & _);
      [done|].
    exists cs'. split_and!; [done|done|].
    intros i j X Y Hij Hi Hj. by apply (subset_pass_no_pair cs' i j).
Qed.

Lemma C6_subset_elimination_checks_no_value_witness :
  simplify_constraints_by_subset [one_mine_at_1; none_at_1_or_3]
  = Some (if decide (variables none_at_1_or_3 ∖ variables one_mine_at_1 = ∅)
          then [one_mine_at_1]
          else [one_mine_at_1;
                mkConstraint (variables none_at_1_or_3 ∖ variables one_mine_at_1)
                             (value none_at_1_or_3 - value one_mine_at_1)])
  ∧ simplify_constraints_by_subset [none_at_1_or_3; one_mine_at_1]
    = Some (if decide (variables none_at_1_or_3 ∖ variables one_mine_at_1 = ∅)
            then [none_at_1_or_3]
            else [mkConstraint (variables none_at_1_or_3 ∖ variables one_mine_at_1)
                               (value none_at_1_or_3 - value one_mine_at_1);
                  one_mine_at_1])
  ∧ ∀ cs, nonempty_constraints cs = true →
      ∃ cs', simplify_constraints_by_subset cs = Some cs'
        ∧ nonempty_constraints cs' = true
        ∧ ∀ i j X Y, i ≠ j → cs' !! i = Some X → cs' !! j = Some Y →
                     ¬ variables X ⊆ variables Y.
Proof.
  apply (C6_subset_elimination_checks_no_value one_mine_at_1 none_at_1_or_3);
    apply (bool_decide_unpack _); vm_compute; exact I.
Defined.

(** C6 as stated fails: no contradiction is signaled.  With {(0,1)} = 1
    and {(0,1),(0,3)} = 0 the call returns normally and keeps
    {(0,3)} = -1; with {(0,1)} = 1 and {(0,1)} = 0 it returns normally
    and drops the second constraint, whose remainder would have value
    -1. *)
Lemma C6_negative_value_is_kept :
  simplify_constraints_by_subset [one_mine_at_1; none_at_1_or_3]
  = Some [one_mine_at_1; mkConstraint {[ (0, 3) ]} (-1)]
  ∧ simplify_constraints_by_subset [one_mine_at_1; mkConstraint {[ (0, 1) ]} 0]
    = Some [one_mine_at_1].
Proof. split; reflexivity. Qed.

(** ** The pair simplify_constraints, simplify_constraints_by_subset *)

Lemma simplify_one_nonempty s c :
  nonempty_constraints s.2 = true → nonempty_constraints (simplify_one s c).2 = true.
Proof.
  intros Hne. unfold simplify_one.
  set (nv := foldl (classify s.1) ([], value c) (elements (variables c))).
  case_bool_decide as Hlen; [done|].
  destruct (nv.2 =? 0); [done|].
  destruct (nv.2 =? _); [done|]. simpl.
  unfold nonempty_constraints in *. rewrite forallb_app, Hne. simpl.
  rewrite andb_true_r, negb_true_iff. apply bool_decide_eq_false.
  destruct nv.1 as [|v l]; [done|]. simpl. set_solver.
Qed.

Lemma simplify_constraints_nonempty s :
  nonempty_constraints (simplify_constraints s).2 = true.
Proof.
  unfold simplify_constraints.
  assert (∀ cs st, nonempty_constraints st.2 = true →
                   nonempty_constraints (foldl simplify_one st cs).2 = true) as H.
  { induction cs as [|c cs IH]; intros st Hst; simpl; [done|].
    by apply IH, simplify_one_nonempty. }
  by apply H.
Qed.

(** The pair always returns. *)
Lemma simplify_pair_returns s :
  ∃ s', simplify_pair s = Some s'
    ∧ s'.1 = (simplify_constraints s).1
    ∧ simplify_constraints_by_subset (simplify_constraints s).2 = Some s'.2
    ∧ (subset_pass s'.2).2 = false.
Proof.
  unfold simplify_pair, simplify_constraints_by_subset.
  destruct (subset_loop_terminates (subset_measure (simplify_constraints s).2)
              (simplify_constraints s).2) as (cs' & E & Hfix & _);
    [apply simplify_constraints_nonempty|done|].
  rewrite E. simpl. eexists. split_and!; done.
Qed.

(** C5 fails on the code.  simplify_constraints is a single pass over
    the constraints (lines 183-219), although a mark or a reveal made for
    one constraint changes what an earlier one should become.  The game
    loop on [lone_mine_board] shows it.  The first turn probes the corner
    (0,0) (no constraint exists yet, so make_best_guess has no square to
    offer) and leaves [lone_mine_solver].  In the second turn the pass
    keeps {(4,0), (4,1)} = 1 as it stands and only then, for
    {(4,1)} = 1, marks (4,1): the pair of simplifications ends with a
    constraint that names a marked cell and is no fixed point, since a
    second run reveals (4,0) and drops the constraint.  next_move goes
    on with the stale constraint and returns a craps-shoot probe of
    (4,0) or of (4,1), the mine this very call has marked; with that
    draw the second turn of the game loop loses the game. *)
Theorem C5_single_pass_is_no_fixed_point :
  validate_custom 5 5 1 = None
  ∧ well_shaped lone_mine_board = true ∧ counts_ok lone_mine_board = true
  ∧ play_turn (λ _, None) [] 0 0 (lone_mine_board, []) = Some (true, lone_mine_solver)
  ∧ game_over lone_mine_solver.1 = false ∧ won lone_mine_solver.1 = false
  ∧ (λ c, (elements (variables c), value c)) <$> lone_mine_solver.2
    = [([(4, 0); (4, 1)], 1); ([(4, 0); (4, 1)], 1); ([(4, 1)], 1); ([(4, 1)], 1)]
  ∧ ∃ s1 s2,
      simplify_pair lone_mine_solver = Some s1
      ∧ simplify_pair s1 = Some s2
      ∧ s1.2 = [mkConstraint {[ (4, 0); (4, 1) ]} 1]
      ∧ is_marked s1.1 (4, 1) = true ∧ is_visible s1.1 (4, 0) = false
      ∧ s2.2 = [] ∧ is_visible s2.1 (4, 0) = true
      ∧ s2 ≠ s1
      ∧ ∀ guess,
          next_move guess 0 lone_mine_solver = Some (Some (Probe, (4, 0), CrapsShoot), s1)
          ∧ next_move guess 1 lone_mine_solver = Some (Some (Probe, (4, 1), CrapsShoot), s1)
          ∧ is_mine s1.1 (4, 1) = true
          ∧ ∃ s3, play_turn guess [] 1 0 lone_mine_solver = Some (true, s3)
              ∧ game_over s3.1 = true ∧ won s3.1 = false.
Proof.
  split; [reflexivity|]. split; [reflexivity|]. split; [reflexivity|].
  split; [vm_compute; reflexivity|]. split; [reflexivity|]. split; [reflexivity|].
  split; [vm_compute; reflexivity|].
  eexists _, _. split; [vm_compute; reflexivity|]. split; [vm_compute; reflexivity|].
  split; [vm_compute; reflexivity|]. split; [reflexivity|]. split; [reflexivity|].
  split; [reflexivity|]. split; [reflexivity|]. split; [vm_compute; discriminate|].
  intros guess. split; [vm_compute; reflexivity|]. split; [vm_compute; reflexivity|].
  split; [reflexivity|]. eexists. split; [vm_compute; reflexivity|]. split; reflexivity.
Qed.

(** ** next_move: the order of the craps-shoot test and the enumeration *)

(** Inside the loop over the components the craps-shoot test comes
    first: when it fires, the enumeration of that component is not run. *)
Lemma try_components_craps_first r b sub more m :
  check_craps_shoot r b sub = Some (Some m) →
  try_components r b (sub :: more) = Some (Some m).
Proof. intros E. simpl. by rewrite E. Qed.

(** C4 fails on the code.  [closed_board] is reached from a fresh board
    by probe(0,1), probe(0,2), mark_mine(0,0), mark_mine(0,3).  After
    update_constraints the solver holds one component,
    {(1,0),(1,1),(1,2)} = 1 and {(1,1),(1,2),(1,3)} = 2, which is closed.
    Its enumeration yields the certain move probe (1,0) (a mine in no
    world), yet next_move returns the random craps-shoot probe: for the
    random draw 3 it is (1,1), a mine, and executing it loses the game. *)
Theorem C4_craps_shoot_hides_certain_move :
  (∃ b1 b2, probe closed_start 0 1 = Some (true, b1)
            ∧ probe b1 0 2 = Some (true, b2)
            ∧ mark_mine (mark_mine b2 0 0) 0 3 = closed_board)
  ∧ counts_ok closed_start = true
  ∧ ∀ guess,
      (∃ s' comp,
         next_move guess 3 closed_solver = Some (Some (Probe, (1, 1), CrapsShoot), s')
         ∧ s'.2 = [mkConstraint {[ (1, 0); (1, 1); (1, 2) ]} 1;
                   mkConstraint {[ (1, 1); (1, 2); (1, 3) ]} 2]
         ∧ find_coupled_constraints s'.2 = Some [comp]
         ∧ solve_constraints comp = Some (Probe, (1, 0), ClearInEverySolution)
         ∧ is_mine s'.1 (1, 1) = true
         ∧ ∃ b', probe s'.1 1 1 = Some (false, b') ∧ game_over b' = true)
      ∧ ∀ r, (r < 4)%nat →
          ∃ v s', next_move guess r closed_solver = Some (Some (Probe, v, CrapsShoot), s').
Proof.
  split_and!.
  - eexists _, _. split_and!; reflexivity.
  - reflexivity.
  - intros guess. split.
    + eexists _, _. split; [reflexivity|]. split; [reflexivity|].
      split; [reflexivity|]. split; [reflexivity|]. split; [reflexivity|].
      eexists. split; reflexivity.
    + intros r Hr.
      destruct r as [|[|[|[|r]]]]; [..|lia]; eexists _, _; reflexivity.
Qed.

(** ** Constraints derived by the solver hold on the board *)

Lemma marks_ok_spec b :
  marks_ok b = true ↔
  ∀ i j, in_grid b i j = true → is_marked b (i, j) = true → is_mine b (i, j) = true.
Proof.
  unfold marks_ok. rewrite forallb_positions.
  split; intros H i j Hg.
  - intros Hm. specialize (H i j Hg). by rewrite Hm in H.
  - destruct (is_marked b (i, j)) eqn:Hm; [|done]. simpl. by apply H.
Qed.

Lemma sound_state_spec s :
  sound_state s = true ↔
  well_shaped s.1 = true ∧ counts_ok s.1 = true ∧ visible_safe s.1 = true
  ∧ marks_ok s.1 = true ∧ all_hold s.1 s.2 = true.
Proof. unfold sound_state. rewrite !andb_true_iff. tauto. Qed.

Lemma NoDup_neighbor_offsets : NoDup neighbor_offsets.
Proof. apply (bool_decide_unpack _). vm_compute. exact I. Qed.

Lemma NoDup_get_neighbors b i j : NoDup (get_neighbors b i j).
Proof.
  rewrite get_neighbors_eq. apply NoDup_fmap_2_strong.
  - intros [d1 d2] [e1 e2] _ _ [= ? ?]. f_equal; lia.
  - apply NoDup_filter, NoDup_neighbor_offsets.
Qed.

(** The constraint of a visible numbered cell holds: its mines are all
    among its neighbours that are not visible. *)
Lemma add_constraint_from_move_holds b cs i j :
  well_shaped b = true → counts_ok b = true → visible_safe b = true →
  in_grid b i j = true → all_hold b cs = true →
  all_hold b (add_constraint_from_move b cs (i, j)) = true.
Proof.
  intros Hws Hok Hvs Hg Hall. unfold add_constraint_from_move.
  destruct (is_visible b (i, j)) eqn:Hv; simpl; [|done].
  set (unknown := filter (λ n, is_visible b n = false) (get_neighbors b i j)).
  destruct (negb (bool_decide (unknown = [])) && (0 <? get2 0 (board b) i j)); [|done].
  unfold all_hold. rewrite forallb_app. fold (all_hold b cs). rewrite Hall. simpl.
  rewrite andb_true_r. apply holds_on_mines_among. simpl.
  rewrite visible_safe_spec in Hvs. rewrite counts_ok_spec in Hok.
  split.
  - intros v Hin. apply elem_of_list_to_set in Hin.
    apply list_elem_of_filter in Hin as [_ Hin]. by eapply get_neighbors_in_grid.
  - rewrite (mines_among_perm b _ unknown).
    2:{ apply elements_list_to_set, NoDup_filter, NoDup_get_neighbors. }
    rewrite Hok by auto. rewrite count_adjacent_mines_eq. f_equal.
    unfold mines_among, unknown. rewrite list_filter_filter. f_equal.
    apply filter_ext_in. intros [x y] Hin. split; [by intros [? _]|].
    intros Hm. split; [done|].
    destruct (is_visible b (x, y)) eqn:Hvx; [|done].
    rewrite (Hvs x y) in Hm; [done| |done]. by apply (get_neighbors_in_grid b i j (x, y)).
Qed.

Lemma update_constraints_sound s :
  sound_state s = true → sound_state (update_constraints s) = true.
Proof.
  rewrite !sound_state_spec. intros (Hws & Hok & Hvs & Hmk & Hall).
  unfold update_constraints. simpl. split_and!; try done.
  assert (∀ l cs, (∀ c, c ∈ l → in_grid s.1 c.1 c.2 = true) → all_hold s.1 cs = true →
            all_hold s.1 (foldl (λ cs c, if is_visible s.1 c
                                         then add_constraint_from_move s.1 cs c else cs) cs l)
            = true) as H.
  { induction l as [|[i j] l IH]; intros cs Hl Hcs; simpl; [done|].
    apply IH; [intros; apply Hl; by right|].
    destruct (is_visible s.1 (i, j)); [|done].
    apply add_constraint_from_move_holds; try done. apply (Hl (i, j)). by left. }
  apply H; [|done]. intros c. apply elem_of_positions_grid.
Qed.

Lemma holds_on_ext b b' c :
  width b' = width b → height b' = height b → board b' = board b →
  holds_on b' c = holds_on b c.
Proof.
  intros Hw Hh Hb. unfold holds_on, in_grid, is_mine. by rewrite Hw, Hh, Hb.
Qed.

Lemma all_hold_ext b b' cs :
  width b' = width b → height b' = height b → board b' = board b →
  all_hold b' cs = all_hold b cs.
Proof.
  intros Hw Hh Hb. unfold all_hold. induction cs as [|c cs IH]; [done|]. simpl.
  by rewrite IH, (holds_on_ext b b').
Qed.

Lemma counts_ok_ext b b' :
  width b' = width b → height b' = height b → board b' = board b →
  counts_ok b' = counts_ok b.
Proof.
  intros Hw Hh Hb. unfold counts_ok, is_mine, count_adjacent_mines, in_grid.
  by rewrite Hw, Hh, Hb.
Qed.

(** Writing True at the cells of a list. *)
Lemma foldl_set_true h w (l : list cell) : ∀ a : list (list bool),
  shape h w a = true → (∀ c, c ∈ l → 0 ≤ c.1 < h ∧ 0 ≤ c.2 < w) →
  shape h w (foldl (λ a v, set2 a v.1 v.2 true) a l) = true
  ∧ ∀ c, get2 false (foldl (λ a v, set2 a v.1 v.2 true) a l) c.1 c.2 = true
         ↔ c ∈ l ∨ get2 false a c.1 c.2 = true.
Proof.
  induction l as [|v l IH]; intros a Hs Hl; simpl.
  - split; [done|]. intros c. rewrite elem_of_nil. tauto.
  - destruct (IH (set2 a v.1 v.2 true)) as [I1 I2].
    { by rewrite shape_set2. }
    { intros c Hc. apply Hl. by right. }
    split; [done|]. intros c. rewrite I2, elem_of_cons.
    destruct (Hl v) as [? ?]; [by left|].
    erewrite get2_set2 by done. case_decide as E.
    + destruct v, c; simplify_eq/=. tauto.
    + split; [tauto|]. intros [[->|?]|?]; [|tauto..]. by destruct v.
Qed.

Lemma foldl_reveal_fields l : ∀ b,
  visible (foldl reveal b l) = foldl (λ a v, set2 a v.1 v.2 true) (visible b) l
  ∧ board (foldl reveal b l) = board b ∧ marked (foldl reveal b l) = marked b
  ∧ width (foldl reveal b l) = width b ∧ height (foldl reveal b l) = height b.
Proof.
  induction l as [|v l IH]; intros b; simpl; [done|].
  destruct (IH (reveal b v)) as (? & ? & ? & ? & ?). done.
Qed.

Lemma foldl_mark_fields l : ∀ b,
  marked (foldl (λ b v, mark_mine b v.1 v.2) b l)
  = foldl (λ a v, set2 a v.1 v.2 true) (marked b) l
  ∧ board (foldl (λ b v, mark_mine b v.1 v.2) b l) = board b
  ∧ visible (foldl (λ b v, mark_mine b v.1 v.2) b l) = visible b
  ∧ width (foldl (λ b v, mark_mine b v.1 v.2) b l) = width b
  ∧ height (foldl (λ b v, mark_mine b v.1 v.2) b l) = height b.
Proof.
  induction l as [|v l IH]; intros b; simpl; [done|].
  destruct (IH (mark_mine b v.1 v.2)) as (? & ? & ? & ? & ?). done.
Qed.

(** The classification loop of simplify_constraints. *)
Lemma classify_fold b (l : list cell) : ∀ acc x,
  foldl (classify b) (acc, x) l
  = (acc ++ filter (λ v, is_visible b v = false ∧ is_marked b v = false) l,
     x - Z.of_nat (length (filter (λ v, is_visible b v = false ∧ is_marked b v = true) l))).
Proof.
  induction l as [|v l IH]; intros acc x; simpl.
  - rewrite app_nil_r. f_equal. lia.
  - unfold classify at 2. rewrite !filter_cons.
    destruct (is_visible b v) eqn:Hv; lazy beta iota.
    + rewrite IH, !decide_False by (intros [? ?]; done). done.
    + destruct (is_marked b v) eqn:Hm; lazy beta iota; rewrite IH; cbn [fst snd].
      * rewrite decide_False by (intros [? ?]; done). rewrite decide_True by done.
        f_equal. rewrite length_cons. lia.
      * rewrite decide_True by done. rewrite decide_False by (intros [? ?]; done).
        by rewrite <- app_assoc.
Qed.

(** With safe visible cells and correct marks, the mines among grid
    cells are the marked ones plus those among the unknown ones. *)
Lemma mines_among_classified b (l : list cell) :
  visible_safe b = true → marks_ok b = true →
  (∀ v, v ∈ l → in_grid b v.1 v.2 = true) →
  mines_among b l
  = (length (filter (λ v, is_visible b v = false ∧ is_marked b v = true) l)
     + mines_among b (filter (λ v, is_visible b v = false ∧ is_marked b v = false) l))%nat.
Proof.
  intros Hvs Hmk. rewrite visible_safe_spec in Hvs. rewrite marks_ok_spec in Hmk.
  induction l as [|[x y] l IH]; intros Hl; [done|].
  rewrite mines_among_cons, !filter_cons, IH by (intros; apply Hl; by right).
  assert (in_grid b x y = true) as Hg by (apply (Hl (x, y)); by left).
  destruct (is_visible b (x, y)) eqn:Hv.
  - rewrite !decide_False by (intros [? ?]; done). by rewrite Hvs.
  - destruct (is_marked b (x, y)) eqn:Hm.
    + rewrite decide_True by done. rewrite decide_False by (intros [? ?]; done).
      rewrite Hmk by done. rewrite length_cons. lia.
    + rewrite decide_False by (intros [? ?]; done). rewrite decide_True by done.
      rewrite mines_among_cons. lia.
Qed.

(** One constraint handled by simplify_constraints: the hidden board is
    untouched, the cells revealed are safe, the cells marked are mines,
    and the constraint kept holds. *)
Lemma simplify_one_sound st c :
  well_shaped st.1 = true → visible_safe st.1 = true → marks_ok st.1 = true →
  holds_on st.1 c = true →
  width (simplify_one st c).1 = width st.1
  ∧ height (simplify_one st c).1 = height st.1
  ∧ board (simplify_one st c).1 = board st.1
  ∧ well_shaped (simplify_one st c).1 = true
  ∧ visible_safe (simplify_one st c).1 = true
  ∧ marks_ok (simplify_one st c).1 = true
  ∧ (all_hold st.1 st.2 = true → all_hold (simplify_one st c).1 (simplify_one st c).2 = true).
Proof.
  destruct st as [b acc]. simpl. intros Hws Hvs Hmk Hc.
  apply holds_on_mines_among in Hc as [Hgrid Hcount].
  assert (∀ v : cell, v ∈ elements (variables c) → in_grid b v.1 v.2 = true) as Hgrid'
    by (intros v Hv; apply Hgrid; by apply elem_of_elements).
  unfold simplify_one. cbn [fst snd]. rewrite classify_fold. cbn [fst snd app].
  set (unknown := filter (λ v, is_visible b v = false ∧ is_marked b v = false)
                         (elements (variables c))).
  set (nmarked := length (filter (λ v, is_visible b v = false ∧ is_marked b v = true)
                                 (elements (variables c)))).
  assert (value c - Z.of_nat nmarked = Z.of_nat (mines_among b unknown)) as Hval.
  { rewrite <- Hcount, (mines_among_classified b (elements (variables c)) Hvs Hmk Hgrid').
    fold nmarked unknown. lia. }
  rewrite Hval.
  assert (∀ v, v ∈ unknown → 0 ≤ v.1 < height b ∧ 0 ≤ v.2 < width b) as Hunk.
  { intros v [_ Hv]%list_elem_of_filter. apply in_grid_spec. auto. }
  pose proof Hws as Hws'. apply well_shaped_spec in Hws' as (Hsb & Hsv & Hsm).
  case_bool_decide as Hlen; [done|].
  destruct (Z.of_nat (mines_among b unknown) =? 0) eqn:Hz.
  { apply Z.eqb_eq in Hz.
    destruct (foldl_reveal_fields unknown b) as (Ev & Eb & Em & Ew & Eh).
    destruct (foldl_set_true (height b) (width b) unknown (visible b) Hsv Hunk) as [S1 S2].
    cbn [fst snd]. split_and!; [done..| | | |].
    - apply well_shaped_spec. by rewrite Ew, Eh, Eb, Ev, Em.
    - apply visible_safe_spec. intros i j Hg. unfold is_visible, is_mine.
      rewrite Ev, Eb. intros Hv. apply (S2 (i, j)) in Hv as [Hin|Hv].
      + apply (mines_among_zero b unknown (i, j)); [lia|done].
      + rewrite visible_safe_spec in Hvs. apply Hvs; [|done].
        unfold in_grid in *. by rewrite <- Ew, <- Eh.
    - rewrite <- Hmk. unfold marks_ok, is_marked, is_mine. by rewrite Ew, Eh, Eb, Em.
    - intros Hall. by rewrite (all_hold_ext b). }
  destruct (Z.of_nat (mines_among b unknown) =? Z.of_nat (length unknown)) eqn:Hall.
  { apply Z.eqb_eq in Hall.
    destruct (foldl_mark_fields unknown b) as (Em & Eb & Ev & Ew & Eh).
    destruct (foldl_set_true (height b) (width b) unknown (marked b) Hsm Hunk) as [S1 S2].
    cbn [fst snd]. split_and!; [done..| | | |].
    - apply well_shaped_spec. by rewrite Ew, Eh, Eb, Ev, Em.
    - rewrite <- Hvs. unfold visible_safe, is_visible, is_mine. by rewrite Ew, Eh, Eb, Ev.
    - apply marks_ok_spec. intros i j Hg. unfold is_marked, is_mine.
      rewrite Em, Eb. intros Hm. apply (S2 (i, j)) in Hm as [Hin|Hm].
      + apply (mines_among_all b unknown (i, j)); [lia|done].
      + rewrite marks_ok_spec in Hmk. apply Hmk; [|done].
        unfold in_grid in *. by rewrite <- Ew, <- Eh.
    - intros Hacc. by rewrite (all_hold_ext b). }
  cbn [fst snd]. split_and!; [done..|].
  intros Hacc. unfold all_hold. rewrite forallb_app. fold (all_hold b acc). rewrite Hacc.
  simpl. rewrite andb_true_r. apply holds_on_mines_among. simpl. split.
  - intros v Hv. apply elem_of_list_to_set in Hv. apply in_grid_spec. auto.
  - f_equal. apply mines_among_perm, elements_list_to_set, NoDup_filter, NoDup_elements.
Qed.

Lemma simplify_constraints_sound s :
  sound_state s = true →
  sound_state (simplify_constraints s) = true
  ∧ board (simplify_constraints s).1 = board s.1
  ∧ width (simplify_constraints s).1 = width s.1
  ∧ height (simplify_constraints s).1 = height s.1.
Proof.
  rewrite !sound_state_spec. intros (Hws & Hok & Hvs & Hmk & Hall).
  unfold simplify_constraints.
  assert (∀ cs st,
            well_shaped st.1 = true → visible_safe st.1 = true → marks_ok st.1 = true →
            all_hold st.1 st.2 = true → all_hold st.1 cs = true →
            well_shaped (foldl simplify_one st cs).1 = true
            ∧ visible_safe (foldl simplify_one st cs).1 = true
            ∧ marks_ok (foldl simplify_one st cs).1 = true
            ∧ all_hold (foldl simplify_one st cs).1 (foldl simplify_one st cs).2 = true
            ∧ board (foldl simplify_one st cs).1 = board st.1
            ∧ width (foldl simplify_one st cs).1 = width st.1
            ∧ height (foldl simplify_one st cs).1 = height st.1) as H.
  { induction cs as [|c cs IH]; intros st H1 H2 H3 H4 H5; simpl; [done|].
    simpl in H5. apply andb_true_iff in H5 as [Hc Hcs].
    destruct (simplify_one_sound st c H1 H2 H3 Hc) as (Ew & Eh & Eb & S1 & S2 & S3 & S4).
    destruct (IH (simplify_one st c)) as (I1 & I2 & I3 & I4 & I5 & I6 & I7); try done; [auto| |].
    - by rewrite (all_hold_ext st.1).
    - split_and!; try done; congruence. }
  destruct (H s.2 (s.1, [])) as (I1 & I2 & I3 & I4 & I5 & I6 & I7); try done.
  simpl in *. split_and!; try done. by rewrite (counts_ok_ext s.1).
Qed.

(** The difference of two constraints that hold, one inside the other,
    holds. *)
Lemma difference_holds b c1 c2 :
  holds_on b c1 = true → holds_on b c2 = true → variables c1 ⊆ variables c2 →
  holds_on b (mkConstraint (variables c2 ∖ variables c1) (value c2 - value c1)) = true.
Proof.
  rewrite !holds_on_mines_among. intros [G1 M1] [G2 M2] Hsub. simpl. split.
  - intros v Hv. apply G2. set_solver.
  - assert (elements (variables c2)
            ≡ₚ elements (variables c1) ++ elements (variables c2 ∖ variables c1)) as HP.
    { rewrite (union_difference_L _ _ Hsub) at 1. apply elements_disj_union. set_solver. }
    rewrite (mines_among_perm b _ _ HP), mines_among_app in M2. lia.
Qed.

Lemma subset_inner_holds b i c1 : ∀ j todo,
  holds_on b c1 = true → all_hold b todo = true →
  all_hold b (subset_inner i c1 j todo).1 = true.
Proof.
  intros j todo Hc1. revert j. induction todo as [|c2 rest IH]; intros j; simpl; [done|].
  intros [Hc2 Hrest]%andb_true_iff.
  destruct (negb (i =? j)%nat && bool_decide (variables c1 ⊆ variables c2)) eqn:Hhit.
  - apply andb_true_iff in Hhit as [_ Hsub%bool_decide_eq_true].
    case_bool_decide; simpl; [done|].
    rewrite IH by done. rewrite andb_true_r. by apply difference_holds.
  - simpl. by rewrite Hc2, IH.
Qed.

Lemma subset_outer_holds b cs : ∀ i todo,
  all_hold b cs = true → all_hold b todo = true →
  all_hold b (subset_outer cs i todo).1 = true.
Proof.
  intros i todo. revert i. induction todo as [|c1 todo IH]; intros i Hcs; simpl; [done|].
  intros [Hc1 Htodo]%andb_true_iff.
  destruct (subset_inner i c1 0 cs).2 eqn:E.
  - by apply subset_inner_holds.
  - by apply IH.
Qed.

Lemma subset_loop_holds b fuel : ∀ cs cs',
  all_hold b cs = true → subset_loop fuel cs = Some cs' → all_hold b cs' = true.
Proof.
  induction fuel as [|fuel IH]; intros cs cs' Hcs; simpl;
    destruct (subset_pass cs).2 eqn:E; try done; try (by intros [= <-]).
  apply IH. by apply subset_outer_holds.
Qed.

(** ** The components are made of constraints of the list *)

Lemma coupled_from_members cs : ∀ indices visited coupled_sets comps,
  (∀ comp c, comp ∈ coupled_sets → c ∈ comp → c ∈ cs) →
  coupled_from cs visited coupled_sets indices = Some comps →
  ∀ comp c, comp ∈ comps → c ∈ comp → c ∈ cs.
Proof.
  induction indices as [|i indices IH]; intros visited coupled_sets comps Hsets; simpl.
  - by intros [= <-].
  - case_bool_decide; [|by apply IH].
    destruct (component_bfs _ _ _ _ _) as [r|]; simpl; [|done].
    apply IH. intros comp c [Hin|Hin]%elem_of_app; [by eapply Hsets|].
    apply list_elem_of_singleton in Hin as ->.
    intros (idx & _ & Hidx)%list_elem_of_omap. by eapply list_elem_of_lookup_2.
Qed.

Lemma find_coupled_constraints_members cs comps comp c :
  find_coupled_constraints cs = Some comps → comp ∈ comps → c ∈ comp → c ∈ cs.
Proof.
  intros H. eapply coupled_from_members; [|done].
  intros ? ? Hin. by apply elem_of_nil in Hin.
Qed.

(** ** Soundness along next_move *)

Lemma check_craps_shoot_reason r b sub a v reason :
  check_craps_shoot r b sub = Some (Some (a, v, reason)) → reason = CrapsShoot.
Proof.
  unfold check_craps_shoot. destruct (existsb _ _); [done|].
  destruct (_ !! _); simpl; [|done]. by intros [= _ _ <-].
Qed.

Lemma try_components_certain r b comps a v reason :
  try_components r b comps = Some (Some (a, v, reason)) → reason ≠ CrapsShoot →
  ∃ comp, comp ∈ comps ∧ solve_constraints comp = Some (a, v, reason).
Proof.
  induction comps as [|comp comps IH]; simpl; [done|].
  destruct (check_craps_shoot r b comp) as [[[[a' v'] reason']|]|] eqn:E; simpl; [| |done].
  - intros [= -> -> ->] Hne. by apply check_craps_shoot_reason in E.
  - destruct (solve_constraints comp) as [m|] eqn:Es.
    + intros [= ->] _. exists comp. split; [by left|done].
    + intros H Hne. destruct (IH H Hne) as (comp' & ? & ?).
      exists comp'. split; [by right|done].
Qed.

(** On a sound solver state, next_move leaves a sound state, does not
    touch the hidden board, and every move it justifies by a constraint
    or by the enumeration is correct: such a probe targets a cell
    without a mine, such a mark a cell with a mine. *)
Lemma next_move_certain_correct guess r s a v reason s' :
  (∀ s0 a0 v0 reason0, guess s0 = Some (a0, v0, reason0) →
                       reason0 = BestGuess ∨ reason0 = Unconstrained) →
  sound_state s = true →
  next_move guess r s = Some (Some (a, v, reason), s') →
  sound_state s' = true
  ∧ board s'.1 = board s.1
  ∧ (reason = MustBeMine_AllVariables ∨ reason = MustBeClear_AllVariables
     ∨ reason = ClearInEverySolution ∨ reason = MineInEverySolution →
     in_grid s'.1 v.1 v.2 = true
     ∧ is_mine s'.1 v = match a with Probe => false | Mark => true end).
Proof.
  intros Hguess Hs. unfold next_move.
  destruct (simplify_constraints_sound s Hs) as (Hs1 & Eb & Ew & Eh).
  set (s1 := simplify_constraints s) in *.
  destruct (simplify_constraints_by_subset s1.2) as [cs2|] eqn:Esub; simpl; [|done].
  apply sound_state_spec in Hs1 as (Hws & Hok & Hvs & Hmk & Hall).
  assert (all_hold s1.1 cs2 = true) as Hall2 by (by eapply subset_loop_holds).
  assert (sound_state (s1.1, cs2) = true) as Hs2 by (by apply sound_state_spec).
  destruct (find_certain_move s1.1 cs2) as [m|] eqn:Ef.
  { intros [= -> <-]. split_and!; [done|done|]. intros _.
    apply (certain_move_correct s1.1 cs2 a v reason Hall2). by left. }
  destruct (find_coupled_constraints cs2) as [comps|] eqn:Ec; simpl; [|done].
  destruct (try_components r s1.1 comps) as [[m|]|] eqn:Et; simpl; [| |done].
  - intros [= -> <-]. split_and!; [done|done|]. intros Hreason.
    apply try_components_certain in Et as (comp & Hcomp & Esolve);
      [|by destruct Hreason as [->|[->|[->| ->]]]].
    assert (all_hold s1.1 comp = true) as Hallc.
    { apply all_hold_spec. intros c Hc. rewrite all_hold_spec in Hall2. apply Hall2.
      by eapply find_coupled_constraints_members. }
    destruct (certain_move_correct s1.1 comp a v reason Hallc) as [Hg Hm]; [by right|].
    done.
  - intros [= Eg <-]. split_and!; [done|done|]. intros Hreason.
    apply Hguess in Eg as [->| ->]; by destruct Hreason as [?|[?|[?|?]]].
Qed.

(** Carrying out a correct probe, then update_constraints, keeps the
    state sound. *)
Lemma execute_probe_sound s i j :
  sound_state s = true → first_move s.1 = false →
  in_grid s.1 i j = true → is_mine s.1 (i, j) = false →
  ∃ b', probe s.1 i j = Some (true, b')
    ∧ game_over b' = game_over s.1 ∧ first_move b' = false
    ∧ sound_state (update_constraints (b', s.2)) = true.
Proof.
  intros Hs Hf Hg Hm.
  apply sound_state_spec in Hs as (Hws & Hok & Hvs & Hmk & Hall).
  unfold probe, first_move_guard. rewrite Hf.
  destruct (probe_after_guard_safe s.1 i j Hws Hg Hm) as (vis2 & E & Hs2 & _ & _ & Hsafe).
  rewrite E. eexists. split; [done|].
  set (b2 := with_visible s.1 vis2).
  assert (sound_state (b2, s.2) = true) as Hsound2.
  { apply sound_state_spec. simpl. split_and!; [|done| |done|done].
    - apply well_shaped_spec in Hws as (? & ? & ?). by apply well_shaped_spec.
    - apply visible_safe_spec. intros x y Hxy Hv. by apply (Hsafe Hok Hvs (x, y)). }
  destruct (np_sum vis2 =? _).
  - split_and!; [done|done|]. apply (update_constraints_sound (with_won b2 true, s.2)).
    by rewrite <- Hsound2.
  - split_and!; [done|done|]. by apply (update_constraints_sound (b2, s.2)).
Qed.

(** Carrying out a correct mark keeps the state sound. *)
Lemma execute_mark_sound s i j :
  sound_state s = true → in_grid s.1 i j = true → is_mine s.1 (i, j) = true →
  sound_state (mark_mine s.1 i j, s.2) = true.
Proof.
  intros Hs Hg Hm.
  apply sound_state_spec in Hs as (Hws & Hok & Hvs & Hmk & Hall).
  apply sound_state_spec. simpl.
  pose proof Hws as Hws'. apply well_shaped_spec in Hws' as (Hsb & Hsv & Hsm).
  pose proof Hg as Hg'. apply in_grid_spec in Hg' as [Hi Hj].
  split_and!; [|done|done| |done].
  - apply well_shaped_spec. simpl. by rewrite shape_set2.
  - apply marks_ok_spec. intros x y Hxy. unfold is_marked. simpl.
    erewrite get2_set2 by done. case_decide as E; [by simplify_eq|].
    rewrite marks_ok_spec in Hmk. by apply Hmk.
Qed.

(** ** find_coupled_constraints and next_move return *)

Lemma constraint_graph_lt cs i j :
  j ∈ constraint_graph cs i → (j < length cs)%nat.
Proof.
  unfold constraint_graph. destruct (cs !! i) as [c1|]; [|by intros ?%elem_of_nil].
  intros ([k c] & Hin & Hf)%list_elem_of_omap.
  apply elem_of_lookup_imap_1 in Hin as (k' & c' & [= -> ->] & Hk).
  simpl in Hf. destruct (_ && _); simplify_eq. by eapply lookup_lt_Some.
Qed.

Lemma bounded_set_size (n : nat) (X : gset nat) :
  (∀ x, x ∈ X → (x < n)%nat) → (size X ≤ n)%nat.
Proof.
  intros HX. etrans; [|apply Nat.eq_le_incl, (length_seq n 0)].
  rewrite <- (size_list_to_set (C:=gset nat) (seq 0 n)) by apply NoDup_seq.
  apply subseteq_size. intros x Hx. apply elem_of_list_to_set, elem_of_seq.
  specialize (HX x Hx). lia.
Qed.

Lemma visit_fold_spec (n : nat) (nbs : list nat) : ∀ st,
  (∀ j, j ∈ nbs → (j < n)%nat) → (∀ x, x ∈ st.1 → (x < n)%nat) →
  (∀ x, x ∈ (foldl visit st nbs).1 → (x < n)%nat)
  ∧ (size (foldl visit st nbs).1 + length st.2
     = size st.1 + length (foldl visit st nbs).2)%nat
  ∧ (∀ q, q ∈ st.2 → q ∈ (foldl visit st nbs).2).
Proof.
  induction nbs as [|nb nbs IH]; intros st Hnbs Hst; simpl; [done|].
  assert (∀ x, x ∈ (visit st nb).1 → (x < n)%nat) as Hst'.
  { unfold visit. case_bool_decide; [|done]. simpl.
    intros x [->%elem_of_singleton|?]%elem_of_union; [apply Hnbs; by left|auto]. }
  destruct (IH (visit st nb)) as (I1 & I2 & I3); [intros; apply Hnbs; by right|done|].
  split_and!; [done| |].
  - revert I2. generalize (foldl visit (visit st nb) nbs). intros st'.
    unfold visit. case_bool_decide as Hnew; [|done]. simpl.
    rewrite size_union, size_singleton, length_app by set_solver. simpl. lia.
  - intros q Hq. apply I3. unfold visit. case_bool_decide; [|done]. simpl.
    apply elem_of_app. by left.
Qed.

Lemma component_bfs_terminates cs fuel : ∀ visited queue component,
  (∀ x, x ∈ visited → (x < length cs)%nat) →
  (∀ q, q ∈ queue → (q < length cs)%nat) →
  (length queue + (length cs - size visited) ≤ fuel)%nat →
  ∃ r, component_bfs fuel cs visited queue component = Some r
    ∧ (∀ x, x ∈ r.1 → (x < length cs)%nat)
    ∧ (∀ q, q ∈ component ++ queue → q ∈ r.2).
Proof.
  induction fuel as [|fuel IH]; intros visited queue component Hv Hq Hfuel.
  - destruct queue; [|simpl in Hfuel; lia]. eexists. simpl. split; [done|].
    rewrite app_nil_r. done.
  - destruct queue as [|node rest].
    { eexists. simpl. split; [done|]. rewrite app_nil_r. done. }
    simpl.
    destruct (visit_fold_spec (length cs) (constraint_graph cs node) (visited, rest))
      as (S1 & S2 & S3); [apply constraint_graph_lt|done|].
    simpl in *.
    pose proof (bounded_set_size _ _ S1) as Hb1.
    pose proof (bounded_set_size _ _ Hv) as Hb0.
    destruct (IH (foldl visit (visited, rest) (constraint_graph cs node)).1
                 (foldl visit (visited, rest) (constraint_graph cs node)).2
                 (component ++ [node])) as (r & E & R1 & R2).
    + done.
    + intros q Hq'.
      assert (∀ nbs st, (∀ j, j ∈ nbs → (j < length cs)%nat) →
                (∀ q, q ∈ st.2 → (q < length cs)%nat) →
                ∀ q, q ∈ (foldl visit st nbs).2 → (q < length cs)%nat) as Hbound.
      { clear. induction nbs as [|nb nbs IH]; intros st Hnbs Hst; simpl; [done|].
        apply IH; [intros; apply Hnbs; by right|].
        unfold visit. case_bool_decide; [|done]. simpl.
        intros q [? | ->%list_elem_of_singleton]%elem_of_app; [auto|apply Hnbs; by left]. }
      apply (Hbound (constraint_graph cs node) (visited, rest)); [apply constraint_graph_lt| |done].
      intros q' Hq''. apply Hq. by right.
    + lia.
    + exists r. split_and!; [done|done|].
      intros q [Hin|[->|Hin]%elem_of_cons]%elem_of_app; apply R2.
      * apply elem_of_app. left. apply elem_of_app. by left.
      * apply elem_of_app. left. apply elem_of_app. right. by left.
      * apply elem_of_app. right. by apply S3.
Qed.

(** Every component found has a constraint, and the search returns. *)
Lemma coupled_from_returns cs : ∀ indices visited coupled_sets,
  (∀ x, x ∈ visited → (x < length cs)%nat) →
  (∀ i, i ∈ indices → (i < length cs)%nat) →
  (∀ comp, comp ∈ coupled_sets → comp ≠ []) →
  ∃ comps, coupled_from cs visited coupled_sets indices = Some comps
    ∧ ∀ comp, comp ∈ comps → comp ≠ [].
Proof.
  induction indices as [|i indices IH]; intros visited coupled_sets Hv Hi Hsets; simpl.
  - eexists. split; done.
  - case_bool_decide as Hnew; [|apply IH; auto; intros; apply Hi; by right].
    assert (i < length cs)%nat as Hlt by (apply Hi; by left).
    destruct (component_bfs_terminates cs (length cs) ({[i]} ∪ visited) [i] [])
      as (r & E & R1 & R2).
    + intros x [->%elem_of_singleton|?]%elem_of_union; auto.
    + intros q ->%list_elem_of_singleton. done.
    + rewrite size_union, size_singleton by set_solver. simpl.
      pose proof (bounded_set_size (length cs) ({[i]} ∪ visited)) as Hb.
      rewrite size_union, size_singleton in Hb by set_solver.
      assert (1 + size visited ≤ length cs)%nat; [|lia].
      apply Hb. intros x [->%elem_of_singleton|?]%elem_of_union; auto.
    + rewrite E. simpl. apply IH; [done|intros; apply Hi; by right|].
      intros comp [? | ->%list_elem_of_singleton]%elem_of_app; [auto|].
      destruct (lookup_lt_is_Some_2 cs i Hlt) as [c Hc].
      assert (c ∈ omap (λ idx, cs !! idx) r.2) as Hin.
      { apply list_elem_of_omap. exists i. split; [|done]. apply R2. simpl. by left. }
      intros Hnil. rewrite Hnil in Hin. by apply elem_of_nil in Hin.
Qed.

Lemma find_coupled_constraints_returns cs :
  ∃ comps, find_coupled_constraints cs = Some comps
    ∧ ∀ comp, comp ∈ comps → comp ≠ [].
Proof.
  apply coupled_from_returns.
  - intros x Hx. by apply not_elem_of_empty in Hx.
  - intros i Hi%elem_of_seq. lia.
  - intros comp Hc. by apply elem_of_nil in Hc.
Qed.

Lemma all_variables_nonempty comp :
  comp ≠ [] → nonempty_constraints comp = true → all_variables comp ≠ ∅.
Proof.
  destruct comp as [|c comp]; [done|]. intros _ Hne.
  rewrite nonempty_constraints_spec in Hne.
  assert (variables c ≠ ∅) as Hc by (apply Hne; by left).
  pose proof (variables_subseteq_all_variables (c :: comp) c) as Hsub.
  intros Hempty. apply Hc. apply set_eq. intros x. split; [|by intros ?%not_elem_of_empty].
  intros Hx. rewrite <- Hempty. apply Hsub; [by left|done].
Qed.

Lemma check_craps_shoot_returns r b comp :
  comp ≠ [] → nonempty_constraints comp = true →
  ∃ res, check_craps_shoot r b comp = Some res.
Proof.
  intros H1 H2. unfold check_craps_shoot. destruct (existsb _ _); [eauto|].
  pose proof (all_variables_nonempty comp H1 H2) as Hne.
  destruct (elements (all_variables comp)) as [|x l] eqn:E.
  { exfalso. apply Hne. by apply leibniz_equiv, elements_empty_inv. }
  destruct (lookup_lt_is_Some_2 (x :: l) (r `mod` length (x :: l))) as [v Hv].
  { apply Nat.mod_upper_bound. done. }
  rewrite Hv. simpl. eauto.
Qed.

Lemma try_components_returns r b comps :
  (∀ comp, comp ∈ comps → comp ≠ [] ∧ nonempty_constraints comp = true) →
  ∃ res, try_components r b comps = Some res.
Proof.
  induction comps as [|comp comps IH]; intros Hc; simpl; [eauto|].
  destruct (Hc comp) as [H1 H2]; [by left|].
  destruct (check_craps_shoot_returns r b comp H1 H2) as [[m|] ->]; simpl; [eauto|].
  destruct (solve_constraints comp); [eauto|].
  apply IH. intros comp' Hin. apply Hc. by right.
Qed.

(** next_move always returns (a move, or Python's None from its last
    step). *)
Lemma next_move_returns guess r s :
  ∃ res, next_move guess r s = Some res.
Proof.
  unfold next_move.
  destruct (simplify_pair_returns s) as (s' & _ & _ & Esub & _).
  rewrite Esub. simpl.
  destruct (find_certain_move _ _); [eauto|].
  destruct (find_coupled_constraints_returns s'.2) as (comps & Ec & Hne). rewrite Ec. simpl.
  destruct (try_components_returns r (simplify_constraints s).1 comps) as [[m|] ->]; simpl; eauto.
  intros comp Hcomp. split; [by apply Hne|].
  apply nonempty_constraints_spec. intros c Hc.
  assert (nonempty_constraints s'.2 = true) as Hall.
  { destruct (subset_loop_terminates (subset_measure (simplify_constraints s).2)
                (simplify_constraints s).2) as (cs' & E & _ & ? & _);
      [apply simplify_constraints_nonempty|done|].
    unfold simplify_constraints_by_subset in Esub. congruence. }
  rewrite nonempty_constraints_spec in Hall. apply Hall.
  by eapply find_coupled_constraints_members.
Qed.

(** * Further properties of the code *)

(** ** Neighbourhoods *)

Lemma length_get_neighbors b i j : (length (get_neighbors b i j) ≤ 8)%nat.
Proof.
  rewrite get_neighbors_eq, length_fmap.
  etrans; [apply length_filter|]. done.
Qed.

(** X1.  get_neighbors(i, j) lists the cells of the grid next to (i, j):
    a cell is in the list exactly when it lies in the grid and the larger
    of its row and column distance to (i, j) is 1.  No cell is listed
    twice, there are at most eight, and being a neighbour is symmetric:
    a cell of the grid is among the neighbours of each of its
    neighbours. *)
Theorem get_neighbors_adjacent_cells (b : MinesweeperBoard) (i j : Z) :
  NoDup (get_neighbors b i j)
  ∧ (length (get_neighbors b i j) ≤ 8)%nat
  ∧ (∀ c, c ∈ get_neighbors b i j ↔
          in_grid b c.1 c.2 = true ∧ Z.max (Z.abs (c.1 - i)) (Z.abs (c.2 - j)) = 1)
  ∧ (∀ c, in_grid b i j = true → c ∈ get_neighbors b i j →
          (i, j) ∈ get_neighbors b c.1 c.2).
Proof.
  split_and!.
  - apply NoDup_get_neighbors.
  - apply length_get_neighbors.
  - intros [ci cj]. rewrite elem_of_get_neighbors. simpl. split.
    + intros (Hg & Hi & Hj & Hne). split; [done|].
      assert (ci ≠ i ∨ cj ≠ j) by (destruct (decide (ci = i)); [right; congruence|by left]).
      lia.
    + intros [Hg Hd]. split; [done|]. split; [lia|]. split; [lia|].
      intros [= -> ->]. lia.
  - intros c. apply get_neighbors_sym.
Qed.

(** X2.  count_adjacent_mines(i, j), which walks the eight offsets with
    its own range test, returns the number of mines among the cells of
    get_neighbors(i, j); the result lies between 0 and 8. *)
Theorem count_adjacent_mines_counts_neighbors (b : MinesweeperBoard) (i j : Z) :
  count_adjacent_mines b i j
  = Z.of_nat (length (filter (λ c, is_mine b c = true) (get_neighbors b i j)))
  ∧ 0 ≤ count_adjacent_mines b i j ≤ 8.
Proof.
  split; [apply count_adjacent_mines_eq|].
  rewrite count_adjacent_mines_eq.
  pose proof (length_filter (λ c, is_mine b c = true) (get_neighbors b i j)).
  pose proof (length_get_neighbors b i j). lia.
Qed.

(** ** The cascade of probe *)

Lemma reveal_neighbor_more b st n :
  shape (height b) (width b) st.1 = true → in_grid b n.1 n.2 = true →
  (get2 false (marked b) n.1 n.2 = false → get2 false (reveal_neighbor b st n).1 n.1 n.2 = true)
  ∧ (∀ q, q ∈ st.2 → q ∈ (reveal_neighbor b st n).2)
  ∧ (∀ c, get2 false st.1 c.1 c.2 = false →
          get2 false (reveal_neighbor b st n).1 c.1 c.2 = true →
          c = n ∧ get2 false (marked b) n.1 n.2 = false
          ∧ (get2 0 (board b) n.1 n.2 = 0 → n ∈ (reveal_neighbor b st n).2))
  ∧ (∀ q, q ∈ (reveal_neighbor b st n).2 →
          q ∈ st.2 ∨ (q = n ∧ get2 0 (board b) n.1 n.2 = 0
                      ∧ get2 false (reveal_neighbor b st n).1 n.1 n.2 = true)).
Proof.
  intros Hs Hg. pose proof Hg as Hg'. apply in_grid_spec in Hg' as [Hi Hj].
  unfold reveal_neighbor.
  destruct (get2 false st.1 n.1 n.2) eqn:Hv; simpl.
  { split_and!; auto. intros c H1 H2. congruence. }
  destruct (get2 false (marked b) n.1 n.2) eqn:Hm; simpl.
  { split_and!; auto; [done|]. intros c H1 H2. congruence. }
  assert (get2 false (set2 st.1 n.1 n.2 true) n.1 n.2 = true) as Hset.
  { erewrite get2_set2 by done. by rewrite decide_True. }
  split_and!.
  - done.
  - intros q Hq. destruct (_ =? 0); [apply elem_of_app; by left|done].
  - intros c H1. erewrite get2_set2 by done. case_decide as E; [|congruence].
    intros _. split; [destruct c, n; by simplify_eq/=|]. split; [done|].
    intros Hz. apply Z.eqb_eq in Hz. rewrite Hz. apply elem_of_app. right. by left.
  - intros q. destruct (get2 0 (board b) n.1 n.2 =? 0) eqn:Hz; [|auto].
    apply Z.eqb_eq in Hz. rewrite elem_of_app, list_elem_of_singleton.
    intros [?|?]; auto.
Qed.

Lemma reveal_neighbors_more b ns : ∀ st,
  shape (height b) (width b) st.1 = true →
  (∀ n, n ∈ ns → in_grid b n.1 n.2 = true) →
  (∀ n, n ∈ ns → get2 false (marked b) n.1 n.2 = false →
        get2 false (foldl (reveal_neighbor b) st ns).1 n.1 n.2 = true)
  ∧ (∀ q, q ∈ st.2 → q ∈ (foldl (reveal_neighbor b) st ns).2)
  ∧ (∀ c, get2 false st.1 c.1 c.2 = false →
          get2 false (foldl (reveal_neighbor b) st ns).1 c.1 c.2 = true →
          c ∈ ns ∧ get2 false (marked b) c.1 c.2 = false
          ∧ (get2 0 (board b) c.1 c.2 = 0 → c ∈ (foldl (reveal_neighbor b) st ns).2))
  ∧ (∀ q, q ∈ (foldl (reveal_neighbor b) st ns).2 →
          q ∈ st.2 ∨ (q ∈ ns ∧ get2 0 (board b) q.1 q.2 = 0
                      ∧ get2 false (foldl (reveal_neighbor b) st ns).1 q.1 q.2 = true)).
Proof.
  induction ns as [|n ns IH]; intros st Hs Hns; simpl.
  - split_and!; auto.
    + intros n Hn. by apply elem_of_nil in Hn.
    + intros c H1 H2. congruence.
  - assert (in_grid b n.1 n.2 = true) as Hg by (apply Hns; by left).
    destruct (reveal_neighbor_more b st n Hs Hg) as (S1 & S2 & S3 & S4).
    destruct (reveal_neighbor_spec b st n Hs Hg) as (T1 & _ & T3 & _ & _).
    assert (∀ m, m ∈ ns → in_grid b m.1 m.2 = true) as Hns' by (intros m Hm; apply Hns; by right).
    destruct (IH (reveal_neighbor b st n) T1 Hns') as (I1 & I2 & I3 & I4).
    destruct (reveal_neighbors_spec b ns (reveal_neighbor b st n) T1 Hns') as (_ & _ & U3 & _ & _).
    split_and!.
    + intros m [-> | Hm]%elem_of_cons Hmk; [|by apply I1].
      apply U3. by apply S1.
    + auto.
    + intros c H1 H2.
      destruct (get2 false (reveal_neighbor b st n).1 c.1 c.2) eqn:Hmid.
      * destruct (S3 c H1 Hmid) as (-> & Hmk & Hq). split; [by left|]. split; [done|].
        intros Hz. apply I2. by apply Hq.
      * destruct (I3 c Hmid H2) as (Hin & Hmk & Hq). split; [by right|done].
    + intros q Hq. destruct (I4 q Hq) as [H|(H & Hz & Hv)].
      * destruct (S4 q H) as [? | (-> & Hz & Hv)]; [by left|].
        right. split; [by left|]. split; [done|]. by apply U3.
      * right. split; [by right|done].
Qed.

Lemma flood_fill_cascade b fuel : ∀ vis queue vis',
  shape (height b) (width b) vis = true →
  (∀ q, q ∈ queue → in_grid b q.1 q.2 = true ∧ get2 0 (board b) q.1 q.2 = 0
                     ∧ get2 false vis q.1 q.2 = true) →
  flood_fill fuel b vis queue = Some vis' →
  (∀ c, get2 false vis c.1 c.2 = true → get2 false vis' c.1 c.2 = true)
  ∧ (∀ c n, c ∈ queue ∨ (get2 false vis c.1 c.2 = false ∧ get2 false vis' c.1 c.2 = true
                         ∧ get2 0 (board b) c.1 c.2 = 0) →
            n ∈ get_neighbors b c.1 c.2 → get2 false (marked b) n.1 n.2 = false →
            get2 false vis' n.1 n.2 = true)
  ∧ (∀ c, get2 false vis c.1 c.2 = false → get2 false vis' c.1 c.2 = true →
          get2 false (marked b) c.1 c.2 = false
          ∧ ∃ z, c ∈ get_neighbors b z.1 z.2 ∧ in_grid b z.1 z.2 = true
                 ∧ get2 false vis' z.1 z.2 = true ∧ get2 0 (board b) z.1 z.2 = 0).
Proof.
  induction fuel as [|fuel IH]; intros vis queue vis' Hs Hq Hrun.
  - destruct queue; simplify_eq/=. split_and!; [done| |intros; congruence].
    intros c n [Hc|(H1 & H2 & _)]; [by apply elem_of_nil in Hc|congruence].
  - destruct queue as [|rc rest]; simplify_eq/=.
    { split_and!; [done| |intros; congruence].
      intros c n [Hc|(H1 & H2 & _)]; [by apply elem_of_nil in Hc|congruence]. }
    set (ns := get_neighbors b rc.1 rc.2) in *.
    set (st := foldl (reveal_neighbor b) (vis, rest) ns) in *.
    assert (∀ n, n ∈ ns → in_grid b n.1 n.2 = true) as Hns
      by (intros n; apply get_neighbors_in_grid).
    destruct (reveal_neighbors_spec b ns (vis, rest) Hs Hns) as (S1 & _ & S3 & _ & _).
    destruct (reveal_neighbors_more b ns (vis, rest) Hs Hns) as (M1 & M2 & M3 & M4).
    fold st in S1, S3, M1, M2, M3, M4. simpl in *.
    destruct (Hq rc) as (Hrg & Hrz & Hrv); [by left|].
    destruct (IH st.1 st.2 vis' S1) as (I1 & I2 & I3); [|done|].
    { intros q Hq'. destruct (M4 q Hq') as [H|(H & Hz & Hv)].
      - destruct (Hq q) as (? & ? & ?); [by right|]. auto.
      - auto. }
    split_and!.
    + auto.
    + intros c n Hc Hn Hmk.
      destruct Hc as [[-> | Hc]%elem_of_cons | (H1 & H2 & Hz)].
      * apply I1. by apply M1.
      * apply (I2 c n); [left; by apply M2|done..].
      * destruct (get2 false st.1 c.1 c.2) eqn:Hmid.
        -- destruct (M3 c H1 Hmid) as (_ & _ & Hin). apply (I2 c n); [left; by apply Hin|done..].
        -- apply (I2 c n); [right; done|done..].
    + intros c H1 H2.
      destruct (get2 false st.1 c.1 c.2) eqn:Hmid.
      * destruct (M3 c H1 Hmid) as (Hin & Hmk & _). split; [done|].
        exists rc. split_and!; [done|done|by apply I1, S3|done].
      * by apply I3.
Qed.

Lemma get_neighbors_dims b b' i j :
  height b' = height b → width b' = width b → get_neighbors b' i j = get_neighbors b i j.
Proof.
  intros Hh Hw. rewrite !get_neighbors_eq. do 2 f_equal.
  apply list_filter_iff. intros d. unfold in_grid. by rewrite Hh, Hw.
Qed.

(** The state probe works on after its first-move guard. *)
Lemma first_move_guard_frame b i j :
  well_shaped b = true → in_grid b i j = true →
  well_shaped (first_move_guard b i j) = true
  ∧ width (first_move_guard b i j) = width b ∧ height (first_move_guard b i j) = height b
  ∧ num_mines (first_move_guard b i j) = num_mines b
  ∧ visible (first_move_guard b i j) = visible b ∧ marked (first_move_guard b i j) = marked b
  ∧ game_over (first_move_guard b i j) = game_over b ∧ won (first_move_guard b i j) = won b
  ∧ first_move (first_move_guard b i j) = false
  ∧ (first_move b = false → board (first_move_guard b i j) = board b).
Proof.
  intros Hws Hg. set (b1 := first_move_guard b i j).
  destruct (first_move_guard_cases b i j Hws Hg)
    as [[Hf E]|[(_ & _ & E)|[(_ & _ & _ & E)|(Hf & Hm & c & Hc & Hsame & Hs & _)]]];
    fold b1 in E || fold b1 in Hsame, Hs; try (rewrite E; done).
  destruct Hsame as (Hw & Hh & Hn & Hv & Hmk & Hfm & Hgo & Hwon). simpl in *.
  apply well_shaped_spec in Hws as (_ & Hsv & Hsm).
  split_and!; try done; [|congruence].
  apply well_shaped_spec. by rewrite Hw, Hh, Hv, Hmk.
Qed.

Lemma probe_true_inv b i j b' :
  probe b i j = Some (true, b') →
  ∃ vis2,
    (if get2 0 (board (first_move_guard b i j)) i j =? 0
     then flood_fill (flood_fuel (first_move_guard b i j)
                        (set2 (visible (first_move_guard b i j)) i j true))
                     (first_move_guard b i j)
                     (set2 (visible (first_move_guard b i j)) i j true) [(i, j)]
     else Some (set2 (visible (first_move_guard b i j)) i j true)) = Some vis2
    ∧ get2 0 (board (first_move_guard b i j)) i j ≠ -1
    ∧ board b' = board (first_move_guard b i j)
    ∧ marked b' = marked (first_move_guard b i j)
    ∧ width b' = width (first_move_guard b i j)
    ∧ height b' = height (first_move_guard b i j)
    ∧ visible b' = vis2.
Proof.
  unfold probe, probe_after_guard. set (b1 := first_move_guard b i j).
  destruct (get2 0 (board b1) i j =? -1) eqn:Hm; [done|]. apply Z.eqb_neq in Hm.
  destruct (if get2 0 (board b1) i j =? 0 then _ else _) as [vis2|] eqn:E; [|done].
  simpl. intros [= <-]. exists vis2. split; [done|]. split; [done|].
  by destruct (np_sum vis2 =? _).
Qed.

Lemma probe_false_inv b i j b' :
  probe b i j = Some (false, b') →
  b' = with_game_over (first_move_guard b i j) true.
Proof.
  unfold probe, probe_after_guard. set (b1 := first_move_guard b i j).
  destruct (get2 0 (board b1) i j =? -1) eqn:Hm; [by intros [= <-]|].
  by destruct (if get2 0 (board b1) i j =? 0 then _ else _).
Qed.

(** X3.  The cascade of probe.  After a probe of (i, j) that returned
    True, take a visible cell c with hidden count 0 that is (i, j) itself
    or was opened by this probe: every neighbour of c that is not marked
    is visible. *)
Theorem probe_opens_neighbors_of_zeros (b : MinesweeperBoard) (i j : Z)
    (b' : MinesweeperBoard) (c n : cell) :
  well_shaped b = true → in_grid b i j = true →
  probe b i j = Some (true, b') →
  is_visible b' c = true → get2 0 (board b') c.1 c.2 = 0 →
  c = (i, j) ∨ is_visible b c = false →
  n ∈ get_neighbors b' c.1 c.2 → is_marked b' n = false →
  is_visible b' n = true.
Proof.
  intros Hws Hg Hp Hv' Hz Hc Hn Hmk.
  destruct (first_move_guard_frame b i j Hws Hg) as (Hws1 & Ew & Eh & _ & Ev & Emk & _).
  destruct (probe_true_inv b i j b' Hp) as (vis2 & Hrun & Hnm & Eb & Emk' & Ew' & Eh' & Ev').
  set (b1 := first_move_guard b i j) in *.
  apply well_shaped_spec in Hws1 as (_ & Hsv & _).
  pose proof Hg as Hg'. apply in_grid_spec in Hg' as [Hi Hj].
  assert (get_neighbors b' c.1 c.2 = get_neighbors b1 c.1 c.2) as En
    by (apply get_neighbors_dims; congruence).
  unfold is_visible, is_marked in *. rewrite Ev' in *. rewrite Eb in Hz. rewrite Emk' in Hmk.
  rewrite En in Hn. rewrite <- Ev in Hc.
  assert (shape (height b1) (width b1) (set2 (visible b1) i j true) = true) as Hs1
    by (by rewrite shape_set2).
  assert (get2 false (set2 (visible b1) i j true) i j = true) as Hij.
  { erewrite get2_set2; [|done|lia|lia]. by rewrite decide_True. }
  destruct (get2 0 (board b1) i j =? 0) eqn:Hz0.
  - apply Z.eqb_eq in Hz0.
    destruct (flood_fill_cascade b1 _ _ [(i, j)] _ Hs1 ltac:(
                intros q ->%list_elem_of_singleton; simpl;
                split; [unfold in_grid in *; by rewrite Ew, Eh|done]) Hrun)
      as (_ & I2 & _).
    apply (I2 c n); [|done..].
    destruct Hc as [-> | Hc]; [left; by left|].
    destruct (decide (c = (i, j))) as [-> | Hne]; [left; by left|].
    right. split; [|done].
    erewrite get2_set2; [|done|lia|lia]. rewrite decide_False; [done|].
    intros E. apply Hne. destruct c. by simplify_eq/=.
  - injection Hrun as <-. apply Z.eqb_neq in Hz0.
    destruct Hc as [-> | Hc]; [done|].
    erewrite get2_set2 in Hv'; [|done|lia|lia]. case_decide as E; [|congruence].
    destruct c. by simplify_eq/=.
Qed.

Lemma probe_opens_neighbors_of_zeros_witness :
  probe stale_start 0 0 = Some (true, stale_opened)
  ∧ is_visible stale_opened (0, 1) = true.
Proof.
  split; [reflexivity|].
  apply (probe_opens_neighbors_of_zeros stale_start 0 0 stale_opened (0, 0) (0, 1));
    [reflexivity|reflexivity|reflexivity|reflexivity|reflexivity|left; reflexivity
    |vm_compute; by left|reflexivity].
Defined.

(** X4.  probe opens nothing but the probed cell and its cascade: a cell
    other than (i, j) that is visible after the probe and was not before
    is unmarked and is a neighbour of a visible cell of the grid whose
    hidden count is 0.  (In particular a probe that returns False opens
    no cell, and the cascade never opens a marked cell.) *)
Theorem probe_opens_only_by_cascade (b : MinesweeperBoard) (i j : Z) (r : bool)
    (b' : MinesweeperBoard) (c : cell) :
  well_shaped b = true → in_grid b i j = true →
  probe b i j = Some (r, b') →
  is_visible b' c = true → is_visible b c = false → c ≠ (i, j) →
  is_marked b' c = false
  ∧ ∃ z, c ∈ get_neighbors b' z.1 z.2 ∧ in_grid b' z.1 z.2 = true
         ∧ is_visible b' z = true ∧ get2 0 (board b') z.1 z.2 = 0.
Proof.
  intros Hws Hg Hp Hv' Hv Hne.
  destruct (first_move_guard_frame b i j Hws Hg) as (Hws1 & Ew & Eh & _ & Ev & Emk & _).
  destruct r.
  2:{ apply probe_false_inv in Hp as ->. unfold is_visible in *. simpl in *. congruence. }
  destruct (probe_true_inv b i j b' Hp) as (vis2 & Hrun & Hnm & Eb & Emk' & Ew' & Eh' & Ev').
  set (b1 := first_move_guard b i j) in *.
  apply well_shaped_spec in Hws1 as (_ & Hsv & _).
  pose proof Hg as Hg'. apply in_grid_spec in Hg' as [Hi Hj].
  unfold is_visible, is_marked in *. rewrite Ev' in *. rewrite Eb, Emk'. rewrite <- Ev in Hv.
  assert (shape (height b1) (width b1) (set2 (visible b1) i j true) = true) as Hs1
    by (by rewrite shape_set2).
  assert (get2 false (set2 (visible b1) i j true) c.1 c.2 = false) as Hc1.
  { erewrite get2_set2; [|done|lia|lia]. rewrite decide_False; [done|].
    intros E. apply Hne. destruct c. by simplify_eq/=. }
  destruct (get2 0 (board b1) i j =? 0) eqn:Hz0.
  - apply Z.eqb_eq in Hz0.
    assert (get2 false (set2 (visible b1) i j true) i j = true) as Hij.
    { erewrite get2_set2; [|done|lia|lia]. by rewrite decide_True. }
    destruct (flood_fill_cascade b1 _ _ [(i, j)] _ Hs1 ltac:(
                intros q ->%list_elem_of_singleton; simpl;
                split; [unfold in_grid in *; by rewrite Ew, Eh|done]) Hrun)
      as (_ & _ & I3).
    destruct (I3 c Hc1 Hv') as (Hmk & z & Hz1 & Hz2 & Hz3 & Hz4).
    split; [done|]. exists z.
    rewrite (get_neighbors_dims b1 b') by congruence.
    unfold in_grid in *. rewrite Ew', Eh'. done.
  - injection Hrun as <-. congruence.
Qed.

Lemma probe_opens_only_by_cascade_witness :
  probe stale_start 0 0 = Some (true, stale_opened)
  ∧ is_marked stale_opened (0, 1) = false
  ∧ ∃ z, (0, 1) ∈ get_neighbors stale_opened z.1 z.2 ∧ in_grid stale_opened z.1 z.2 = true
         ∧ is_visible stale_opened z = true ∧ get2 0 (board stale_opened) z.1 z.2 = 0.
Proof.
  split; [reflexivity|].
  apply (probe_opens_only_by_cascade stale_start 0 0 true stale_opened (0, 1));
    [reflexivity|reflexivity|reflexivity|reflexivity|reflexivity|discriminate].
Defined.

(** ** get_visible_board *)

Lemma np_full_shape {A} (h w : Z) (v : A) : 0 ≤ h → 0 ≤ w → shape h w (np_full h w v) = true.
Proof. apply (np_zeros_shape v). Qed.

Lemma get2_np_full {A} (d v : A) h w i j :
  0 ≤ i < h → 0 ≤ j < w → get2 d (np_full h w v) i j = v.
Proof.
  intros Hi Hj. unfold get2, np_full. rewrite bool_decide_true by lia.
  rewrite lookup_replicate_2 by lia. simpl. by rewrite lookup_replicate_2 by lia.
Qed.

Lemma show_cell_shape b a c h w :
  shape h w (show_cell b a c) = shape h w a.
Proof.
  unfold show_cell. destruct (is_visible b c); [apply shape_set2|].
  destruct (is_marked b c); [apply shape_set2|done].
Qed.

Lemma foldl_show_cell b l : ∀ a h w,
  shape h w a = true →
  (∀ c, c ∈ l → 0 ≤ c.1 < h ∧ 0 ≤ c.2 < w) → NoDup l →
  (∀ c, c ∈ l → get2 "" a c.1 c.2 = "?") →
  shape h w (foldl (show_cell b) a l) = true
  ∧ ∀ c : cell, get2 "" (foldl (show_cell b) a l) c.1 c.2
                = if decide (c ∈ l) then shown b c else get2 "" a c.1 c.2.
Proof.
  induction l as [|x l IH]; intros a h w Hs Hl Hnd Hq; cbn [foldl].
  { split; [done|]. intros c. case_decide as E; [by apply elem_of_nil in E|done]. }
  apply NoDup_cons in Hnd as [Hx Hnd].
  destruct (Hl x) as [Hx1 Hx2]; [by left|].
  assert (∀ c : cell, get2 "" (show_cell b a x) c.1 c.2
                      = if decide (c = x) then shown b x else get2 "" a c.1 c.2) as Hstep.
  { intros c. unfold show_cell, shown.
    destruct (is_visible b x).
    - erewrite get2_set2 by done. repeat case_decide; try done.
      + destruct c, x; by simplify_eq/=.
      + subst. done.
    - destruct (is_marked b x).
      + erewrite get2_set2 by done. repeat case_decide; try done.
        * destruct c, x; by simplify_eq/=.
        * subst. done.
      + case_decide; [subst; apply Hq; by left|done]. }
  destruct (IH (show_cell b a x) h w) as [I1 I2].
  - by rewrite show_cell_shape.
  - intros c Hc. apply Hl. by right.
  - done.
  - intros c Hc. rewrite Hstep. rewrite decide_False by (intros ->; done).
    apply Hq. by right.
  - split; [done|]. intros c. rewrite I2, Hstep.
    destruct (decide (c = x)) as [-> | Hne].
    + rewrite decide_False by done. rewrite decide_True by (by left). done.
    + destruct (decide (c ∈ l)) as [Hin | Hin].
      * rewrite decide_True by (by right). done.
      * rewrite decide_False; [done|]. intros [? | ?]%elem_of_cons; done.
Qed.

Lemma get_visible_board_entries b :
  0 ≤ height b → 0 ≤ width b →
  shape (height b) (width b) (get_visible_board b) = true
  ∧ ∀ i j, in_grid b i j = true → get2 "" (get_visible_board b) i j = shown b (i, j).
Proof.
  intros Hh Hw. unfold get_visible_board.
  destruct (foldl_show_cell b (positions (height b) (width b))
              (np_full (height b) (width b) "?") (height b) (width b)) as [I1 I2].
  - by apply np_full_shape.
  - intros [ci cj] Hc. by apply elem_of_positions in Hc.
  - apply NoDup_positions.
  - intros [ci cj] Hc. apply elem_of_positions in Hc as [? ?]. by apply get2_np_full.
  - split; [done|]. intros i j Hg. specialize (I2 (i, j)). simpl in I2. rewrite I2.
    rewrite decide_True; [done|]. by apply (elem_of_positions_grid b (i, j)).
Qed.

(** ** str and int *)

Lemma digit_of_pretty_N_char x :
  (x < 10)%N → digit_of (pretty_N_char x) = Some (Z.of_N x).
Proof.
  intros Hx.
  assert (x = 0 ∨ x = 1 ∨ x = 2 ∨ x = 3 ∨ x = 4 ∨ x = 5 ∨ x = 6 ∨ x = 7 ∨ x = 8 ∨ x = 9)%N
    as Hc by lia.
  repeat (destruct Hc as [-> | Hc]; [reflexivity|]). by subst.
Qed.

Lemma int_of_digits_pretty_N_go x :
  ∃ k, ∀ acc s, int_of_digits acc (pretty_N_go x s) = int_of_digits (acc * k + Z.of_N x) s.
Proof.
  induction (N.lt_wf_0 x) as [x _ IH].
  assert (x = 0 ∨ 0 < x)%N as [-> | Hx] by lia.
  - exists 1. intros acc s. rewrite pretty_N_go_0. f_equal. lia.
  - destruct (IH (x `div` 10)%N) as [k Hk]; [by apply N.div_lt|].
    exists (10 * k). intros acc s. rewrite pretty_N_go_step by done. rewrite Hk.
    cbn [int_of_digits]. rewrite digit_of_pretty_N_char by (by apply N.mod_lt).
    simpl. f_equal. rewrite N2Z.inj_div, N2Z.inj_mod.
    pose proof (Z.div_mod (Z.of_N x) 10). change (Z.of_N 10) with 10. lia.
Qed.

Lemma py_int_pretty_pos p :
  ∃ a s', pretty_N_go (N.pos p) "" = String a s' ∧ Ascii.eqb a "-"%char = false
          ∧ int_of_digits 0 (String a s') = Some (Z.pos p).
Proof.
  destruct (int_of_digits_pretty_N_go (N.pos p)) as [k Hk].
  specialize (Hk 0 ""). simpl in Hk.
  destruct (pretty_N_go (N.pos p) "") as [|a s']; [simpl in Hk; by simplify_eq|].
  exists a, s'. split; [done|]. split; [|done].
  destruct (Ascii.eqb a "-"%char) eqn:E; [|done].
  apply Ascii.eqb_eq in E as ->. by simpl in Hk.
Qed.

(** int(str(z)) is z. *)
Lemma py_int_pretty (z : Z) : py_int (pretty z) = Some z.
Proof.
  destruct z as [|p|p].
  - reflexivity.
  - destruct (py_int_pretty_pos p) as (a & s' & E & Ha & Hd).
    change (pretty (Z.pos p)) with (pretty_N_go (N.pos p) ""). rewrite E.
    unfold py_int. by rewrite Ha.
  - destruct (py_int_pretty_pos p) as (a & s' & E & Ha & Hd).
    change (pretty (Z.neg p)) with (String "-"%char (pretty_N_go (N.pos p) "")). rewrite E.
    unfold py_int. change (Ascii.eqb "-" "-") with true. cbv iota.
    change (String.eqb (String a s') "") with false. cbv iota. by rewrite Hd.
Qed.

(** X5.  get_visible_board returns an array of shape (height, width).
    Its entry at a cell of the grid is the decimal numeral of the hidden
    value when the cell is visible (also when it is marked as well), 'F'
    when it is marked and not visible, and '?' otherwise.  The arrays of
    the board are taken of shape (height, width), as the reads
    visible[i, j], marked[i, j] and board[i, j] need it. *)
Theorem get_visible_board_shows (b : MinesweeperBoard) (i j : Z) :
  well_shaped b = true → in_grid b i j = true →
  shape (height b) (width b) (get_visible_board b) = true
  ∧ get2 "" (get_visible_board b) i j
    = if is_visible b (i, j) then pretty (get2 0 (board b) i j)
      else if is_marked b (i, j) then "F" else "?".
Proof.
  intros _ Hg. pose proof Hg as Hg'. apply in_grid_spec in Hg'.
  destruct (get_visible_board_entries b) as [H1 H2]; [lia..|].
  split; [done|]. by rewrite H2.
Qed.

Lemma get_visible_board_shows_witness :
  shape (height row_board_probed) (width row_board_probed)
        (get_visible_board row_board_probed) = true
  ∧ get2 "" (get_visible_board row_board_probed) 0 2
    = if is_visible row_board_probed (0, 2)
      then pretty (get2 0 (board row_board_probed) 0 2)
      else if is_marked row_board_probed (0, 2) then "F" else "?".
Proof.
  apply (get_visible_board_shows row_board_probed 0 2); reflexivity.
Defined.

(** X6.  get_visible_board reads the hidden board at visible cells only:
    two boards of the same dimensions, visibility and marks whose hidden
    values agree at every visible cell of the grid have the same view,
    wherever their mines are. *)
Theorem get_visible_board_hides_hidden_cells (b b' : MinesweeperBoard) :
  width b' = width b → height b' = height b →
  visible b' = visible b → marked b' = marked b →
  forallb (λ c, negb (is_visible b c)
                || (get2 0 (board b') c.1 c.2 =? get2 0 (board b) c.1 c.2))
          (positions (height b) (width b)) = true →
  get_visible_board b' = get_visible_board b.
Proof.
  intros Hw Hh Hv Hm Hb. unfold get_visible_board. rewrite Hw, Hh.
  rewrite forallb_forall in Hb. setoid_rewrite <- list_elem_of_In in Hb.
  generalize (np_full (height b) (width b) "?").
  induction (positions (height b) (width b)) as [|c l IH]; intros a; [done|].
  cbn [foldl].
  assert (show_cell b' a c = show_cell b a c) as ->.
  { unfold show_cell, is_visible, is_marked. rewrite Hv, Hm.
    destruct (get2 false (visible b) c.1 c.2) eqn:E; [|done].
    specialize (Hb c). unfold is_visible in Hb. rewrite E in Hb. simpl in Hb.
    rewrite (proj1 (Z.eqb_eq _ _) (Hb ltac:(by left))). done. }
  apply IH. intros x Hx. apply Hb. by right.
Qed.

Lemma get_visible_board_hides_hidden_cells_witness :
  get_visible_board (mkBoard 5 1 2 [[1; 2; 1; -1; -1]]
                       [[true; false; true; false; false]]
                       [[false; false; false; false; false]] false false false)
  = get_visible_board row_board_probed.
Proof.
  apply (get_visible_board_hides_hidden_cells row_board_probed); reflexivity.
Defined.

(** X7.  The round trip of add_constraint_from_move (line 529),
    int(get_visible_board()[i, j]): at a visible cell of the grid int()
    of the entry is the hidden value board[i, j]; at a cell that is not
    visible the entry is '?' or 'F' and int() raises ValueError, which is
    why the function returns before (line 525) for such a cell. *)
Theorem visible_entry_parses_back (b : MinesweeperBoard) (i j : Z) :
  well_shaped b = true → in_grid b i j = true →
  py_int (get2 "" (get_visible_board b) i j)
  = if is_visible b (i, j) then Some (get2 0 (board b) i j) else None.
Proof.
  intros Hws Hg. pose proof Hg as Hg'. apply in_grid_spec in Hg'.
  destruct (get_visible_board_entries b) as [_ H2]; [lia..|].
  rewrite H2 by done. unfold shown. simpl.
  destruct (is_visible b (i, j)); [apply py_int_pretty|].
  by destruct (is_marked b (i, j)).
Qed.

Lemma visible_entry_parses_back_witness :
  py_int (get2 "" (get_visible_board row_board_probed) 0 2)
  = if is_visible row_board_probed (0, 2)
    then Some (get2 0 (board row_board_probed) 0 2) else None.
Proof.
  apply (visible_entry_parses_back row_board_probed 0 2); reflexivity.
Defined.

(** X8.  game.py, update_displayed_board over get_visible_board.  On a
    board of consistent counts whose visible cells are no mines (what
    probe maintains) styling a cell never fails and never uses the black
    background of the '-1' branch: a visible cell is drawn sunken, holds
    a count between 0 and 8 and, for a count v >= 1, has the text colour
    number_colors[v - 1]; a cell that is not visible is drawn raised on
    red (marked) or on lightgray (unknown), with black text. *)
Theorem displayed_cell_is_never_a_mine (b : MinesweeperBoard) (i j : Z) :
  well_shaped b = true → counts_ok b = true → visible_safe b = true →
  in_grid b i j = true →
  ∃ st, cell_style (get2 "" (get_visible_board b) i j) = Some st
    ∧ background st ≠ "black"
    ∧ (is_visible b (i, j) = true →
       relief st = "sunken"
       ∧ 0 ≤ get2 0 (board b) i j ≤ 8
       ∧ (0 < get2 0 (board b) i j →
          number_colors !! Z.to_nat (get2 0 (board b) i j - 1) = Some (foreground st)))
    ∧ (is_visible b (i, j) = false →
       st = mkStyle (if is_marked b (i, j) then "red" else "lightgray") "raised" "black").
Proof.
  intros Hws Hok Hsafe Hg. pose proof Hg as Hg'. apply in_grid_spec in Hg'.
  destruct (get_visible_board_entries b) as [_ H2]; [lia..|].
  rewrite H2 by done. unfold shown. simpl.
  destruct (is_visible b (i, j)) eqn:Hv.
  - assert (is_mine b (i, j) = false) as Hm by (by apply visible_safe_spec).
    pose proof (proj1 (counts_ok_spec b) Hok i j Hg Hm) as Hc.
    pose proof (count_adjacent_mines_eq b i j) as Hn.
    pose proof (length_filter (λ c, is_mine b c = true) (get_neighbors b i j)).
    pose proof (length_get_neighbors b i j).
    set (v := get2 0 (board b) i j) in *.
    assert (v = 0 ∨ v = 1 ∨ v = 2 ∨ v = 3 ∨ v = 4 ∨ v = 5 ∨ v = 6 ∨ v = 7 ∨ v = 8)
      as Hcases by lia.
    clearbody v. clear - Hcases.
    repeat (destruct Hcases as [-> | Hcases];
            [eexists; split; [reflexivity|]; split; [done|]; split; [|done];
             intros _; split; [reflexivity|]; split; [lia|]; intros; reflexivity || lia|]).
    subst v. eexists; split; [reflexivity|]; split; [done|]; split; [|done].
    intros _; split; [reflexivity|]; split; [lia|]; intros; reflexivity.
  - destruct (is_marked b (i, j)); eexists; (split; [reflexivity|]);
      (split; [done|]); (split; [done|]); done.
Qed.

Lemma displayed_cell_is_never_a_mine_witness :
  ∃ st, cell_style (get2 "" (get_visible_board row_board_probed) 0 2) = Some st
    ∧ background st ≠ "black"
    ∧ (is_visible row_board_probed (0, 2) = true →
       relief st = "sunken"
       ∧ 0 ≤ get2 0 (board row_board_probed) 0 2 ≤ 8
       ∧ (0 < get2 0 (board row_board_probed) 0 2 →
          number_colors !! Z.to_nat (get2 0 (board row_board_probed) 0 2 - 1)
          = Some (foreground st)))
    ∧ (is_visible row_board_probed (0, 2) = false →
       st = mkStyle (if is_marked row_board_probed (0, 2) then "red" else "lightgray")
                    "raised" "black").
Proof.
  apply (displayed_cell_is_never_a_mine row_board_probed 0 2); reflexivity.
Defined.

(** ** choose_unconstrained_square *)

Lemma draw_all_perm {A} (k : nat) : ∀ (rng : list nat) (pool : list A),
  length pool = k → draw rng pool k ≡ₚ pool.
Proof.
  induction k as [|k IH]; intros rng pool Hk; simpl.
  - by destruct pool.
  - set (idx := (hd 0%nat rng `mod` length pool)%nat).
    assert (idx < length pool)%nat as Hidx by (apply Nat.mod_upper_bound; lia).
    destruct (lookup_lt_is_Some_2 pool idx Hidx) as [x Hx]. rewrite Hx.
    etrans; [|symmetry; by apply delete_Permutation].
    constructor. apply IH. rewrite length_delete by done. lia.
Qed.

Lemma random_shuffle_perm {A} (rng : list nat) (l : list A) : random_shuffle rng l ≡ₚ l.
Proof. by apply draw_all_perm. Qed.

Lemma overlap_nonneg b cs c : 0 ≤ overlap b cs c.
Proof.
  unfold overlap. generalize 0.
  induction cs as [|x cs IH]; intros z; simpl; [lia|].
  etrans; [|apply IH]. lia.
Qed.

Lemma elem_of_interior b c :
  c ∈ interior b ↔ 1 ≤ c.1 ≤ height b - 2 ∧ 1 ≤ c.2 ≤ width b - 2.
Proof.
  destruct c as [i j]. unfold interior. rewrite list_elem_of_bind. simpl. split.
  - intros (i' & Hin & Hi'). apply list_elem_of_bind in Hin as (j' & Hin & Hj').
    apply list_elem_of_singleton in Hin. simplify_eq.
    apply elem_of_seqZ in Hi', Hj'. lia.
  - intros [Hi Hj]. exists i. split; [|apply elem_of_seqZ; lia].
    apply list_elem_of_bind. exists j. split; [by apply list_elem_of_singleton|].
    apply elem_of_seqZ; lia.
Qed.

Lemma elem_of_corners b c :
  c ∈ corners b ↔ (c.1 = 0 ∨ c.1 = height b - 1) ∧ (c.2 = 0 ∨ c.2 = width b - 1).
Proof.
  destruct c as [i j]. unfold corners. rewrite !elem_of_cons, elem_of_nil. simpl.
  split.
  - intros [H|[H|[H|[H|[]]]]]; simplify_eq; auto.
  - intros [[-> | ->] [-> | ->]]; auto 6.
Qed.

Lemma elem_of_edges b c :
  c ∈ edges b ↔
  in_grid b c.1 c.2 = true
  ∧ (c.1 = 0 ∨ c.1 = height b - 1 ∨ c.2 = 0 ∨ c.2 = width b - 1) ∧ c ∉ corners b.
Proof.
  unfold edges. rewrite list_elem_of_filter, elem_of_positions_grid. tauto.
Qed.

(** Every cell of a grid is a corner, an edge cell or an interior cell. *)
Lemma grid_cases b c :
  in_grid b c.1 c.2 = true → c ∈ corners b ∨ c ∈ edges b ∨ c ∈ interior b.
Proof.
  intros Hg. destruct (decide (c ∈ corners b)) as [? | Hnc]; [by left|right].
  destruct (decide (c.1 = 0 ∨ c.1 = height b - 1 ∨ c.2 = 0 ∨ c.2 = width b - 1))
    as [He | Hne].
  - left. by apply elem_of_edges.
  - right. apply elem_of_interior. apply in_grid_spec in Hg. lia.
Qed.

Lemma corners_in_grid b c :
  0 < height b → 0 < width b → c ∈ corners b → in_grid b c.1 c.2 = true.
Proof.
  intros Hh Hw Hc. apply elem_of_corners in Hc. apply in_grid_spec. lia.
Qed.

Lemma interior_in_grid b c : c ∈ interior b → in_grid b c.1 c.2 = true.
Proof. intros Hc. apply elem_of_interior in Hc. apply in_grid_spec. lia. Qed.

Lemma interior_fold b cs l : ∀ st,
  (st.2 = None → st.1 = -1) →
  (foldl (interior_step b cs) st l).2 = None →
  st.2 = None ∧ ∀ x, x ∈ l → unknown b x = false.
Proof.
  induction l as [|x l IH]; intros st Hst; cbn [foldl].
  { intros H. split; [done|]. intros x Hx. by apply elem_of_nil in Hx. }
  intros Hr.
  destruct (IH (interior_step b cs st x)) as [E Hl]; [|done|].
  { unfold interior_step. destruct (unknown b x); [|done].
    simpl. destruct (st.1 <? overlap b cs x); [done|done]. }
  unfold interior_step in E.
  destruct (unknown b x) eqn:Hu.
  - simpl in E. destruct (st.1 <? overlap b cs x) eqn:Hlt; [done|].
    apply Z.ltb_ge in Hlt. pose proof (overlap_nonneg b cs x).
    specialize (Hst E). lia.
  - split; [done|]. intros y [-> | Hy]%elem_of_cons; auto.
Qed.

Lemma interior_fold_best b cs l : ∀ st c,
  (∀ c0, st.2 = Some c0 → unknown b c0 = true ∧ st.1 = overlap b cs c0) →
  (foldl (interior_step b cs) st l).2 = Some c →
  (st.2 = Some c ∨ c ∈ l) ∧ unknown b c = true
  ∧ (foldl (interior_step b cs) st l).1 = overlap b cs c
  ∧ st.1 ≤ overlap b cs c
  ∧ ∀ x, x ∈ l → unknown b x = true → overlap b cs x ≤ overlap b cs c.
Proof.
  induction l as [|x l IH]; intros st c Hst; cbn [foldl].
  { intros H. destruct (Hst c H) as [Hu E]. split_and!; auto; [lia|].
    intros x Hx. by apply elem_of_nil in Hx. }
  intros Hr.
  destruct (IH (interior_step b cs st x) c) as (I1 & I2 & I3 & I4 & I5); [|done|].
  { intros c0. unfold interior_step. destruct (unknown b x) eqn:Hu; [|apply Hst].
    simpl. destruct (st.1 <? overlap b cs x); [|apply Hst].
    simpl. by intros [= <-]. }
  split_and!; [|done|done| |].
  - destruct I1 as [I1 | I1]; [|right; by right].
    unfold interior_step in I1. destruct (unknown b x); [|by left].
    simpl in I1. destruct (st.1 <? overlap b cs x); [|by left].
    simpl in I1. injection I1 as <-. right. by left.
  - etrans; [|exact I4]. unfold interior_step. destruct (unknown b x); [|done].
    simpl. destruct (st.1 <? overlap b cs x) eqn:Hlt; [|done].
    apply Z.ltb_lt in Hlt. simpl. lia.
  - intros y [-> | Hy]%elem_of_cons Hu; [|by apply I5].
    etrans; [|exact I4]. unfold interior_step. rewrite Hu. simpl.
    destruct (st.1 <? overlap b cs x) eqn:Hlt; simpl; [done|].
    by apply Z.ltb_ge in Hlt.
Qed.

(** What the four stages of choose_unconstrained_square found, read off
    its result. *)
Lemma choose_unconstrained_square_cases rng r s :
  0 < height s.1 → 0 < width s.1 →
  match choose_unconstrained_square rng r s with
  | Some (a, c, why) =>
      a = Probe ∧ unknown s.1 c = true ∧ in_grid s.1 c.1 c.2 = true
      ∧ match why with
        | CornerSquare => c ∈ corners s.1
        | EdgeSquare => c ∈ edges s.1 ∧ ∀ x, x ∈ corners s.1 → unknown s.1 x = false
        | InteriorSquare =>
            c ∈ interior s.1
            ∧ ∀ x, in_grid s.1 x.1 x.2 = true → unknown s.1 x = true →
                   x ∈ interior s.1 ∧ overlap s.1 s.2 x ≤ overlap s.1 s.2 c
        | LastResort => False
        end
  | None => ∀ x, in_grid s.1 x.1 x.2 = true → unknown s.1 x = false
  end.
Proof.
  intros Hh Hw. unfold choose_unconstrained_square. set (b := s.1).
  destruct (head (filter (λ c, unknown b c = true) (corners b))) as [c|] eqn:Hc.
  { apply head_filter_Some in Hc as [Hu Hin]. simpl in Hu.
    split; [done|]. split; [done|]. split; [by apply corners_in_grid|done]. }
  assert (∀ x, x ∈ corners b → unknown b x = false) as Hcorners.
  { intros x Hx. apply (head_filter_None _ _ x) in Hc; [|done]. by apply not_true_is_false. }
  destruct (head (filter (λ c, unknown b c = true) (random_shuffle rng (edges b))))
    as [c|] eqn:He.
  { apply head_filter_Some in He as [Hu Hin]. rewrite random_shuffle_perm in Hin.
    simpl in Hu. split; [done|]. split; [done|].
    split; [by apply elem_of_edges in Hin as (? & _)|done]. }
  assert (∀ x, x ∈ edges b → unknown b x = false) as Hedges.
  { intros x Hx. apply (head_filter_None _ _ x) in He; [by apply not_true_is_false|].
    by rewrite random_shuffle_perm. }
  destruct (foldl (interior_step b s.2) (-1, None) (interior b)).2 as [c|] eqn:Hi.
  { destruct (interior_fold_best b s.2 (interior b) (-1, None) c) as (I1 & I2 & _ & _ & I5);
      [done|done|].
    destruct I1 as [I1 | I1]; [done|].
    split; [done|]. split; [done|]. split; [by apply interior_in_grid|]. split; [done|].
    intros x Hx Hu. destruct (grid_cases b x Hx) as [H|[H|H]].
    - apply Hcorners in H. congruence.
    - apply Hedges in H. congruence.
    - auto. }
  destruct (interior_fold b s.2 (interior b) (-1, None)) as [_ Hinterior]; [done|done|].
  assert (∀ x, in_grid b x.1 x.2 = true → unknown b x = false) as Hall.
  { intros x Hx. destruct (grid_cases b x Hx) as [H|[H|H]]; auto. }
  rewrite bool_decide_true; [done|].
  destruct (filter (λ c, unknown b c = true) (positions (height b) (width b)))
    as [|y l] eqn:E; [done|].
  assert (y ∈ filter (λ c, unknown b c = true) (positions (height b) (width b))) as Hy
    by (rewrite E; by left).
  apply list_elem_of_filter in Hy as [Hu Hy]. simpl in Hu.
  apply elem_of_positions_grid in Hy. apply Hall in Hy. congruence.
Qed.

(** X9.  On a board with at least one row and one column every move of
    choose_unconstrained_square is a probe of a cell of the grid that is
    neither visible nor marked. *)
Theorem choose_unconstrained_square_picks_unknown (rng : list nat) (r : nat)
    (s : CSPStrategy) (a : Action) (c : cell) (why : SquareReason) :
  well_shaped s.1 = true → 0 < height s.1 → 0 < width s.1 →
  choose_unconstrained_square rng r s = Some (a, c, why) →
  a = Probe ∧ in_grid s.1 c.1 c.2 = true
  ∧ is_visible s.1 c = false ∧ is_marked s.1 c = false.
Proof.
  intros _ Hh Hw E. pose proof (choose_unconstrained_square_cases rng r s Hh Hw) as H.
  rewrite E in H. destruct H as (-> & Hu & Hg & _).
  unfold unknown in Hu. apply andb_true_iff in Hu as [H1 H2].
  apply negb_true_iff in H1, H2. done.
Qed.

Lemma choose_unconstrained_square_picks_unknown_witness :
  Probe = Probe ∧ in_grid row_solver.1 0 4 = true
  ∧ is_visible row_solver.1 (0, 4) = false ∧ is_marked row_solver.1 (0, 4) = false.
Proof.
  apply (choose_unconstrained_square_picks_unknown [] 0 row_solver Probe (0, 4) CornerSquare);
    reflexivity.
Defined.

(** X10.  On a board with at least one row and one column
    choose_unconstrained_square returns None exactly when every cell of
    the grid is visible or marked: it finds a move as long as an unknown
    cell is left. *)
Theorem choose_unconstrained_square_none_iff_full (rng : list nat) (r : nat)
    (s : CSPStrategy) :
  well_shaped s.1 = true → 0 < height s.1 → 0 < width s.1 →
  (choose_unconstrained_square rng r s = None
   ↔ ∀ i j, in_grid s.1 i j = true →
            is_visible s.1 (i, j) = true ∨ is_marked s.1 (i, j) = true).
Proof.
  intros _ Hh Hw. pose proof (choose_unconstrained_square_cases rng r s Hh Hw) as H.
  assert (∀ x, unknown s.1 x = false ↔ is_visible s.1 x = true ∨ is_marked s.1 x = true)
    as Hunk.
  { intros x. unfold unknown. destruct (is_visible s.1 x), (is_marked s.1 x); naive_solver. }
  split.
  - intros E. rewrite E in H. intros i j Hg. apply Hunk. by apply (H (i, j)).
  - intros Hfull. destruct (choose_unconstrained_square rng r s) as [[[a c] why]|]; [|done].
    destruct H as (_ & Hu & Hg & _).
    destruct c as [i j]. specialize (Hfull i j Hg). apply Hunk in Hfull. congruence.
Qed.

Lemma choose_unconstrained_square_none_iff_full_witness :
  choose_unconstrained_square [] 0 row_solver = None
  ↔ ∀ i j, in_grid row_solver.1 i j = true →
           is_visible row_solver.1 (i, j) = true ∨ is_marked row_solver.1 (i, j) = true.
Proof.
  apply (choose_unconstrained_square_none_iff_full [] 0 row_solver); reflexivity.
Defined.

(** X11.  The justification choose_unconstrained_square returns is
    true of the cell.  With the corner text the cell is a corner; with
    the edge text it is a border cell that is no corner, and no corner
    is unknown; with the interior text it is an interior cell, every
    unknown cell of the grid is an interior cell, and none of them
    overlaps the constraints more than the chosen one.  The last-resort
    text is never returned: whenever an unknown cell exists, one of the
    first three stages finds it. *)
Theorem choose_unconstrained_square_reason_is_true (rng : list nat) (r : nat)
    (s : CSPStrategy) (a : Action) (c : cell) (why : SquareReason) :
  well_shaped s.1 = true → 0 < height s.1 → 0 < width s.1 →
  choose_unconstrained_square rng r s = Some (a, c, why) →
  match why with
  | CornerSquare => c ∈ corners s.1
  | EdgeSquare => c ∈ edges s.1 ∧ ∀ x, x ∈ corners s.1 → unknown s.1 x = false
  | InteriorSquare =>
      c ∈ interior s.1
      ∧ ∀ x, in_grid s.1 x.1 x.2 = true → unknown s.1 x = true →
             x ∈ interior s.1 ∧ overlap s.1 s.2 x ≤ overlap s.1 s.2 c
  | LastResort => False
  end.
Proof.
  intros _ Hh Hw E. pose proof (choose_unconstrained_square_cases rng r s Hh Hw) as H.
  rewrite E in H. by destruct H as (_ & _ & _ & H).
Qed.

Lemma choose_unconstrained_square_reason_is_true_witness :
  (1, 1) ∈ interior ring_board
  ∧ ∀ x, in_grid ring_board x.1 x.2 = true → unknown ring_board x = true →
         x ∈ interior ring_board
         ∧ overlap ring_board [] x ≤ overlap ring_board [] (1, 1).
Proof.
  apply (choose_unconstrained_square_reason_is_true [] 0 (ring_board, []) Probe (1, 1)
           InteriorSquare); reflexivity.
Defined.

(** ** The components of find_coupled_constraints *)

(** What one run of the loop over constraint_graph[node] adds. *)
Lemma visit_fold_added (nbs : list nat) : ∀ st,
  ∃ added,
    (foldl visit st nbs).2 = (st.2 ++ added)
    ∧ NoDup added
    ∧ (∀ x, x ∈ added → (x ∉ st.1) ∧ x ∈ nbs)
    ∧ (∀ x, x ∈ (foldl visit st nbs).1 ↔ x ∈ st.1 ∨ x ∈ added)
    ∧ (∀ x, x ∈ nbs → x ∈ (foldl visit st nbs).1).
Proof.
  induction nbs as [|nb nbs IH]; intros st; cbn [foldl].
  { exists []. rewrite app_nil_r. split_and!; [done|constructor|..].
    - intros x Hx. by apply elem_of_nil in Hx.
    - intros x. rewrite elem_of_nil. tauto.
    - intros x Hx. by apply elem_of_nil in Hx. }
  destruct (IH (visit st nb)) as (added & E & Hnd & Hnew & Hmem & Hnbs).
  destruct (decide (nb ∈ st.1)) as [Hin | Hnin].
  - assert (visit st nb = st) as Ev.
    { unfold visit. rewrite bool_decide_false; [done|]. by intros ?. }
    rewrite Ev in *. exists added. split_and!; [done|done| |done|].
    + intros x Hx. apply Hnew in Hx as [Hx1 Hx2]. split; [done|by right].
    + intros x [-> | Hx]%elem_of_cons; [|by apply Hnbs].
      apply Hmem. by left.
  - assert (visit st nb = ({[nb]} ∪ st.1, st.2 ++ [nb])) as Ev.
    { unfold visit. by rewrite bool_decide_true. }
    rewrite Ev in *. simpl in *. exists (nb :: added). split_and!.
    + rewrite E. by rewrite <- app_assoc.
    + constructor; [|done]. intros Hin. apply Hnew in Hin as [Hin _]. set_solver.
    + intros x [-> | Hx]%elem_of_cons; [split; [done|by left]|].
      apply Hnew in Hx as [Hx1 Hx2]. split; [set_solver|by right].
    + intros x. rewrite Hmem, elem_of_cons. set_solver.
    + intros x [-> | Hx]%elem_of_cons; [|by apply Hnbs].
      apply Hmem. left. set_solver.
Qed.

(** The breadth-first search of one component, started above the set
    [V0] of the indices visited before. *)
Lemma component_bfs_inv cs (V0 : gset nat) (seed : nat) fuel : ∀ visited queue component r,
  NoDup (component ++ queue) →
  (∀ x, x ∈ visited ↔ x ∈ V0 ∨ x ∈ component ++ queue) →
  (∀ x, x ∈ component ++ queue → x ∉ V0) →
  (∀ x nb, x ∈ component → nb ∈ constraint_graph cs x → nb ∈ visited) →
  (∀ x, x ∈ component ++ queue → (x < length cs)%nat) →
  (∀ x, x ∈ component ++ queue → rtc (λ a b, b ∈ constraint_graph cs a) seed x) →
  component_bfs fuel cs visited queue component = Some r →
  NoDup r.2
  ∧ (∀ x, x ∈ r.1 ↔ x ∈ V0 ∨ x ∈ r.2)
  ∧ (∀ x, x ∈ r.2 → x ∉ V0)
  ∧ (∀ x nb, x ∈ r.2 → nb ∈ constraint_graph cs x → nb ∈ r.1)
  ∧ (∀ x, x ∈ component ++ queue → x ∈ r.2)
  ∧ (∀ x, x ∈ r.2 → (x < length cs)%nat)
  ∧ (∀ x, x ∈ r.2 → rtc (λ a b, b ∈ constraint_graph cs a) seed x).
Proof.
  induction fuel as [|fuel IH];
    intros visited queue component r Hnd Hv Hd Hcl Hlt Hreach Hrun.
  - destruct queue; simplify_eq/=. rewrite app_nil_r in *. done.
  - destruct queue as [|node rest]; simplify_eq/=.
    { rewrite app_nil_r in *. done. }
    destruct (visit_fold_added (constraint_graph cs node) (visited, rest))
      as (added & E & Hand & Hnew & Hmem & Hnbs).
    simpl in *.
    assert (component ++ node :: rest ≡ₚ (component ++ [node]) ++ rest) as HP
      by (by rewrite <- app_assoc).
    destruct (IH (foldl visit (visited, rest) (constraint_graph cs node)).1
                 (foldl visit (visited, rest) (constraint_graph cs node)).2
                 (component ++ [node]) r) as (I1 & I2 & I3 & I4 & I5 & I6 & I7);
      [ | | | | | |exact Hrun|].
    + rewrite E, app_assoc. apply NoDup_app. split; [by rewrite <- HP|]. split; [|done].
      intros x Hx Hin. apply Hnew in Hin as [Hin _]. apply Hin, Hv. right. by rewrite HP.
    + intros x. rewrite Hmem, Hv, E, app_assoc, HP, (elem_of_app _ added). tauto.
    + intros x. rewrite E, app_assoc, <- HP, elem_of_app.
      intros [Hx | Hx]; [by apply Hd|].
      apply Hnew in Hx as [Hx _]. intros HV0. apply Hx, Hv. by left.
    + intros x nb [Hx | ->%list_elem_of_singleton]%elem_of_app Hg.
      * apply Hmem. left. by eapply Hcl.
      * by apply Hnbs.
    + intros x. rewrite E, app_assoc, <- HP, elem_of_app.
      intros [Hx | Hx]; [by apply Hlt|].
      apply Hnew in Hx as [_ Hx]. by eapply constraint_graph_lt.
    + intros x. rewrite E, app_assoc, <- HP, elem_of_app.
      intros [Hx | Hx]; [by apply Hreach|].
      apply Hnew in Hx as [_ Hx]. eapply rtc_r; [|exact Hx].
      apply Hreach. apply elem_of_app. right. by left.
    + split_and!; try done. intros x Hx. apply I5.
      rewrite E, app_assoc, <- HP, elem_of_app. by left.
Qed.

Lemma join_omap {A B} (f : A → option B) (ls : list (list A)) :
  mjoin (map (omap f) ls) = omap f (mjoin ls).
Proof.
  induction ls as [|l ls IH]; simpl; [done|]. by rewrite IH, omap_app.
Qed.

Lemma coupled_from_inv cs : ∀ indices visited idxs comps,
  components_inv cs visited idxs →
  (∀ i, i ∈ indices → (i < length cs)%nat) →
  coupled_from cs visited (map (omap (λ idx, cs !! idx)) idxs) indices = Some comps →
  ∃ visited' idxs',
    comps = map (omap (λ idx, cs !! idx)) idxs'
    ∧ components_inv cs visited' idxs'
    ∧ (∀ x, x ∈ visited → x ∈ visited')
    ∧ (∀ i, i ∈ indices → i ∈ visited').
Proof.
  induction indices as [|i indices IH]; intros visited idxs comps Hinv Hlt Hrun;
    simpl in Hrun.
  { injection Hrun as <-. exists visited, idxs. split_and!; auto.
    intros i Hi. by apply elem_of_nil in Hi. }
  assert (∀ j, j ∈ indices → (j < length cs)%nat) as Hlt' by (intros; apply Hlt; by right).
  case_bool_decide as Hnew.
  2:{ destruct (IH visited idxs comps Hinv Hlt' Hrun) as (V' & idxs' & E & Hinv' & Hsub & Hin).
      exists V', idxs'. split_and!; auto.
      intros j [-> | Hj]%elem_of_cons; [|by apply Hin].
      by apply Hsub. }
  destruct (component_bfs (length cs) cs ({[i]} ∪ visited) [i] []) as [r|] eqn:Hbfs;
    [|done].
  simpl in Hrun.
  destruct (component_bfs_inv cs visited i (length cs) ({[i]} ∪ visited) [i] [] r)
    as (R1 & R2 & R3 & R4 & R5 & R6 & R7); [..|exact Hbfs|].
  { simpl. apply NoDup_singleton. }
  { intros x. simpl. rewrite list_elem_of_singleton. set_solver. }
  { intros x. simpl. rewrite list_elem_of_singleton. by intros ->. }
  { intros x nb Hx. by apply elem_of_nil in Hx. }
  { intros x. simpl. rewrite list_elem_of_singleton. intros ->. apply Hlt. by left. }
  { intros x. simpl. rewrite list_elem_of_singleton. by intros ->. }
  destruct Hinv as (N1 & N2 & Nb & N3 & N4 & N5).
  assert (components_inv cs r.1 (idxs ++ [r.2])) as Hinv'.
  { split_and!.
    - rewrite join_app. simpl. rewrite app_nil_r. apply NoDup_app.
      split; [done|]. split; [|done]. intros x Hx Hr. apply (R3 x Hr). by apply N2.
    - intros x. rewrite join_app. simpl. rewrite app_nil_r, elem_of_app, R2, N2. done.
    - intros x Hx. apply R2 in Hx as [Hx | Hx]; auto.
    - intros x nb Hx Hg. apply R2 in Hx as [Hx | Hx]; [|by eapply R4].
      apply R2. left. by eapply N3.
    - intros a b A B x y Hab HA HB Hx Hy.
      apply lookup_app_Some in HB as [HB | [Hlen HB]].
      + apply (N4 a b A B x y Hab); [|done..].
        rewrite lookup_app_l in HA; [done|]. apply lookup_lt_Some in HB. lia.
      + apply list_lookup_singleton_Some in HB as [Hb0 <-].
        rewrite lookup_app_l in HA by lia.
        assert (x ∈ visited) as Hxv.
        { apply N2. apply list_elem_of_join. exists A. split; [done|].
          by eapply list_elem_of_lookup_2. }
        split.
        * intros ->. by apply (R3 y).
        * intros Hg. apply (R3 y Hy). by eapply N3.
    - intros A [HA | ->%list_elem_of_singleton]%elem_of_app; [by apply N5|].
      exists i. split; [|done]. apply R5. simpl. by left. }
  change (map (omap (λ idx, cs !! idx)) idxs ++ [omap (λ idx, cs !! idx) r.2])
    with (map (omap (λ idx, cs !! idx)) idxs ++ map (omap (λ idx, cs !! idx)) [r.2]) in Hrun.
  rewrite <- map_app in Hrun.
  destruct (IH r.1 (idxs ++ [r.2]) comps Hinv' Hlt' Hrun)
    as (V' & idxs' & E & Hinv'' & Hsub & Hin).
  exists V', idxs'. split_and!; auto.
  - intros x Hx. apply Hsub, R2. by left.
  - intros j [-> | Hj]%elem_of_cons; [|by apply Hin].
    apply Hsub, R2. right. apply R5. simpl. by left.
Qed.

Lemma omap_fmap_compose {A B C} (f : B → option C) (g : A → B) (l : list A) :
  omap f (g <$> l) = omap (λ x, f (g x)) l.
Proof.
  induction l as [|x l IH]; simpl; [done|].
  destruct (f (g x)); [f_equal|]; exact IH.
Qed.

Lemma omap_lookup_seq {A} (l : list A) :
  omap (λ idx, l !! idx) (seq 0 (length l)) = l.
Proof.
  induction l as [|x l IH]; [done|].
  cbn [length seq omap]. simpl. f_equal.
  rewrite <- fmap_S_seq, omap_fmap_compose. exact IH.
Qed.

Lemma shares_variable_spec c1 c2 :
  shares_variable c1 c2 = true ↔ ∃ v, v ∈ variables c1 ∧ v ∈ variables c2.
Proof.
  unfold shares_variable. rewrite existsb_exists. split.
  - intros (v & Hin & Hv). apply list_elem_of_In, elem_of_elements in Hin.
    apply bool_decide_eq_true in Hv. eauto.
  - intros (v & H1 & H2). exists v. split; [by apply list_elem_of_In, elem_of_elements|].
    by apply bool_decide_eq_true.
Qed.

Lemma elem_of_constraint_graph cs x y c1 :
  cs !! x = Some c1 →
  y ∈ constraint_graph cs x ↔ x ≠ y ∧ ∃ c2, cs !! y = Some c2 ∧ shares_variable c1 c2 = true.
Proof.
  intros Hx. unfold constraint_graph. rewrite Hx, list_elem_of_omap. split.
  - intros ([k c] & Hin & Hf). apply elem_of_lookup_imap_1 in Hin as (k' & c' & [= -> ->] & Hk).
    simpl in Hf. destruct (negb (x =? k')%nat) eqn:Hne; [|done].
    destruct (shares_variable c1 c') eqn:Hs; simplify_eq/=.
    apply negb_true_iff, Nat.eqb_neq in Hne. eauto.
  - intros (Hne & c2 & Hy & Hs). exists (y, c2). split.
    + apply elem_of_lookup_imap. eauto.
    + simpl. rewrite Hs. apply Nat.eqb_neq in Hne. by rewrite Hne.
Qed.

Lemma find_coupled_constraints_inv cs comps :
  find_coupled_constraints cs = Some comps →
  ∃ visited idxs,
    comps = map (omap (λ idx, cs !! idx)) idxs
    ∧ components_inv cs visited idxs
    ∧ mjoin idxs ≡ₚ seq 0 (length cs).
Proof.
  intros Hrun. unfold find_coupled_constraints in Hrun.
  destruct (coupled_from_inv cs (seq 0 (length cs)) ∅ [] comps)
    as (V & idxs & E & Hinv & _ & Hall); [| |exact Hrun|].
  { split_and!; simpl.
    - constructor.
    - intros x. rewrite elem_of_nil. set_solver.
    - set_solver.
    - set_solver.
    - intros a b A B x y _ HA. done.
    - intros A HA. by apply elem_of_nil in HA. }
  { intros i Hi%elem_of_seq. lia. }
  exists V, idxs. split; [done|]. split; [done|].
  destruct Hinv as (N1 & N2 & Nb & _).
  apply NoDup_Permutation; [done|apply NoDup_seq|].
  intros x. rewrite <- N2, elem_of_seq. split.
  - intros Hx. apply Nb in Hx. lia.
  - intros Hx. apply Hall, elem_of_seq. lia.
Qed.

(** X12.  find_coupled_constraints splits the constraint list: the
    components, put one after the other, are a rearrangement of the list
    (every constraint is in exactly one component, as often as it occurs
    in the list), and constraints of two different components have no
    variable in common. *)
Theorem find_coupled_constraints_partitions (cs : list Constraint)
    (comps : list (list Constraint)) :
  find_coupled_constraints cs = Some comps →
  mjoin comps ≡ₚ cs
  ∧ ∀ a b A B c1 c2, a ≠ b → comps !! a = Some A → comps !! b = Some B →
       c1 ∈ A → c2 ∈ B → variables c1 ## variables c2.
Proof.
  intros Hrun.
  destruct (find_coupled_constraints_inv cs comps Hrun) as (V & idxs & -> & Hinv & HP).
  split.
  - rewrite join_omap, HP. by rewrite omap_lookup_seq.
  - destruct Hinv as (_ & _ & _ & _ & Hsep & _).
    assert (∀ a b A B c1 c2, (a < b)%nat →
              map (omap (λ idx, cs !! idx)) idxs !! a = Some A →
              map (omap (λ idx, cs !! idx)) idxs !! b = Some B →
              c1 ∈ A → c2 ∈ B → variables c1 ## variables c2) as Hlt.
    { intros a b A B c1 c2 Hab HA HB H1 H2.
      rewrite list_lookup_fmap in HA, HB.
      destruct (idxs !! a) as [IA|] eqn:EA; [|done].
      destruct (idxs !! b) as [IB|] eqn:EB; [|done].
      simpl in HA, HB. simplify_eq.
      apply list_elem_of_omap in H1 as (x & Hx & Hc1).
      apply list_elem_of_omap in H2 as (y & Hy & Hc2).
      destruct (Hsep a b IA IB x y Hab EA EB Hx Hy) as [Hne Hg].
      apply elem_of_disjoint. intros v Hv1 Hv2. apply Hg.
      apply (elem_of_constraint_graph cs x y c1 Hc1). split; [done|].
      exists c2. split; [done|]. apply shares_variable_spec. eauto. }
    intros a b A B c1 c2 Hne HA HB H1 H2.
    destruct (decide (a < b)%nat) as [Hab | Hab].
    + by eapply (Hlt a b).
    + symmetry. eapply (Hlt b a); [lia|done..].
Qed.

Lemma find_coupled_constraints_partitions_witness :
  mjoin [[mkConstraint {[ (0, 1) ]} 1; mkConstraint {[ (0, 1); (0, 3) ]} 1];
         [mkConstraint {[ (0, 5) ]} 1]]
  ≡ₚ [mkConstraint {[ (0, 1) ]} 1; mkConstraint {[ (0, 5) ]} 1;
       mkConstraint {[ (0, 1); (0, 3) ]} 1]
  ∧ ∀ a b A B c1 c2, a ≠ b →
       [[mkConstraint {[ (0, 1) ]} 1; mkConstraint {[ (0, 1); (0, 3) ]} 1];
        [mkConstraint {[ (0, 5) ]} 1]] !! a = Some A →
       [[mkConstraint {[ (0, 1) ]} 1; mkConstraint {[ (0, 1); (0, 3) ]} 1];
        [mkConstraint {[ (0, 5) ]} 1]] !! b = Some B →
       c1 ∈ A → c2 ∈ B → variables c1 ## variables c2.
Proof.
  apply (find_coupled_constraints_partitions
           [mkConstraint {[ (0, 1) ]} 1; mkConstraint {[ (0, 5) ]} 1;
            mkConstraint {[ (0, 1); (0, 3) ]} 1]).
  vm_compute. reflexivity.
Defined.

(** X13.  Every component of find_coupled_constraints is coupled:
    it has a constraint from which each of its constraints is reached by
    a chain of constraints of the list in which neighbours share a
    variable. *)
Theorem find_coupled_constraints_components_are_coupled (cs : list Constraint)
    (comps : list (list Constraint)) (comp : list Constraint) :
  find_coupled_constraints cs = Some comps → comp ∈ comps →
  ∃ c0, c0 ∈ comp ∧ ∀ c, c ∈ comp → rtc (coupled cs) c0 c.
Proof.
  intros Hrun Hcomp.
  destruct (find_coupled_constraints_inv cs comps Hrun) as (V & idxs & -> & Hinv & HP).
  destruct Hinv as (_ & _ & _ & _ & _ & Hreach).
  apply list_elem_of_fmap in Hcomp as (A & -> & HA).
  destruct (Hreach A HA) as (seed & Hseed & Hrtc).
  assert (∀ x, x ∈ A → (x < length cs)%nat) as Hlt.
  { intros x Hx. assert (x ∈ seq 0 (length cs)) as Hs.
    { rewrite <- HP. apply list_elem_of_join. eauto. }
    apply elem_of_seq in Hs. lia. }
  destruct (lookup_lt_is_Some_2 cs seed (Hlt seed Hseed)) as [c0 Hc0].
  exists c0. split; [apply list_elem_of_omap; eauto|].
  intros c (x & Hx & Hc)%list_elem_of_omap.
  specialize (Hrtc x Hx). clear Hx Hseed.
  revert c Hc. revert x Hrtc.
  apply (rtc_ind_r (λ z, ∀ c, cs !! z = Some c → rtc (coupled cs) c0 c) seed).
  - intros c Hc. simplify_eq. done.
  - intros y z Hxy Hyz IH c Hc. destruct (cs !! y) as [cy|] eqn:Hcy.
    2:{ unfold constraint_graph in Hyz. rewrite Hcy in Hyz. by apply elem_of_nil in Hyz. }
    destruct (proj1 (elem_of_constraint_graph cs y z cy Hcy) Hyz) as (Hne & c2 & Hc2 & Hs).
    assert (c2 = c) as -> by congruence.
    eapply rtc_r; [by apply IH|].
    split; [by eapply list_elem_of_lookup_2|]. split; [by eapply list_elem_of_lookup_2|].
    by apply shares_variable_spec.
Qed.

Lemma find_coupled_constraints_components_are_coupled_witness :
  ∃ c0, c0 ∈ [mkConstraint {[ (0, 1) ]} 1; mkConstraint {[ (0, 1); (0, 3) ]} 1]
    ∧ ∀ c, c ∈ [mkConstraint {[ (0, 1) ]} 1; mkConstraint {[ (0, 1); (0, 3) ]} 1] →
           rtc (coupled [mkConstraint {[ (0, 1) ]} 1; mkConstraint {[ (0, 5) ]} 1;
                         mkConstraint {[ (0, 1); (0, 3) ]} 1]) c0 c.
Proof.
  apply (find_coupled_constraints_components_are_coupled
           [mkConstraint {[ (0, 1) ]} 1; mkConstraint {[ (0, 5) ]} 1;
            mkConstraint {[ (0, 1); (0, 3) ]} 1]
           [[mkConstraint {[ (0, 1) ]} 1; mkConstraint {[ (0, 1); (0, 3) ]} 1];
            [mkConstraint {[ (0, 5) ]} 1]]).
  - vm_compute. reflexivity.
  - by left.
Defined.

(** ** solve_constraints in terms of the satisfying assignments *)

Lemma certain_in_tally_None t vars :
  certain_in_tally t vars = None ↔
  ∀ v, v ∈ vars → default 0 (var_is_mine_count t !! v) ≠ 0
                  ∧ default 0 (var_is_mine_count t !! v) ≠ total_solutions t.
Proof.
  induction vars as [|x vars IH]; simpl.
  { split; [|done]. intros _ v Hv. by apply elem_of_nil in Hv. }
  destruct (default 0 (var_is_mine_count t !! x) =? 0) eqn:E.
  { apply Z.eqb_eq in E. split; [done|]. intros H. destruct (H x); [by left|done]. }
  destruct (_ =? total_solutions t) eqn:E'.
  { apply Z.eqb_eq in E'. split; [done|]. intros H. destruct (H x); [by left|done]. }
  apply Z.eqb_neq in E, E'. rewrite IH. split.
  - intros H v [-> | Hv]%elem_of_cons; auto.
  - intros H v Hv. apply H. by right.
Qed.

Lemma certain_in_tally_reason t vars a v r :
  certain_in_tally t vars = Some (a, v, r) →
  (a = Probe ∧ r = ClearInEverySolution) ∨ (a = Mark ∧ r = MineInEverySolution).
Proof.
  induction vars as [|x vars IH]; simpl; [done|].
  destruct (_ =? 0); [intros [= <- _ <-]; by left|].
  destruct (_ =? total_solutions t); [intros [= <- _ <-]; by right|done].
Qed.

Lemma filter_length_zero {A} (P : A → Prop) `{!∀ x, Decision (P x)} (l : list A) :
  length (filter P l) = 0%nat ↔ ∀ x, x ∈ l → ¬ P x.
Proof.
  split.
  - intros Hlen x Hx HP. assert (x ∈ filter P l) as Hin by (by apply list_elem_of_filter).
    destruct (filter P l); [by apply elem_of_nil in Hin|done].
  - intros Hno. destruct (filter P l) as [|y k] eqn:E; [done|].
    assert (y ∈ filter P l) as Hin by (rewrite E; by left).
    apply list_elem_of_filter in Hin as [HP Hy]. by destruct (Hno y).
Qed.

Lemma filter_length_full {A} (P : A → Prop) `{!∀ x, Decision (P x)} (l : list A) :
  length (filter P l) = length l ↔ ∀ x, x ∈ l → P x.
Proof.
  split; [intros Hlen x; by apply (filter_length_all P)|].
  induction l as [|y l IH]; intros Hall; [done|].
  rewrite filter_cons_True by (apply Hall; by left). simpl. f_equal.
  apply IH. intros x Hx. apply Hall. by right.
Qed.

(** X14.  The move of solve_constraints is forced by the constraints:
    its cell is a variable of the component, and in every assignment of
    the component's variables that satisfies all its constraints the cell
    is safe when the move is a probe and a mine when the move is a mark;
    the justification returned is the one of that case. *)
Theorem solve_constraints_move_is_forced (cs : list Constraint) (a : Action) (v : cell)
    (r : Reason) (W : gmap cell bool) :
  solve_constraints cs = Some (a, v, r) →
  dom W = all_variables cs → satisfies W cs →
  v ∈ all_variables cs
  ∧ W !! v = Some (match a with Probe => false | Mark => true end)
  ∧ r = match a with Probe => ClearInEverySolution | Mark => MineInEverySolution end.
Proof.
  unfold solve_constraints.
  destruct (total_solutions _ =? 0) eqn:Ht; [done|]. apply Z.eqb_neq in Ht.
  intros Hrun Hdom Hsat.
  destruct (enumerate_spec cs) as (L & _ & HL & Htot & Hcount).
  assert (W ∈ L) as HW by (by apply HL).
  pose proof (certain_in_tally_reason _ _ _ _ _ Hrun) as Hr.
  destruct a.
  - apply certain_in_tally_probe in Hrun as [Hv Hz]. apply elem_of_elements in Hv.
    split; [done|]. split; [|by destruct Hr as [[_ ->] | [? _]]].
    rewrite (Hcount v Hv) in Hz. simpl in Hz.
    assert (v ∈ dom W) as Hd by (by rewrite Hdom).
    apply elem_of_dom in Hd as [m Hm]. rewrite Hm. f_equal.
    destruct m; [|done]. exfalso.
    apply (proj1 (filter_length_zero (λ W : gmap cell bool, W !! v = Some true) L)
             ltac:(lia) W HW Hm).
  - apply certain_in_tally_mark in Hrun as [Hv Hz]. apply elem_of_elements in Hv.
    split; [done|]. split; [|by destruct Hr as [[? _] | [_ ->]]].
    rewrite (Hcount v Hv), Htot in Hz. simpl in Hz.
    apply (filter_length_all (λ W : gmap cell bool, W !! v = Some true) L); [lia|done].
Qed.

Lemma solve_constraints_move_is_forced_witness :
  (0, 3) ∈ all_variables [mkConstraint {[ (0, 1) ]} 1; mkConstraint {[ (0, 1); (0, 3) ]} 1]
  ∧ mine_at_1_only !! (0, 3) = Some false
  ∧ ClearInEverySolution = ClearInEverySolution.
Proof.
  apply (solve_constraints_move_is_forced
           [mkConstraint {[ (0, 1) ]} 1; mkConstraint {[ (0, 1); (0, 3) ]} 1]
           Probe (0, 3) ClearInEverySolution mine_at_1_only).
  - vm_compute. reflexivity.
  - apply (bool_decide_unpack _). vm_compute. exact I.
  - intros c Hc. apply list_elem_of_In in Hc.
    destruct Hc as [<- | [<- | []]]; vm_compute; reflexivity.
Defined.

(** X15.  solve_constraints returns None in two cases only: no
    assignment of the component's variables satisfies all constraints
    (the case the source calls a contradiction; nothing is raised), or
    every variable is a mine in some satisfying assignment and safe in
    another.  So it finds a move whenever the component is satisfiable
    and determines one of its cells. *)
Theorem solve_constraints_none_iff (cs : list Constraint) :
  solve_constraints cs = None ↔
  (∀ W, dom W = all_variables cs → ¬ satisfies W cs)
  ∨ (∀ v, v ∈ all_variables cs →
       (∃ W, dom W = all_variables cs ∧ satisfies W cs ∧ W !! v = Some true)
       ∧ (∃ W, dom W = all_variables cs ∧ satisfies W cs ∧ W !! v = Some false)).
Proof.
  unfold solve_constraints.
  destruct (enumerate_spec cs) as (L & _ & HL & Htot & Hcount).
  destruct (total_solutions _ =? 0) eqn:Ht.
  { apply Z.eqb_eq in Ht. split; [intros _|done]. left. intros W Hdom Hsat.
    assert (W ∈ L) as HW by (by apply HL).
    destruct L; [by apply elem_of_nil in HW|]. simpl in Htot. lia. }
  apply Z.eqb_neq in Ht. rewrite certain_in_tally_None. split.
  - intros Hnone. right. intros v Hv.
    destruct (Hnone v) as [H0 H1]; [by apply elem_of_elements|].
    rewrite (Hcount v Hv) in H0, H1. simpl in H0, H1. rewrite Htot in H1.
    split.
    + destruct (filter (λ W : gmap cell bool, W !! v = Some true) L) as [|W k] eqn:E;
        [done|].
      assert (W ∈ filter (λ W : gmap cell bool, W !! v = Some true) L) as Hin
        by (rewrite E; by left).
      apply list_elem_of_filter in Hin as [Hm HW]. apply HL in HW as [? ?]. eauto.
    + destruct (decide (Forall (λ W : gmap cell bool, W !! v = Some true) L)) as [Hall | Hex].
      { exfalso. apply H1. f_equal.
        apply filter_length_full. by apply Forall_forall. }
      apply not_Forall_Exists, Exists_exists in Hex as (W & HW & Hm); [|apply _].
      pose proof HW as HW'. apply HL in HW' as [Hdom Hsat].
      exists W. split; [done|]. split; [done|].
      assert (v ∈ dom W) as Hd by (by rewrite Hdom).
      apply elem_of_dom in Hd as [m Hm']. rewrite Hm' in *. by destruct m.
  - intros [Hunsat | Hfree].
    + exfalso. destruct L as [|W L']; [simpl in Htot; lia|].
      assert (W ∈ W :: L') as HW by (by left). apply HL in HW as [? ?]. by eapply Hunsat.
    + intros v Hv%elem_of_elements.
      destruct (Hfree v Hv) as [(W1 & D1 & S1 & M1) (W2 & D2 & S2 & M2)].
      rewrite (Hcount v Hv). simpl. rewrite Htot.
      assert (W1 ∈ L) as HW1 by (by apply HL). assert (W2 ∈ L) as HW2 by (by apply HL).
      split.
      * intros Hz.
        apply (proj1 (filter_length_zero (λ W : gmap cell bool, W !! v = Some true) L)
                 ltac:(lia) W1 HW1 M1).
      * intros Hz.
        pose proof (filter_length_all (λ W : gmap cell bool, W !! v = Some true) L W2
                      ltac:(lia) HW2) as Hm. simpl in Hm. congruence.
Qed.

(** ** The fields simplify_constraints leaves alone *)

Lemma simplify_constraints_flags s : same_flags s.1 (simplify_constraints s).1.
Proof.
  unfold simplify_constraints.
  assert (∀ l b, same_flags b (foldl reveal b l)) as Hrev.
  { induction l as [|v l IH]; intros b; simpl; [done|].
    destruct (IH (reveal b v)) as (? & ? & ? & ?). done. }
  assert (∀ l b, same_flags b (foldl (λ b v, mark_mine b v.1 v.2) b l)) as Hmark.
  { induction l as [|v l IH]; intros b; simpl; [done|].
    destruct (IH (mark_mine b v.1 v.2)) as (? & ? & ? & ?). done. }
  assert (∀ cs st, same_flags st.1 (foldl simplify_one st cs).1) as H.
  { induction cs as [|c cs IH]; intros st; simpl; [done|].
    destruct (IH (simplify_one st c)) as (I1 & I2 & I3 & I4).
    assert (same_flags st.1 (simplify_one st c).1) as (J1 & J2 & J3 & J4).
    { unfold simplify_one. case_bool_decide; [done|].
      destruct (_ =? 0); [apply Hrev|]. destruct (_ =? _); [apply Hmark|done]. }
    split_and!; congruence. }
  apply (H s.2 (s.1, [])).
Qed.

(** ** The moves of next_move *)

Lemma check_craps_shoot_move r b comp a v reason :
  check_craps_shoot r b comp = Some (Some (a, v, reason)) →
  a = Probe ∧ reason = CrapsShoot ∧ v ∈ all_variables comp.
Proof.
  unfold check_craps_shoot. destruct (existsb _ _); [done|].
  destruct (_ !! _) as [x|] eqn:E; simpl; [|done]. intros [= <- <- <-].
  split; [done|]. split; [done|].
  apply elem_of_elements. by eapply list_elem_of_lookup_2.
Qed.

Lemma try_components_cases r b comps m :
  try_components r b comps = Some (Some m) →
  ∃ comp, comp ∈ comps
    ∧ (check_craps_shoot r b comp = Some (Some m) ∨ solve_constraints comp = Some m).
Proof.
  induction comps as [|comp comps IH]; simpl; [done|].
  destruct (check_craps_shoot r b comp) as [[m'|]|] eqn:E; simpl; [| |done].
  - intros [= ->]. exists comp. split; [by left|by left].
  - destruct (solve_constraints comp) as [m'|] eqn:Es.
    + intros [= ->]. exists comp. split; [by left|by right].
    + intros H. destruct (IH H) as (comp' & ? & ?). exists comp'. split; [by right|done].
Qed.

(** What next_move returns on a sound state: the state it leaves is
    sound with the same hidden board, and a move is a correct certain
    move, a craps-shoot probe of a grid cell, or the move of steps 6/7. *)
Lemma next_move_cases guess r s om s' :
  sound_state s = true →
  next_move guess r s = Some (om, s') →
  sound_state s' = true
  ∧ board s'.1 = board s.1 ∧ width s'.1 = width s.1 ∧ height s'.1 = height s.1
  ∧ same_flags s.1 s'.1
  ∧ match om with
    | None => guess s' = None
    | Some (a, v, reason) =>
        (in_grid s'.1 v.1 v.2 = true
         ∧ is_mine s'.1 v = match a with Probe => false | Mark => true end)
        ∨ (a = Probe ∧ in_grid s'.1 v.1 v.2 = true)
        ∨ guess s' = Some (a, v, reason)
    end.
Proof.
  intros Hs. unfold next_move.
  destruct (simplify_constraints_sound s Hs) as (Hs1 & Eb & Ew & Eh).
  pose proof (simplify_constraints_flags s) as Hfl.
  set (s1 := simplify_constraints s) in *.
  destruct (simplify_constraints_by_subset s1.2) as [cs2|] eqn:Esub; simpl; [|done].
  apply sound_state_spec in Hs1 as (Hws & Hok & Hvs & Hmk & Hall).
  assert (all_hold s1.1 cs2 = true) as Hall2 by (by eapply subset_loop_holds).
  assert (sound_state (s1.1, cs2) = true) as Hs2 by (by apply sound_state_spec).
  destruct (find_certain_move s1.1 cs2) as [[[a v] reason]|] eqn:Ef.
  { intros [= <- <-]. split_and!; try done. left.
    apply (certain_move_correct s1.1 cs2 a v reason Hall2). by left. }
  destruct (find_coupled_constraints cs2) as [comps|] eqn:Ec; simpl; [|done].
  destruct (try_components r s1.1 comps) as [[[[a v] reason]|]|] eqn:Et; simpl; [| |done].
  - intros [= <- <-]. split_and!; try done.
    apply try_components_cases in Et as (comp & Hcomp & Hcase).
    assert (all_hold s1.1 comp = true) as Hallc.
    { apply all_hold_spec. intros c Hc. rewrite all_hold_spec in Hall2. apply Hall2.
      by eapply find_coupled_constraints_members. }
    destruct Hcase as [Hcraps | Hsolve].
    + right. left. apply check_craps_shoot_move in Hcraps as (-> & _ & Hv).
      split; [done|]. apply elem_of_all_variables in Hv as (c & Hc & Hv).
      rewrite all_hold_spec in Hallc. specialize (Hallc c Hc).
      apply holds_on_spec in Hallc as [Hgrid _]. by apply Hgrid.
    + left. apply (certain_move_correct s1.1 comp a v reason Hallc). by right.
  - intros [= <- <-]. split_and!; try done.
    destruct (guess (s1.1, cs2)) as [[[a v] reason]|] eqn:Eg; [|done].
    right. by right.
Qed.

Lemma next_move_no_constraints guess r b :
  next_move guess r (b, []) = Some (guess (b, []), (b, [])).
Proof. unfold next_move. simpl. by destruct (guess (b, [])). Qed.

(** ** Carrying out a probe *)

Lemma probe_any_sound s i j :
  sound_state s = true → first_move s.1 = false → in_grid s.1 i j = true →
  ∃ p b', probe s.1 i j = Some (p, b')
    ∧ first_move b' = false ∧ width b' = width s.1 ∧ height b' = height s.1
    ∧ sound_state (update_constraints (if p then b' else with_game_over b' true, s.2)) = true.
Proof.
  intros Hs Hf Hg. destruct (is_mine s.1 (i, j)) eqn:Hm.
  - exists false, (with_game_over s.1 true).
    unfold probe, first_move_guard. rewrite Hf.
    rewrite probe_after_guard_mine by done. split; [done|]. split; [done|].
    split; [done|]. split; [done|].
    apply update_constraints_sound. destruct s as [b cs]. exact Hs.
  - destruct (execute_probe_sound s i j Hs Hf Hg Hm) as (b' & E & _ & Hf' & Hs').
    exists true, b'. split; [done|]. split; [done|].
    pose proof Hs as Hs0. apply sound_state_spec in Hs0 as (Hws & _).
    destruct (first_move_guard_frame s.1 i j Hws Hg) as (_ & Ew & Eh & _).
    destruct (probe_true_inv s.1 i j b' E) as (vis2 & _ & _ & _ & _ & Ew' & Eh' & _).
    split; [congruence|]. split; [congruence|done].
Qed.

Lemma nothing_marked_spec b :
  nothing_marked b = true ↔ ∀ i j, in_grid b i j = true → is_marked b (i, j) = false.
Proof.
  unfold nothing_marked. rewrite forallb_positions.
  split; intros H i j Hg; specialize (H i j Hg); by destruct (is_marked b (i, j)).
Qed.

(** The state probe works on after its first-move guard is sound when
    nothing was visible or marked before. *)
Lemma first_move_guard_sound b i j :
  well_shaped b = true → counts_ok b = true →
  nothing_visible b = true → nothing_marked b = true → in_grid b i j = true →
  sound_state (first_move_guard b i j, []) = true
  ∧ probe b i j = probe (first_move_guard b i j) i j.
Proof.
  intros Hws Hok Hnv Hnm Hg.
  destruct (first_move_guard_frame b i j Hws Hg)
    as (Hws1 & Ew & Eh & _ & Ev & Emk & _ & _ & Hf1 & _).
  split.
  - apply sound_state_spec. simpl. split_and!; [done| | |  |done].
    + destruct (first_move_guard_cases b i j Hws Hg)
        as [[_ E]|[(_ & _ & E)|[(_ & _ & _ & E)|(_ & _ & c & _ & _ & _ & _ & Hc)]]];
        try (rewrite E; exact Hok). by apply Hc.
    + apply visible_safe_spec. intros x y Hxy Hv.
      rewrite nothing_visible_spec in Hnv. unfold is_visible in *. rewrite Ev in Hv.
      rewrite Hnv in Hv; [done|]. unfold in_grid in *. by rewrite <- Ew, <- Eh.
    + apply marks_ok_spec. intros x y Hxy Hv.
      rewrite nothing_marked_spec in Hnm. unfold is_marked in *. rewrite Emk in Hv.
      rewrite Hnm in Hv; [done|]. unfold in_grid in *. by rewrite <- Ew, <- Eh.
  - assert (∀ b0, first_move b0 = false → first_move_guard b0 i j = b0) as Hid.
    { intros b0 H0. unfold first_move_guard. by rewrite H0. }
    unfold probe. by rewrite (Hid (first_move_guard b i j)).
Qed.

(** ** Steps 6 and 7 *)

Lemma guess_steps_cases best rng r s :
  0 < height s.1 → 0 < width s.1 →
  (∀ s0 a0 v0 reason0, best s0 = Some (a0, v0, reason0) →
     a0 = Probe ∧ in_grid s0.1 v0.1 v0.2 = true ∧ reason0 = BestGuess) →
  match guess_steps best rng r s with
  | Some (a, v, reason) => a = Probe ∧ in_grid s.1 v.1 v.2 = true
  | None => ∀ i j, in_grid s.1 i j = true →
                   is_visible s.1 (i, j) = true ∨ is_marked s.1 (i, j) = true
  end.
Proof.
  intros Hh Hw Hbest. unfold guess_steps.
  destruct (best s) as [[[a v] reason]|] eqn:Eb.
  { by destruct (Hbest s a v reason Eb) as (? & ? & _). }
  pose proof (choose_unconstrained_square_cases rng r s Hh Hw) as Hc.
  destruct (choose_unconstrained_square rng r s) as [[[a v] why]|]; simpl.
  - by destruct Hc as (? & _ & ? & _).
  - intros i j Hg. specialize (Hc (i, j) Hg). unfold unknown in Hc.
    destruct (is_visible s.1 (i, j)), (is_marked s.1 (i, j)); auto.
Qed.

(** X16.  next_move with its step 7, on a sound solver state over a
    board with at least one row and column, for any make_best_guess that
    returns probes of grid cells only: when next_move returns None (the
    'No valid moves found' of the game loop), every cell of the grid is
    visible or marked on the board it leaves. *)
Theorem next_move_gives_up_only_on_full_board (best : CSPStrategy → option Move)
    (rng : list nat) (r1 r2 : nat) (s s' : CSPStrategy) (i j : Z) :
  (∀ s0 a0 v0 reason0, best s0 = Some (a0, v0, reason0) →
     a0 = Probe ∧ in_grid s0.1 v0.1 v0.2 = true ∧ reason0 = BestGuess) →
  sound_state s = true → 0 < height s.1 → 0 < width s.1 →
  next_move (guess_steps best rng r2) r1 s = Some (None, s') →
  in_grid s'.1 i j = true →
  is_visible s'.1 (i, j) = true ∨ is_marked s'.1 (i, j) = true.
Proof.
  intros Hbest Hs Hh Hw Hrun Hg.
  destruct (next_move_cases _ r1 s None s' Hs Hrun) as (_ & _ & Ew & Eh & _ & Hnone).
  pose proof (guess_steps_cases best rng r2 s' ltac:(lia) ltac:(lia) Hbest) as Hc.
  rewrite Hnone in Hc. by apply Hc.
Qed.

Lemma next_move_gives_up_only_on_full_board_witness :
  is_visible (full_board, @nil Constraint).1 (0, 0) = true
  ∨ is_marked (full_board, @nil Constraint).1 (0, 0) = true.
Proof.
  apply (next_move_gives_up_only_on_full_board (λ _, None) [] 0 0
           (full_board, []) (full_board, []) 0 0);
    [discriminate|reflexivity|reflexivity|reflexivity|reflexivity|reflexivity].
Defined.

Lemma play_ready_spec s :
  play_ready s = true ↔
  sound_state s = true
  ∧ (first_move s.1 = true → s.2 = [] ∧ nothing_visible s.1 = true ∧ nothing_marked s.1 = true).
Proof.
  unfold play_ready. rewrite andb_true_iff, orb_true_iff, !andb_true_iff, negb_true_iff.
  split.
  - intros [Hs [Hf | [[Hc Hv] Hm]]]; (split; [done|]); intros Hf'; [congruence|].
    by destruct s.2.
  - intros [Hs H]. split; [done|]. destruct (first_move s.1); [right|by left].
    destruct H as (-> & ? & ?); done.
Qed.

(** X17.  One turn of the game loop of play_minesweeper_ai and
    run_ai_solver (next_move, then probe with update_constraints, or
    mark_mine), for any make_best_guess that returns probes of grid cells
    only.  From a state that is sound (consistent counts, no visible
    mine, every mark on a mine, every constraint true of the hidden
    board) and that, before the first probe, has no constraint, visible
    cell or mark, the turn returns and leaves such a state again, on a
    board of the same dimensions.  A guess may lose the game; it never
    makes the solver's knowledge wrong. *)
Theorem play_turn_keeps_play_ready (best : CSPStrategy → option Move)
    (rng : list nat) (r1 r2 : nat) (s : CSPStrategy) :
  (∀ s0 a0 v0 reason0, best s0 = Some (a0, v0, reason0) →
     a0 = Probe ∧ in_grid s0.1 v0.1 v0.2 = true ∧ reason0 = BestGuess) →
  0 < height s.1 → 0 < width s.1 →
  play_ready s = true →
  ∃ moved s', play_turn best rng r1 r2 s = Some (moved, s')
    ∧ play_ready s' = true
    ∧ height s'.1 = height s.1 ∧ width s'.1 = width s.1.
Proof.
  intros Hbest Hh Hw [Hs Hfirst]%play_ready_spec. unfold play_turn.
  destruct (first_move s.1) eqn:Hf.
  - (* the first turn: no constraints yet *)
    destruct s as [b cs]. simpl in *. destruct (Hfirst eq_refl) as (-> & Hnv & Hnm).
    rewrite next_move_no_constraints.
    pose proof (guess_steps_cases best rng r2 (b, []) Hh Hw Hbest) as Hc.
    destruct (guess_steps best rng r2 (b, [])) as [[[a v] reason]|].
    2:{ exists false, (b, []). split; [done|]. split; [|done].
        apply play_ready_spec. split; [done|]. simpl. by rewrite Hf. }
    destruct Hc as [-> Hg]. simpl in Hg.
    apply sound_state_spec in Hs as (Hws & Hok & _).
    destruct (first_move_guard_sound b v.1 v.2 Hws Hok Hnv Hnm Hg) as [Hs1 Ep].
    destruct (first_move_guard_frame b v.1 v.2 Hws Hg)
      as (_ & Ew & Eh & _ & _ & _ & _ & _ & Hf1 & _).
    set (b1 := first_move_guard b v.1 v.2) in *.
    destruct (probe_any_sound (b1, []) v.1 v.2 Hs1 Hf1) as (p & b' & E & Hf' & Ew' & Eh' & Hs').
    { unfold in_grid in *. simpl. by rewrite Ew, Eh. }
    simpl in *. rewrite Ep, E. eexists true, _. split; [done|].
    split; [|destruct p; simpl; split; congruence].
    apply play_ready_spec. split; [done|]. destruct p; simpl; congruence.
  - destruct (next_move_returns (guess_steps best rng r2) r1 s) as [[om s'] Hrun].
    rewrite Hrun.
    destruct (next_move_cases _ r1 s om s' Hs Hrun)
      as (Hs' & Eb & Ew & Eh & (_ & Hf' & _ & _) & Hcase).
    assert (first_move s'.1 = false) as Hf1 by congruence.
    pose proof (guess_steps_cases best rng r2 s' ltac:(lia) ltac:(lia) Hbest) as Hc.
    destruct om as [[[a v] reason]|].
    2:{ exists false, s'. split; [done|]. split; [|done].
        apply play_ready_spec. split; [done|]. congruence. }
    assert (in_grid s'.1 v.1 v.2 = true
            ∧ (a = Mark → is_mine s'.1 v = true)) as [Hg Hmark].
    { destruct Hcase as [[Hg Hm] | [[-> Hg] | Hguess]].
      - split; [done|]. by intros ->.
      - split; [done|]. done.
      - rewrite Hguess in Hc. destruct Hc as [-> Hg]. split; [done|]. done. }
    destruct a.
    + destruct (probe_any_sound s' v.1 v.2 Hs' Hf1 Hg) as (p & b' & E & Hfb & Ew' & Eh' & Hsb).
      rewrite E. eexists true, _. split; [done|].
      split; [|destruct p; simpl; split; congruence].
      apply play_ready_spec. split; [done|]. destruct p; simpl; congruence.
    + eexists true, _. split; [done|]. split; [|simpl; split; congruence].
      apply play_ready_spec. split; [|simpl; congruence].
      destruct v as [x y]. apply (execute_mark_sound s' x y Hs' Hg). by apply Hmark.
Qed.

Lemma play_turn_keeps_play_ready_witness :
  ∃ moved s', play_turn (λ _, None) [] 0 0 (corner_mine_board, []) = Some (moved, s')
    ∧ play_ready s' = true
    ∧ height s'.1 = height (corner_mine_board, @nil Constraint).1
    ∧ width s'.1 = width (corner_mine_board, @nil Constraint).1.
Proof.
  apply (play_turn_keeps_play_ready (λ _, None) [] 0 0 (corner_mine_board, []));
    [discriminate|reflexivity|reflexivity|reflexivity].
Defined.

(** ** np.sum over the visibility array counts the visible cells *)

Lemma row_sum_spec (row : list bool) : ∀ acc,
  foldl (λ acc (x : bool), if x then acc + 1 else acc) acc row
  = acc + Z.of_nat (length (filter (λ x, x = true) row)).
Proof.
  induction row as [|x row IH]; intros acc; simpl; [lia|].
  rewrite IH, filter_cons. destruct x.
  - rewrite decide_True by done. rewrite length_cons. lia.
  - rewrite decide_False by done. done.
Qed.

Lemma length_filter_bind {A B} (P : B → Prop) `{!∀ x, Decision (P x)}
    (f : A → list B) (l : list A) :
  length (filter P (l ≫= f)) = sum_list ((λ x, length (filter P (f x))) <$> l).
Proof.
  induction l as [|x l IH]; [done|].
  change ((x :: l) ≫= f) with (f x ++ (l ≫= f)).
  rewrite filter_app, length_app, IH. done.
Qed.

(** The entries of one row that are True, by index. *)
Lemma row_count_by_index (row : list bool) :
  length (filter (λ j, default false (row !! Z.to_nat j) = true)
                 (seqZ 0 (Z.of_nat (length row))))
  = length (filter (λ x, x = true) row).
Proof.
  induction row as [|x row IH] using rev_ind; [done|].
  rewrite length_app. simpl. rewrite Nat.add_1_r, seqZ_S, !filter_app, !length_app.
  f_equal.
  - rewrite <- IH. f_equal. apply filter_ext_in. intros j Hj.
    apply elem_of_seqZ in Hj. rewrite lookup_app_l by lia. done.
  - simpl. rewrite !filter_cons, !filter_nil.
    replace (Z.to_nat (0 + Z.of_nat (length row))) with (length row) by lia.
    rewrite lookup_app_r by lia. rewrite Nat.sub_diag. simpl.
    destruct x; [by rewrite !decide_True|by rewrite !decide_False].
Qed.

Lemma length_filter_singletons {A B} (P : B → Prop) `{!∀ x, Decision (P x)}
    (f : A → B) (l : list A) :
  length (filter P (l ≫= λ x, [f x])) = length (filter (λ x, P (f x)) l).
Proof.
  induction l as [|x l IH]; [done|].
  change ((x :: l) ≫= λ x, [f x]) with (f x :: (l ≫= λ x, [f x])).
  rewrite !filter_cons. destruct (decide (P (f x))); simpl; by rewrite IH.
Qed.

Lemma row_filter_length (vis : list (list bool)) (i w : Z) (row : list bool) :
  0 ≤ i → vis !! Z.to_nat i = Some row → w = Z.of_nat (length row) →
  length (filter (λ c : cell, get2 false vis c.1 c.2 = true) (seqZ 0 w ≫= λ j, [(i, j)]))
  = length (filter (λ x, x = true) row).
Proof.
  intros Hi Hrow ->.
  rewrite (length_filter_singletons (λ c : cell, get2 false vis c.1 c.2 = true) (λ j, (i, j))).
  rewrite <- row_count_by_index. f_equal. apply filter_ext_in. intros j Hj.
  apply elem_of_seqZ in Hj. unfold get2. simpl.
  rewrite bool_decide_true by lia. by rewrite Hrow.
Qed.

Lemma np_sum_spec h w (vis : list (list bool)) :
  shape h w vis = true →
  np_sum vis
  = Z.of_nat (length (filter (λ c, get2 false vis c.1 c.2 = true) (positions h w))).
Proof.
  intros Hs. apply shape_spec in Hs as (Hh & Hw & Hlen & Hrows).
  assert (h = Z.of_nat (length vis)) as -> by lia. clear Hlen Hh.
  unfold np_sum, positions.
  assert (∀ acc, foldl (λ acc row, foldl (λ acc (x : bool), if x then acc + 1 else acc) acc row)
                       acc vis
                 = acc + Z.of_nat (sum_list ((λ row, length (filter (λ x, x = true) row))
                                             <$> vis))) as ->.
  { clear. induction vis as [|row vis IH]; intros acc; [simpl; lia|].
    cbn [foldl]. rewrite IH, row_sum_spec.
    change (sum_list ((λ row, length (filter (λ x, x = true) row)) <$> row :: vis))
      with (length (filter (λ x, x = true) row)
            + sum_list ((λ row, length (filter (λ x, x = true) row)) <$> vis))%nat.
    lia. }
  rewrite (length_filter_bind (λ c : cell, get2 false vis c.1 c.2 = true)).
  rewrite Z.add_0_l. do 2 f_equal. symmetry.
  apply list_eq. intros k. rewrite !list_lookup_fmap.
  destruct (decide (k < length vis)%nat) as [Hk | Hk].
  - rewrite lookup_seqZ_lt by lia.
    destruct (lookup_lt_is_Some_2 vis k Hk) as [row Hrow]. rewrite Hrow. simpl. f_equal.
    apply row_filter_length;
      [lia|by replace (Z.to_nat (0 + Z.of_nat k)) with k by lia|].
    assert (length row = Z.to_nat w) as Hl by (eapply Hrows, list_elem_of_lookup_2; done).
    lia.
  - rewrite lookup_seqZ_ge by lia. rewrite lookup_ge_None_2 by lia. done.
Qed.

(** ** The win check of probe *)

Lemma first_move_guard_mine_total b i j :
  well_shaped b = true → in_grid b i j = true →
  mine_total (first_move_guard b i j) = mine_total b.
Proof.
  intros Hws Hg.
  destruct (first_move_guard_cases b i j Hws Hg)
    as [[_ E]|[(_ & _ & E)|[(_ & _ & _ & E)|(Hf & Hm & c & Hc & Hsame & Hs & Hmines & _)]]];
    try (rewrite E; reflexivity).
  destruct Hsame as (Hw & Hh & _). simpl in Hw, Hh.
  apply first_safe_cell_Some in Hc as [Hc1 Hc2].
  by apply (mine_total_swap b _ i j c).
Qed.

(** The state after the first-move guard, on a board whose visible
    cells are safe. *)
Lemma first_move_guard_safe_state b i j :
  well_shaped b = true → counts_ok b = true → visible_safe b = true →
  (first_move b = true → nothing_visible b = true) →
  in_grid b i j = true →
  well_shaped (first_move_guard b i j) = true
  ∧ counts_ok (first_move_guard b i j) = true
  ∧ visible_safe (first_move_guard b i j) = true.
Proof.
  intros Hws Hok Hvs Hfirst Hg. set (b1 := first_move_guard b i j).
  pose proof Hws as Hws'. apply well_shaped_spec in Hws' as (Hsb & Hsv & Hsm).
  destruct (first_move_guard_cases b i j Hws Hg)
    as [[_ E]|[(_ & _ & E)|[(_ & _ & _ & E)|(Hf & Hm & c & Hc & Hsame & Hs & Hmines & Hcnt)]]];
    fold b1 in E || fold b1 in Hsame, Hs, Hmines, Hcnt; try (rewrite E; done).
  destruct Hsame as (Hw & Hh & _ & Hv & Hmk & _). simpl in *.
  split_and!; [|by apply Hcnt|].
  - apply well_shaped_spec. by rewrite Hw, Hh, Hv, Hmk.
  - apply visible_safe_spec. intros x y Hxy.
    specialize (Hfirst Hf). rewrite nothing_visible_spec in Hfirst.
    unfold is_visible. rewrite Hv. fold (is_visible b (x, y)).
    rewrite Hfirst; [done|]. unfold in_grid in *. by rewrite <- Hw, <- Hh.
Qed.

Lemma safe_cells_count b :
  0 ≤ height b → 0 ≤ width b →
  Z.of_nat (length (filter (λ c, is_mine b c = false) (positions (height b) (width b))))
  = width b * height b - mine_total b.
Proof.
  intros Hh Hw. unfold mine_total.
  pose proof (filter_app_complement (λ c, is_mine b c = true)
                (positions (height b) (width b))) as HP.
  apply Permutation_length in HP. rewrite length_app, length_positions in HP.
  rewrite (list_filter_iff (λ c, is_mine b c = false) (λ c, ¬ is_mine b c = true)).
  - nia.
  - intros c. by destruct (is_mine b c).
Qed.

(** X18.  The win check of probe (lines 94-96).  On a board of
    consistent counts with num_mines mines on which no visible cell is a
    mine and won is not set, a probe that sets won leaves exactly the
    cells without a mine visible: every safe cell of the grid is open and
    no mine is. *)
Theorem probe_won_means_all_safe_cells_open (b : MinesweeperBoard) (i j : Z) (r : bool)
    (b' : MinesweeperBoard) (x y : Z) :
  well_shaped b = true → counts_ok b = true → visible_safe b = true →
  (first_move b = true → nothing_visible b = true) →
  in_grid b i j = true → mine_total b = num_mines b → won b = false →
  probe b i j = Some (r, b') → won b' = true →
  in_grid b' x y = true →
  is_visible b' (x, y) = negb (is_mine b' (x, y)).
Proof.
  intros Hws Hok Hvs Hfirst Hg Hmines Hwon Hp Hwon' Hxy.
  destruct (first_move_guard_safe_state b i j Hws Hok Hvs Hfirst Hg) as (Hws1 & Hok1 & Hvs1).
  destruct (first_move_guard_frame b i j Hws Hg)
    as (_ & Ew & Eh & En & Ev & Emk & _ & Ewon & _).
  pose proof (first_move_guard_mine_total b i j Hws Hg) as Emt.
  unfold probe in Hp. set (b1 := first_move_guard b i j) in *.
  assert (in_grid b1 i j = true) as Hg1 by (unfold in_grid; by rewrite Ew, Eh).
  destruct (is_mine b1 (i, j)) eqn:Hm.
  { rewrite probe_after_guard_mine in Hp by done. simplify_eq/=. congruence. }
  destruct (probe_after_guard_safe b1 i j Hws1 Hg1 Hm) as (vis2 & E & Hs2 & _ & _ & Hsafe).
  rewrite E in Hp. specialize (Hsafe Hok1 Hvs1).
  destruct (np_sum vis2 =? width b1 * height b1 - num_mines b1) eqn:Hsum.
  2:{ simplify_eq/=. congruence. }
  apply Z.eqb_eq in Hsum. injection Hp as <- <-.
  change (in_grid b1 x y = true) in Hxy.
  change (get2 false vis2 x y = negb (is_mine b1 (x, y))).
  pose proof Hxy as Hxy'. apply in_grid_spec in Hxy'.
  pose proof (safe_cells_count b1 ltac:(lia) ltac:(lia)) as Hsafe_count.
  set (V := filter (λ c : cell, get2 false vis2 c.1 c.2 = true)
                   (positions (height b1) (width b1))).
  set (S := filter (λ c, is_mine b1 c = false) (positions (height b1) (width b1))) in *.
  assert (Z.of_nat (length V) = width b1 * height b1 - num_mines b1) as HlenV.
  { rewrite <- Hsum. apply (np_sum_spec (height b1) (width b1)) in Hs2. by rewrite Hs2. }
  assert (V ≡ₚ S) as HP.
  { apply submseteq_length_Permutation; [|lia].
    apply NoDup_submseteq; [apply NoDup_filter, NoDup_positions|].
    intros c [Hc Hin]%list_elem_of_filter. apply list_elem_of_filter. split; [|done].
    apply Hsafe; [by apply elem_of_positions_grid|done]. }
  destruct (is_mine b1 (x, y)) eqn:Hmine; simpl.
  - destruct (get2 false vis2 x y) eqn:Hv; [|done].
    rewrite (Hsafe (x, y) Hxy Hv) in Hmine. done.
  - assert ((x, y) ∈ S) as Hin.
    { apply list_elem_of_filter. split; [done|]. by apply (elem_of_positions_grid b1 (x, y)). }
    rewrite <- HP in Hin. by apply list_elem_of_filter in Hin as [Hv _].
Qed.

Lemma probe_won_means_all_safe_cells_open_witness :
  probe (mkBoard 2 1 1 [[-1; 1]] [[false; false]] [[false; false]] true false false) 0 1
  = Some (true, won_board)
  ∧ is_visible won_board (0, 0) = negb (is_mine won_board (0, 0)).
Proof.
  split; [reflexivity|].
  apply (probe_won_means_all_safe_cells_open
           (mkBoard 2 1 1 [[-1; 1]] [[false; false]] [[false; false]] true false false)
           0 1 true won_board 0 0);
    [reflexivity|reflexivity|reflexivity|reflexivity|reflexivity|reflexivity|reflexivity
    |reflexivity|reflexivity|reflexivity].
Defined.

(** ** game.py: the parameters of a game *)

(** X19.  game.py, start_game and create_board_gui.  Whatever
    start_game hands to MinesweeperBoard (a preset, or custom values that
    passed the three checks) has width and height at least 5 and between
    1 and width*height - 1 mines; the board is created for every random
    draw; and min(30, 600 // max(width, height)) divides by no zero and
    gives a size between 0 and 30 with size * max(width, height) <= 600,
    which is 30 exactly for boards up to 20 cells a side and 0 exactly
    for boards of more than 600 cells a side. *)
Theorem start_game_parameters_are_playable (d : Difficulty) (w h n : Z) (rng : list nat) :
  board_parameters d = inr (w, h, n) →
  5 ≤ w ∧ 5 ≤ h ∧ 1 ≤ n < w * h
  ∧ is_Some (new_board rng w h n)
  ∧ ∃ size, button_size w h = Some size
      ∧ 0 ≤ size ≤ 30 ∧ size * Z.max w h ≤ 600
      ∧ (size = 30 ↔ Z.max w h ≤ 20) ∧ (size = 0 ↔ 600 < Z.max w h).
Proof.
  intros Hd.
  assert (5 ≤ w ∧ 5 ≤ h ∧ 1 ≤ n < w * h) as (Hw & Hh & Hn).
  { destruct d as [| | |w' h' n']; simpl in Hd; simplify_eq; try lia.
    destruct (validate_custom w' h' n') eqn:E; simplify_eq.
    by apply validate_custom_None. }
  split; [done|]. split; [done|]. split; [done|]. split.
  - destruct (new_board rng w h n) eqn:E; [done|].
    apply new_board_None in E. lia.
  - unfold button_size. destruct (Z.max w h =? 0) eqn:E; [lia|].
    eexists. split; [done|].
    assert (0 < Z.max w h) as Hpos by lia.
    generalize dependent (Z.max w h). intros m _ Hm.
    pose proof (Z.div_mod 600 m ltac:(lia)) as Hdm.
    pose proof (Z.mod_pos_bound 600 m Hm) as Hmod.
    assert (0 ≤ 600 `div` m) as Hq by (apply Z.div_pos; lia).
    split; [lia|]. split; [nia|]. split.
    + split; [intros Hs|intros Hle].
      * assert (30 ≤ 600 `div` m) by lia. nia.
      * assert (30 ≤ 600 `div` m); [|lia]. apply Z.div_le_lower_bound; lia.
    + split; [intros Hs|intros Hlt].
      * assert (600 `div` m = 0) by lia. nia.
      * rewrite Z.div_small by lia. lia.
Qed.

Lemma start_game_parameters_are_playable_witness :
  5 ≤ 30 ∧ 5 ≤ 16 ∧ 1 ≤ 99 < 30 * 16
  ∧ is_Some (new_board [] 30 16 99)
  ∧ ∃ size, button_size 30 16 = Some size
      ∧ 0 ≤ size ≤ 30 ∧ size * Z.max 30 16 ≤ 600
      ∧ (size = 30 ↔ Z.max 30 16 ≤ 20) ∧ (size = 0 ↔ 600 < Z.max 30 16).
Proof.
  apply (start_game_parameters_are_playable Hard 30 16 99 []). reflexivity.
Defined.

(** ** update_constraints *)

Lemma update_fold_app b (l : list cell) : ∀ cs,
  foldl (λ cs c, if is_visible b c then add_constraint_from_move b cs c else cs) cs l
  = cs ++ foldl (λ cs c, if is_visible b c then add_constraint_from_move b cs c else cs) [] l.
Proof.
  induction l as [|c l IH]; intros cs; simpl; [by rewrite app_nil_r|].
  rewrite IH. rewrite (IH (if is_visible b c then add_constraint_from_move b [] c else [])).
  rewrite app_assoc. f_equal.
  destruct (is_visible b c) eqn:Hv; [|by rewrite app_nil_r].
  unfold add_constraint_from_move. rewrite Hv. simpl. destruct (_ && _); [done|].
  by rewrite app_nil_r.
Qed.

(** X20.  update_constraints leaves the board alone and only appends:
    the new list is the old one followed by the constraints of the
    visible cells of the board.  Nothing is removed or merged, so a
    second call appends the same batch once more. *)
Theorem update_constraints_appends_a_batch (s : CSPStrategy) :
  (update_constraints s).1 = s.1
  ∧ (update_constraints s).2 = s.2 ++ constraints_of_board s.1
  ∧ (update_constraints (update_constraints s)).2
    = s.2 ++ constraints_of_board s.1 ++ constraints_of_board s.1.
Proof.
  assert (∀ s0, (update_constraints s0).2 = s0.2 ++ constraints_of_board s0.1) as H.
  { intros s0. unfold update_constraints, constraints_of_board. simpl. apply update_fold_app. }
  split; [done|]. split; [apply H|].
  rewrite H, H. simpl. by rewrite <- app_assoc.
Qed.

(** X21.  update_constraints keeps a sound state sound: on a board
    of consistent counts whose visible cells are safe, each constraint it
    adds (the hidden neighbours of a visible cell, with that cell's
    number) is true of the hidden board. *)
Theorem update_constraints_adds_true_constraints (s : CSPStrategy) :
  sound_state s = true → sound_state (update_constraints s) = true.
Proof. apply update_constraints_sound. Qed.

Lemma update_constraints_adds_true_constraints_witness :
  sound_state (update_constraints (row_board_probed, [])) = true.
Proof.
  apply (update_constraints_adds_true_constraints (row_board_probed, [])). reflexivity.
Defined.

(** ** The simplifications *)

(** X22.  simplify_constraints on a sound state reveals only cells
    without a mine and marks only mines, and the constraints it keeps are
    true of the hidden board: the state it leaves is sound.  It changes
    neither the hidden board nor the dimensions, the mine count or the
    flags first_move, game_over and won. *)
Theorem simplify_constraints_keeps_state_sound (s : CSPStrategy) :
  sound_state s = true →
  sound_state (simplify_constraints s) = true
  ∧ board (simplify_constraints s).1 = board s.1
  ∧ width (simplify_constraints s).1 = width s.1
  ∧ height (simplify_constraints s).1 = height s.1
  ∧ num_mines (simplify_constraints s).1 = num_mines s.1
  ∧ first_move (simplify_constraints s).1 = first_move s.1
  ∧ game_over (simplify_constraints s).1 = game_over s.1
  ∧ won (simplify_constraints s).1 = won s.1.
Proof.
  intros Hs. destruct (simplify_constraints_sound s Hs) as (H1 & H2 & H3 & H4).
  destruct (simplify_constraints_flags s) as (F1 & F2 & F3 & F4). done.
Qed.

Lemma simplify_constraints_keeps_state_sound_witness :
  sound_state (simplify_constraints row_solver) = true
  ∧ board (simplify_constraints row_solver).1 = board row_solver.1
  ∧ width (simplify_constraints row_solver).1 = width row_solver.1
  ∧ height (simplify_constraints row_solver).1 = height row_solver.1
  ∧ num_mines (simplify_constraints row_solver).1 = num_mines row_solver.1
  ∧ first_move (simplify_constraints row_solver).1 = first_move row_solver.1
  ∧ game_over (simplify_constraints row_solver).1 = game_over row_solver.1
  ∧ won (simplify_constraints row_solver).1 = won row_solver.1.
Proof.
  apply (simplify_constraints_keeps_state_sound row_solver). vm_compute. reflexivity.
Defined.

(** X23.  simplify_constraints_by_subset keeps constraints true:
    when every constraint of the list holds on the hidden board, so does
    every constraint of the list the loop ends with. *)
Theorem simplify_constraints_by_subset_keeps_truth (b : MinesweeperBoard)
    (cs cs' : list Constraint) :
  all_hold b cs = true → simplify_constraints_by_subset cs = Some cs' →
  all_hold b cs' = true.
Proof. intros Hall Hrun. by eapply subset_loop_holds. Qed.

Lemma simplify_constraints_by_subset_keeps_truth_witness :
  all_hold stale_board [mkConstraint {[ (0, 0) ]} 0; mkConstraint {[ (0, 2) ]} 1] = true.
Proof.
  apply (simplify_constraints_by_subset_keeps_truth stale_board stale_solver.2).
  - vm_compute. reflexivity.
  - vm_compute. reflexivity.
Defined.

(** ** Certain moves *)

(** X24.  The marks of find_certain_move and solve_constraints are
    right: on constraints that hold on the hidden board, the cell of a
    'mark' move lies in the grid and holds a mine. *)
Theorem certain_marks_are_mines (b : MinesweeperBoard) (cs : list Constraint)
    (v : cell) (r : Reason) :
  all_hold b cs = true →
  find_certain_move b cs = Some (Mark, v, r) ∨ solve_constraints cs = Some (Mark, v, r) →
  in_grid b v.1 v.2 = true ∧ is_mine b v = true.
Proof. intros Hall Hmove. apply (certain_move_correct b cs Mark v r Hall Hmove). Qed.

Lemma certain_marks_are_mines_witness :
  in_grid row_solver.1 0 1 = true ∧ is_mine row_solver.1 (0, 1) = true.
Proof.
  apply (certain_marks_are_mines row_solver.1 row_solver.2 (0, 1) MustBeMine_AllVariables).
  - vm_compute. reflexivity.
  - left. vm_compute. reflexivity.
Defined.

(** ** next_move *)

Lemma constraints_in_grid_spec s :
  constraints_in_grid s = true
  ↔ ∀ c v, c ∈ s.2 → v ∈ variables c → in_grid s.1 v.1 v.2 = true.
Proof.
  unfold constraints_in_grid. rewrite forallb_forall.
  setoid_rewrite forallb_forall. setoid_rewrite <- list_elem_of_In.
  setoid_rewrite elem_of_elements. naive_solver.
Qed.

(** One constraint handled by simplify_constraints on a well-shaped
    board, its variables in the grid: the board keeps its shape, and the
    constraint kept names variables of the old one. *)
Lemma simplify_one_in_grid st c :
  well_shaped st.1 = true →
  (∀ v, v ∈ variables c → in_grid st.1 v.1 v.2 = true) →
  width (simplify_one st c).1 = width st.1
  ∧ height (simplify_one st c).1 = height st.1
  ∧ well_shaped (simplify_one st c).1 = true
  ∧ ∀ c', c' ∈ (simplify_one st c).2 → c' ∈ st.2 ∨ variables c' ⊆ variables c.
Proof.
  destruct st as [b acc]. simpl. intros Hws Hgrid.
  unfold simplify_one. cbn [fst snd]. rewrite classify_fold. cbn [fst snd app].
  set (unknown := filter (λ v, is_visible b v = false ∧ is_marked b v = false)
                         (elements (variables c))).
  set (nmarked := length (filter (λ v, is_visible b v = false ∧ is_marked b v = true)
                                 (elements (variables c)))).
  assert (∀ v, v ∈ unknown → v ∈ variables c) as Hin.
  { intros v [_ Hv]%list_elem_of_filter. by apply elem_of_elements. }
  assert (∀ v, v ∈ unknown → 0 ≤ v.1 < height b ∧ 0 ≤ v.2 < width b) as Hunk.
  { intros v Hv. apply in_grid_spec. auto. }
  pose proof Hws as Hws'. apply well_shaped_spec in Hws' as (Hsb & Hsv & Hsm).
  case_bool_decide as Hlen; [by auto|].
  destruct (value c - Z.of_nat nmarked =? 0).
  { destruct (foldl_reveal_fields unknown b) as (Ev & Eb & Em & Ew & Eh).
    destruct (foldl_set_true (height b) (width b) unknown (visible b) Hsv Hunk) as [S1 _].
    cbn [fst snd]. split_and!; [done..| |by auto].
    apply well_shaped_spec. by rewrite Ew, Eh, Eb, Ev, Em. }
  destruct (value c - Z.of_nat nmarked =? Z.of_nat (length unknown)).
  { destruct (foldl_mark_fields unknown b) as (Em & Eb & Ev & Ew & Eh).
    destruct (foldl_set_true (height b) (width b) unknown (marked b) Hsm Hunk) as [S1 _].
    cbn [fst snd]. split_and!; [done..| |by auto].
    apply well_shaped_spec. by rewrite Ew, Eh, Eb, Ev, Em. }
  cbn [fst snd]. split_and!; [done..|].
  intros c' [Hc'|Hc']%elem_of_app; [by left|right].
  apply list_elem_of_singleton in Hc' as ->. simpl.
  intros v Hv%elem_of_list_to_set. auto.
Qed.

Lemma simplify_constraints_in_grid s :
  well_shaped s.1 = true → constraints_in_grid s = true →
  width (simplify_constraints s).1 = width s.1
  ∧ height (simplify_constraints s).1 = height s.1
  ∧ well_shaped (simplify_constraints s).1 = true
  ∧ constraints_in_grid (simplify_constraints s) = true.
Proof.
  intros Hws Hgrid. rewrite constraints_in_grid_spec in Hgrid.
  unfold simplify_constraints.
  assert (∀ cs st,
            well_shaped st.1 = true →
            (∀ c v, c ∈ cs ∨ c ∈ st.2 → v ∈ variables c → in_grid st.1 v.1 v.2 = true) →
            width (foldl simplify_one st cs).1 = width st.1
            ∧ height (foldl simplify_one st cs).1 = height st.1
            ∧ well_shaped (foldl simplify_one st cs).1 = true
            ∧ ∀ c v, c ∈ (foldl simplify_one st cs).2 → v ∈ variables c →
                     in_grid st.1 v.1 v.2 = true) as H.
  { induction cs as [|c cs IH]; intros st H1 H2; simpl.
    { split_and!; [done..|]. intros c v Hc. apply H2. by right. }
    destruct (simplify_one_in_grid st c H1) as (Ew & Eh & S1 & S2).
    { intros v. apply H2. left. by left. }
    assert (∀ i j, in_grid (simplify_one st c).1 i j = in_grid st.1 i j) as Eg.
    { intros i j. unfold in_grid. by rewrite Ew, Eh. }
    destruct (IH (simplify_one st c) S1) as (I1 & I2 & I3 & I4).
    { intros c' v Hc' Hv. rewrite Eg. destruct Hc' as [Hc'|Hc'].
      - apply (H2 c'); [left; by right|done].
      - destruct (S2 c' Hc') as [Hacc|Hsub].
        + apply (H2 c'); [by right|done].
        + apply (H2 c); [left; by left|]. by apply Hsub. }
    split_and!; [congruence..|done|].
    intros c' v Hc' Hv. rewrite <- Eg. by apply (I4 c'). }
  destruct (H s.2 (s.1, [])) as (I1 & I2 & I3 & I4); [done| |].
  { intros c v [Hc|Hc]; [by apply Hgrid|by apply elem_of_nil in Hc]. }
  split_and!; [done..|]. apply constraints_in_grid_spec. intros c v Hc Hv.
  unfold in_grid. rewrite I1, I2. by apply (I4 c).
Qed.

(** The subset elimination only removes variables. *)
Lemma subset_inner_variables i c1 : ∀ j todo c,
  c ∈ (subset_inner i c1 j todo).1 → ∃ c2, c2 ∈ todo ∧ variables c ⊆ variables c2.
Proof.
  intros j todo. revert j. induction todo as [|c2 rest IH]; intros j c; simpl.
  { by intros ?%elem_of_nil. }
  destruct (negb (i =? j)%nat && bool_decide (variables c1 ⊆ variables c2)).
  - case_bool_decide; simpl.
    + intros Hc. exists c. split; [by right|done].
    + intros [->|Hc]%elem_of_cons.
      * exists c2. split; [by left|]. simpl.
        intros v [Hv _]%elem_of_difference. done.
      * destruct (IH _ _ Hc) as (c3 & ? & ?). exists c3. split; [by right|done].
  - simpl. intros [->|Hc]%elem_of_cons.
    + exists c2. split; [by left|done].
    + destruct (IH _ _ Hc) as (c3 & ? & ?). exists c3. split; [by right|done].
Qed.

Lemma subset_outer_variables cs : ∀ i todo c,
  c ∈ (subset_outer cs i todo).1 → ∃ c2, c2 ∈ cs ∧ variables c ⊆ variables c2.
Proof.
  intros i todo. revert i. induction todo as [|c1 todo IH]; intros i c; simpl.
  { intros Hc. by exists c. }
  destruct (subset_inner i c1 0 cs).2 eqn:E.
  - apply subset_inner_variables.
  - apply IH.
Qed.

Lemma subset_loop_variables fuel : ∀ cs cs' c,
  subset_loop fuel cs = Some cs' → c ∈ cs' →
  ∃ c2, c2 ∈ cs ∧ variables c ⊆ variables c2.
Proof.
  induction fuel as [|fuel IH]; intros cs cs' c; simpl;
    destruct (subset_pass cs).2 eqn:E; try done;
    try (intros [= <-] Hc; by exists c).
  intros Hrun Hc. destruct (IH _ _ _ Hrun Hc) as (c2 & Hc2 & Hsub).
  destruct (subset_outer_variables cs 0 cs c2 Hc2) as (c3 & Hc3 & Hsub').
  exists c3. split; [done|]. set_solver.
Qed.

(** X25.  On a well-shaped board and constraints whose variables are
    grid cells, so that every visible[i, j] and marked[i, j] of steps 1
    to 5 is an access within the arrays, next_move returns for every
    step 6/7 and random draw: the subset loop and the breadth-first
    search of its steps 2 and 3 end, and random.choice is never handed
    an empty list.  The solver it leaves is again of this kind, with a
    board of the same dimensions. *)
Theorem next_move_always_returns (guess : CSPStrategy → option Move) (r : nat)
    (s : CSPStrategy) :
  well_shaped s.1 = true → constraints_in_grid s = true →
  ∃ move s', next_move guess r s = Some (move, s')
    ∧ height s'.1 = height s.1 ∧ width s'.1 = width s.1
    ∧ well_shaped s'.1 = true ∧ constraints_in_grid s' = true.
Proof.
  intros Hws Hgrid.
  destruct (simplify_constraints_in_grid s Hws Hgrid) as (Ew & Eh & Hws1 & Hgrid1).
  destruct (next_move_returns guess r s) as [[move s'] E].
  exists move, s'. split; [done|].
  assert (∃ cs2, simplify_constraints_by_subset (simplify_constraints s).2 = Some cs2
                 ∧ s' = ((simplify_constraints s).1, cs2)) as (cs2 & Esub & ->).
  { unfold next_move in E.
    destruct (simplify_constraints_by_subset (simplify_constraints s).2) as [cs2|];
      simpl in E; [|done].
    exists cs2. split; [done|].
    destruct (find_certain_move _ _); [by simplify_eq|].
    destruct (find_coupled_constraints cs2); simpl in E; [|done].
    destruct (try_components _ _ _) as [[m|]|]; simpl in E; by simplify_eq. }
  cbn [fst snd]. split_and!; [done..|].
  apply constraints_in_grid_spec. intros c v Hc Hv. cbn [fst snd] in *.
  destruct (subset_loop_variables _ _ _ c Esub Hc) as (c2 & Hc2 & Hsub).
  rewrite constraints_in_grid_spec in Hgrid1. apply (Hgrid1 c2); [done|]. by apply Hsub.
Qed.

Lemma next_move_always_returns_witness :
  ∃ move s', next_move (λ _, None) 0 ledge_solver = Some (move, s')
    ∧ height s'.1 = height ledge_solver.1 ∧ width s'.1 = width ledge_solver.1
    ∧ well_shaped s'.1 = true ∧ constraints_in_grid s' = true.
Proof.
  apply (next_move_always_returns (λ _, None) 0 ledge_solver).
  - vm_compute. reflexivity.
  - vm_compute. reflexivity.
Defined.

(** X26.  On a sound solver state, a move that next_move justifies
    by a constraint or by the enumeration is correct on the board
    next_move leaves: its cell lies in the grid and holds no mine for a
    probe, a mine for a mark.  The state left is sound and the hidden
    board unchanged. *)
Theorem next_move_certain_moves_are_correct (guess : CSPStrategy → option Move) (r : nat)
    (s : CSPStrategy) (a : Action) (v : cell) (reason : Reason) (s' : CSPStrategy) :
  (∀ s0 a0 v0 reason0, guess s0 = Some (a0, v0, reason0) →
                       reason0 = BestGuess ∨ reason0 = Unconstrained) →
  sound_state s = true →
  next_move guess r s = Some (Some (a, v, reason), s') →
  reason = MustBeMine_AllVariables ∨ reason = MustBeClear_AllVariables
  ∨ reason = ClearInEverySolution ∨ reason = MineInEverySolution →
  sound_state s' = true
  ∧ board s'.1 = board s.1
  ∧ in_grid s'.1 v.1 v.2 = true
  ∧ is_mine s'.1 v = match a with Probe => false | Mark => true end.
Proof.
  intros Hguess Hs Hrun Hreason.
  destruct (next_move_certain_correct guess r s a v reason s' Hguess Hs Hrun)
    as (H1 & H2 & H3).
  destruct (H3 Hreason). done.
Qed.

Lemma next_move_certain_moves_are_correct_witness :
  ∃ s', next_move (λ _, None) 0 ledge_solver
        = Some (Some (Probe, (0, 2), MustBeClear_AllVariables), s')
    ∧ sound_state s' = true
    ∧ board s'.1 = board ledge_solver.1
    ∧ in_grid s'.1 0 2 = true
    ∧ is_mine s'.1 (0, 2) = false.
Proof.
  eexists. split; [vm_compute; reflexivity|].
  apply (next_move_certain_moves_are_correct (λ _, None) 0 ledge_solver Probe (0, 2)
           MustBeClear_AllVariables);
    [discriminate|vm_compute; reflexivity|vm_compute; reflexivity|right; left; reflexivity].
Defined.

(** ** find_coupled_constraints returns *)

(** X27.  find_coupled_constraints returns for every constraint
    list (its breadth-first search ends), and none of the components
    returned is empty. *)
Theorem find_coupled_constraints_always_returns (cs : list Constraint) :
  ∃ comps, find_coupled_constraints cs = Some comps
    ∧ ∀ comp, comp ∈ comps → comp ≠ [].
Proof. apply find_coupled_constraints_returns. Qed.

(** ** simplify_constraints_by_subset beside a constraint without
    variables *)

Lemma subset_pass_empty_beside (e c : Constraint) :
  variables e = ∅ → variables c ≠ ∅ →
  subset_pass [e; c] = ([e; mkConstraint (variables c) (value c - value e)], true).
Proof.
  intros He Hc. unfold subset_pass. simpl.
  rewrite bool_decide_true by (rewrite He; set_solver).
  assert (variables c ∖ variables e = variables c) as -> by (rewrite He; set_solver).
  rewrite bool_decide_false by done. simpl. done.
Qed.

(** X28.  simplify_constraints_by_subset relies on constraints that
    have a variable.  On a list made of a constraint without variables
    followed by one with variables every pass rewrites the second
    constraint (the empty set is a subset of its variables) and sets
    changed again: the loop never ends, whatever the number of passes
    allowed. *)
Theorem simplify_constraints_by_subset_loops_on_empty_constraint (e c : Constraint)
    (fuel : nat) :
  variables e = ∅ → variables c ≠ ∅ →
  subset_loop fuel [e; c] = None.
Proof.
  intros He. revert c. induction fuel as [|fuel IH]; intros c Hc.
  - cbn [subset_loop]. by rewrite (subset_pass_empty_beside e c He Hc).
  - cbn [subset_loop]. rewrite (subset_pass_empty_beside e c He Hc). simpl.
    by apply IH.
Qed.

Lemma simplify_constraints_by_subset_loops_on_empty_constraint_witness :
  subset_loop 1000 [mkConstraint ∅ 0; one_mine_at_1] = None.
Proof.
  apply (simplify_constraints_by_subset_loops_on_empty_constraint
           (mkConstraint ∅ 0) one_mine_at_1 1000).
  - reflexivity.
  - apply (bool_decide_unpack _). vm_compute. exact I.
Defined.

(** ** The first probe on a board without a safe cell *)

(** X29.  The first-move guard finds no cell to move the mine to when
    every cell holds a mine (a board the constructor accepts): the first
    probe then returns False and sets game_over, the hidden board
    unchanged. *)
Theorem first_probe_loses_on_full_minefield (b : MinesweeperBoard) (i j : Z) :
  well_shaped b = true → first_move b = true → in_grid b i j = true →
  mine_total b = width b * height b →
  probe b i j = Some (false, with_game_over (with_first_move b false) true).
Proof.
  intros Hws Hf Hg Hfull.
  assert (∀ c, c ∈ positions (height b) (width b) → is_mine b c = true) as Hall.
  { apply (filter_length_full (λ c, is_mine b c = true)).
    unfold mine_total in Hfull. rewrite length_positions.
    apply in_grid_spec in Hg. nia. }
  assert (first_safe_cell b = None) as Hnone.
  { unfold first_safe_cell.
    destruct (head (filter (λ c, is_mine b c = false) (positions (height b) (width b))))
      as [c|] eqn:E; [|done].
    apply head_filter_Some in E as [Hc Hin]. simpl in Hc. rewrite Hall in Hc; done. }
  assert (is_mine b (i, j) = true) as Hm by (by apply Hall, (elem_of_positions_grid b (i, j))).
  unfold probe.
  destruct (first_move_guard_cases b i j Hws Hg)
    as [[Hf' _]|[(_ & Hm' & _)|[(_ & _ & _ & E)|(_ & _ & c & Hc & _)]]];
    [congruence|congruence| |congruence].
  rewrite E. by apply probe_after_guard_mine.
Qed.

Lemma first_probe_loses_on_full_minefield_witness :
  probe (mkBoard 2 1 2 [[-1; -1]] [[false; false]] [[false; false]] true false false) 0 0
  = Some (false,
          with_game_over
            (with_first_move
               (mkBoard 2 1 2 [[-1; -1]] [[false; false]] [[false; false]] true false false)
               false) true).
Proof.
  apply (first_probe_loses_on_full_minefield
           (mkBoard 2 1 2 [[-1; -1]] [[false; false]] [[false; false]] true false false) 0 0);
    reflexivity.
Defined.
